(** * Sound-effect scheduling of chess videos: a shallow embedding

    This development embeds the two library files

      - [src/lib/sound-effects-config.ts]   (the cue catalog and its lookups)
      - [src/lib/sound-effect-triggers.ts]  (classification, frame placement,
                                             schedule building, overlap filter)

    together with the media library ([media-library-config.ts]) and the
    frame filter of the sound layer component, and states the properties of the scheduling engine over that embedding.

    Modelling conventions.
      - Frame numbers, priorities and centipawn evaluations are JavaScript
        numbers holding integers; they are embedded as [Z].
      - Volumes are JavaScript numbers holding fractions; they are embedded as
        exact rationals [Q] (no rounding is modelled, no property below
        depends on the arithmetic of volumes).
      - An optional field ([volume?], [evaluation?], ...) is an [option];
        [None] is JavaScript's [undefined].
      - A JavaScript array that may hold [undefined] entries is a
        [list (option _)].
      - [Math.random] and a thrown exception are the two effects of the code;
        they are threaded through the small monad [Run] below.  A draw is an
        exact rational, and the product of a draw and an array length is
        taken exactly before [Math.floor]; the code rounds that product to
        a double, which gives the same index except at draws within
        rounding distance of a multiple of [1 / length]; at a dyadic draw
        with few bits (0, 1/2, [m / 1024]) the double product is exact.
      - [chess.js] is an external library: its [Chess] object is an interface
        ([ChessJs]) the schedule builder is parameterised by. *)

From Stdlib Require Import String Ascii List ZArith QArith Qround Bool Lia
  Permutation.
Import ListNotations.
Local Open Scope string_scope.
Local Open Scope list_scope.
Local Open Scope Z_scope.

Set Implicit Arguments.

(* ===================================================================== *)
(** * JavaScript string primitives used by the code *)
(* ===================================================================== *)

Module JsString.

(** [c.toLowerCase()] on one code unit.  Only the Latin capitals A-Z are
    mapped; no character outside ASCII lower-cases to an ASCII letter among
    p, n, b, r, q, which is all the code below compares against. *)
Definition lower_ascii (c : ascii) : ascii :=
  let n := nat_of_ascii c in
  if ((65 <=? n)%nat && (n <=? 90)%nat)%bool then ascii_of_nat (n + 32) else c.

(** [s.toLowerCase()] *)
Fixpoint toLowerCase (s : string) : string :=
  match s with
  | EmptyString => EmptyString
  | String c rest => String (lower_ascii c) (toLowerCase rest)
  end.

(** [s.includes(needle)] *)
Fixpoint includes (s needle : string) : bool :=
  (String.prefix needle s
   || match s with
      | EmptyString => false
      | String _ rest => includes rest needle
      end)%bool.

(** Truthiness of a string value: the empty string is falsy. *)
Definition truthy (s : string) : bool :=
  match s with EmptyString => false | _ => true end.

End JsString.

(* ===================================================================== *)
(** * sound-effects-config.ts *)
(* ===================================================================== *)

Module Config.

(** [type SoundEffectCategory] *)
Inductive SoundEffectCategory : Type :=
| piece_capture
| crowd_reaction
| atmosphere
| clock
| special_moves.

Definition category_eqb (a b : SoundEffectCategory) : bool :=
  match a, b with
  | piece_capture, piece_capture
  | crowd_reaction, crowd_reaction
  | atmosphere, atmosphere
  | clock, clock
  | special_moves, special_moves => true
  | _, _ => false
  end.

(** [interface SoundEffect] *)
Record SoundEffect : Type := mkSoundEffect {
  id : string;
  category : SoundEffectCategory;
  path : string;
  volume : option Q;
  description : string
}.

(** [SOUND_EFFECTS]: the catalog, one array per category. *)
Definition SOUND_EFFECTS (c : SoundEffectCategory) : list SoundEffect :=
  match c with
  | piece_capture =>
      [ mkSoundEffect "capture-pawn" piece_capture
          "sounds/pieces/capture-pawn.mp3" (Some (4 # 10)%Q)
          "Pawn capture sound";
        mkSoundEffect "capture-minor" piece_capture
          "sounds/pieces/capture-minor.mp3" (Some (45 # 100)%Q)
          "Knight/Bishop capture sound";
        mkSoundEffect "capture-rook" piece_capture
          "sounds/pieces/capture-rook.mp3" (Some (5 # 10)%Q)
          "Rook capture sound";
        mkSoundEffect "capture-queen" piece_capture
          "sounds/pieces/capture-queen.mp3" (Some (6 # 10)%Q)
          "Queen capture - dramatic" ]
  | crowd_reaction =>
      [ mkSoundEffect "gasp-01" crowd_reaction
          "sounds/crowd/gasp-01.mp3" (Some (35 # 100)%Q)
          "Crowd gasp for blunders";
        mkSoundEffect "gasp-02" crowd_reaction
          "sounds/crowd/gasp-02.mp3" (Some (35 # 100)%Q)
          "Crowd gasp variant";
        mkSoundEffect "applause-01" crowd_reaction
          "sounds/crowd/applause-01.mp3" (Some (3 # 10)%Q)
          "Applause for brilliant moves";
        mkSoundEffect "applause-02" crowd_reaction
          "sounds/crowd/applause-02.mp3" (Some (3 # 10)%Q)
          "Applause variant";
        mkSoundEffect "murmur" crowd_reaction
          "sounds/crowd/murmur.mp3" (Some (2 # 10)%Q)
          "Low crowd murmur for tense moments";
        mkSoundEffect "cheer" crowd_reaction
          "sounds/crowd/cheer.mp3" (Some (4 # 10)%Q)
          "Victory cheer for checkmate" ]
  | atmosphere =>
      [ mkSoundEffect "tournament-hall" atmosphere
          "sounds/atmosphere/tournament-hall.mp3" (Some (15 # 100)%Q)
          "Background tournament ambience";
        mkSoundEffect "chess-pieces-background" atmosphere
          "sounds/atmosphere/pieces-background.mp3" (Some (1 # 10)%Q)
          "Subtle background piece movement sounds" ]
  | clock =>
      [ mkSoundEffect "clock-tick" clock
          "sounds/clock/tick.mp3" (Some (25 # 100)%Q)
          "Chess clock ticking";
        mkSoundEffect "clock-tick-fast" clock
          "sounds/clock/tick-fast.mp3" (Some (3 # 10)%Q)
          "Faster ticking for time pressure";
        mkSoundEffect "clock-press" clock
          "sounds/clock/press.mp3" (Some (3 # 10)%Q)
          "Clock press sound" ]
  | special_moves =>
      [ mkSoundEffect "check" special_moves
          "sounds/special/check.mp3" (Some (4 # 10)%Q)
          "Check sound";
        mkSoundEffect "checkmate" special_moves
          "sounds/special/checkmate.mp3" (Some (5 # 10)%Q)
          "Checkmate sound";
        mkSoundEffect "castle" special_moves
          "sounds/special/castle.mp3" (Some (35 # 100)%Q)
          "Castling sound";
        mkSoundEffect "promotion" special_moves
          "sounds/special/promotion.mp3" (Some (4 # 10)%Q)
          "Pawn promotion sound" ]
  end.

(** [Object.values(SOUND_EFFECTS)] enumerates the keys in the order the
    object literal lists them. *)
Definition SOUND_EFFECTS_keys : list SoundEffectCategory :=
  [piece_capture; crowd_reaction; atmosphere; clock; special_moves].

(** [arr[i]] for a numeric index: [undefined] outside the array. *)
Definition js_index {A : Type} (arr : list A) (i : Z) : option A :=
  if i <? 0 then None else nth_error arr (Z.to_nat i).

(** [getSoundEffect(id)]: first catalog entry with that id, the categories
    visited in the order of [Object.values]. *)
Fixpoint getSoundEffect_in (cats : list SoundEffectCategory) (i : string)
  : option SoundEffect :=
  match cats with
  | [] => None
  | c :: rest =>
      match find (fun e => String.eqb (id e) i) (SOUND_EFFECTS c) with
      | Some effect => Some effect
      | None => getSoundEffect_in rest i
      end
  end.

Definition getSoundEffect (i : string) : option SoundEffect :=
  getSoundEffect_in SOUND_EFFECTS_keys i.

(** [getRandomSound(category)], given the value [r] that [Math.random()]
    returned: [sounds[Math.floor(r * sounds.length)]], the product taken
    exactly. *)
Definition getRandomSound_at (r : Q) (c : SoundEffectCategory)
  : option SoundEffect :=
  let sounds := SOUND_EFFECTS c in
  js_index sounds (Qfloor (r * inject_Z (Z.of_nat (length sounds)))).

(** [getCaptureSound(capturedPiece)] *)
Definition getCaptureSound (capturedPiece : string) : option SoundEffect :=
  let piece := JsString.toLowerCase capturedPiece in
  if String.eqb piece "p" then
    js_index (SOUND_EFFECTS piece_capture) 0
  else if (String.eqb piece "n" || String.eqb piece "b")%bool then
    js_index (SOUND_EFFECTS piece_capture) 1
  else if String.eqb piece "r" then
    js_index (SOUND_EFFECTS piece_capture) 2
  else if String.eqb piece "q" then
    js_index (SOUND_EFFECTS piece_capture) 3
  else
    js_index (SOUND_EFFECTS piece_capture) 0.

(** [interface SoundEffectSettings] *)
Record SoundEffectSettings : Type := mkSettings {
  enabled : bool;
  capturesEnabled : bool;
  crowdEnabled : bool;
  atmosphereEnabled : bool;
  clockEnabled : bool;
  specialMovesEnabled : bool;
  masterVolume : Q
}.

Definition DEFAULT_SOUND_SETTINGS : SoundEffectSettings :=
  {| enabled := true;
     capturesEnabled := true;
     crowdEnabled := true;
     atmosphereEnabled := true;
     clockEnabled := false;
     specialMovesEnabled := true;
     masterVolume := 1%Q |}.

End Config.

(* ===================================================================== *)
(** * sound-effect-triggers.ts *)
(* ===================================================================== *)

Module Triggers.
Import Config.

(** [interface MoveAnalysis] *)
Record MoveAnalysis : Type := mkMoveAnalysis {
  move : string;
  fen : string;
  evaluation : option Z;
  previousEvaluation : option Z;
  capturedPiece : option string;
  isCheck : bool;
  isCheckmate : bool;
  isCastle : bool;
  isPromotion : bool;
  moveNumber : Z
}.

(** [interface SoundTrigger] *)
Record SoundTrigger : Type := mkSoundTrigger {
  soundEffect : SoundEffect;
  startFrame : Z;
  priority : Z
}.

(** A parameter with a default value: [undefined] selects the default. *)
Definition with_default {A : Type} (d : A) (arg : option A) : A :=
  match arg with Some a => a | None => d end.

(** [arr.push(x)] *)
Definition push {A : Type} (arr : list A) (x : A) : list A := arr ++ [x].

(** [const s = lookup; if (s) arr.push(s)]: an object is always truthy, so
    the push happens exactly when the lookup is defined. *)
Definition push_if_found {A : Type} (arr : list (option A)) (x : option A)
  : list (option A) :=
  match x with Some _ => push arr x | None => arr end.

(** ** The effects of the code: [Math.random] and exceptions *)

Section Effects.

(** [random n] is the value the [n]-th call of [Math.random()] returns. *)
Variable random : nat -> Q.

(** A computation reads the number of draws made so far and either throws
    ([None]) or returns a value and the new number of draws. *)
Definition Run (A : Type) : Type := nat -> option (A * nat).

Definition ret {A : Type} (a : A) : Run A := fun n => Some (a, n).

Definition bind {A B : Type} (m : Run A) (k : A -> Run B) : Run B :=
  fun n => match m n with
           | Some (a, n') => k a n'
           | None => None
           end.

Definition throw {A : Type} : Run A := fun _ => None.

Definition lift {A : Type} (o : option A) : Run A :=
  match o with Some a => ret a | None => throw end.

Definition Math_random : Run Q := fun n => Some (random n, S n).

Notation "x <- m ;; k" := (bind m (fun x => k))
  (at level 61, m at next level, right associativity).

(** [getRandomSound(category)] *)
Definition getRandomSound (c : SoundEffectCategory) : Run (option SoundEffect) :=
  r <- Math_random ;;
  ret (getRandomSound_at r c).

(** [(sound.volume || fallback)]: [undefined] and [0] are falsy. *)
Definition volume_or (v : option Q) (fallback : Q) : Q :=
  match v with
  | Some q => if Qeq_bool q 0 then fallback else q
  | None => fallback
  end.

(** [{...sound, volume: (sound.volume || fallback) * masterVolume}] *)
Definition scale_volume (fallback : Q) (settings : SoundEffectSettings)
  (sound : SoundEffect) : SoundEffect :=
  {| id := id sound;
     category := category sound;
     path := path sound;
     volume := Some (volume_or (volume sound) fallback * masterVolume settings)%Q;
     description := description sound |}.

(** [sounds.map(sound => ({...sound, volume: ...}))]: reading [sound.volume]
    of an [undefined] entry throws a TypeError. *)
Fixpoint apply_master_volume (settings : SoundEffectSettings)
  (sounds : list (option SoundEffect)) : option (list SoundEffect) :=
  match sounds with
  | [] => Some []
  | None :: _ => None
  | Some sound :: rest =>
      match apply_master_volume settings rest with
      | Some rest' => Some (scale_volume (5 # 10) settings sound :: rest')
      | None => None
      end
  end.

(** The special-move block of [analyzeMoveForSounds]. *)
Definition special_move_sounds (analysis : MoveAnalysis)
  (settings : SoundEffectSettings) (sounds : list (option SoundEffect))
  : list (option SoundEffect) :=
  if specialMovesEnabled settings then
    if isCheckmate analysis then
      push_if_found sounds (getSoundEffect "checkmate")
    else if isCheck analysis then
      push_if_found sounds (getSoundEffect "check")
    else if isCastle analysis then
      push_if_found sounds (getSoundEffect "castle")
    else if isPromotion analysis then
      push_if_found sounds (getSoundEffect "promotion")
    else sounds
  else sounds.

(** The capture block: [settings.capturesEnabled && analysis.capturedPiece]
    is truthy when the flag is on and the piece code is a non-empty string. *)
Definition capture_sounds (analysis : MoveAnalysis)
  (settings : SoundEffectSettings) (sounds : list (option SoundEffect))
  : list (option SoundEffect) :=
  match capturedPiece analysis with
  | Some piece =>
      if (capturesEnabled settings && JsString.truthy piece)%bool then
        push sounds (getCaptureSound piece)
      else sounds
  | None => sounds
  end.

(** The crowd-reaction block. *)
Definition crowd_sounds (analysis : MoveAnalysis)
  (settings : SoundEffectSettings) (sounds : list (option SoundEffect))
  : Run (list (option SoundEffect)) :=
  match evaluation analysis, previousEvaluation analysis with
  | Some ev, Some prev =>
      if crowdEnabled settings then
        let evalChange := Z.abs (ev - prev) in
        if evalChange >? 200 then
          gasp <- getRandomSound crowd_reaction ;;
          ret (push sounds gasp)
        else if ev - prev >? 150 then
          let applause :=
            find (fun s => JsString.includes (id s) "applause")
                 (SOUND_EFFECTS crowd_reaction) in
          ret (push_if_found sounds applause)
        else ret sounds
      else ret sounds
  | _, _ => ret sounds
  end.

(** [analyzeMoveForSounds(analysis, settings)] *)
Definition analyzeMoveForSounds (analysis : MoveAnalysis)
  (settings : SoundEffectSettings) : Run (list SoundEffect) :=
  if negb (enabled settings) then ret []
  else
    let sounds := [] in
    let sounds := special_move_sounds analysis settings sounds in
    let sounds := capture_sounds analysis settings sounds in
    sounds <- crowd_sounds analysis settings sounds ;;
    lift (apply_master_volume settings sounds).

(** [gamePhase: 'opening' | 'middlegame' | 'endgame'] *)
Inductive GamePhase : Type := opening | middlegame | endgame.

(** [getAtmosphereSounds(gamePhase, settings)] *)
Definition getAtmosphereSounds (gamePhase : GamePhase)
  (settings : SoundEffectSettings) : list SoundEffect :=
  if (negb (atmosphereEnabled settings) || negb (enabled settings))%bool then []
  else
    let sounds := [] in
    match getSoundEffect "tournament-hall" with
    | Some hallSound => push sounds (scale_volume (15 # 100) settings hallSound)
    | None => sounds
    end.

(** ** chess.js, the external move analyser *)

(** The fields of the object [chess.move] returns that the code reads. *)
Record Move : Type := mkMove {
  captured : option string;
  san : string;
  promotion : option string
}.

(** The part of the [Chess] class the code calls.  [chess_move] returns
    [None] when the call throws, otherwise the board after the call and the
    move object ([None] for [null]). *)
Class ChessJs : Type := {
  Chess : Type;
  new_Chess : Chess;
  chess_move : Chess -> string -> option (Chess * option Move);
  chess_fen : Chess -> string;
  chess_isCheck : Chess -> bool;
  chess_isCheckmate : Chess -> bool
}.

Context {chessjs : ChessJs}.

(** [parseMoveForAnalysis(chess, move, moveNumber, previousEval, currentEval)];
    the board is mutated by [chess.move], so the new board is returned too. *)
Definition parseMoveForAnalysis (chess : Chess) (mv : string) (number : Z)
  (previousEval currentEval : option Z) : option (Chess * MoveAnalysis) :=
  match chess_move chess mv with
  | None => None
  | Some (chess', moveObj) =>
      Some (chess',
            {| move := mv;
               fen := chess_fen chess';
               evaluation := currentEval;
               previousEvaluation := previousEval;
               capturedPiece :=
                 match moveObj with Some m => captured m | None => None end;
               isCheck := chess_isCheck chess';
               isCheckmate := chess_isCheckmate chess';
               isCastle :=
                 match moveObj with
                 | Some m => JsString.includes (san m) "O-O"
                 | None => false
                 end;
               isPromotion :=
                 match moveObj with
                 | Some m =>
                     match promotion m with Some _ => true | None => false end
                 | None => false
                 end;
               moveNumber := number |})
  end.

(** [calculateSoundFrameTiming(moveIndex, fps = 30, introDuration = 90,
    frameDurationPerMove = 30)] *)
Definition calculateSoundFrameTiming (moveIndex : Z)
  (fps introDuration frameDurationPerMove : option Z) : Z :=
  let fps := with_default 30 fps in
  let introDuration := with_default 90 introDuration in
  let frameDurationPerMove := with_default 30 frameDurationPerMove in
  introDuration + (moveIndex * frameDurationPerMove).

(** [getPriority(sound)]; the [default] arm of the switch is unreachable for
    a value of the closed category type. *)
Definition getPriority (sound : SoundEffect) : Z :=
  match category sound with
  | special_moves => 5
  | crowd_reaction => 4
  | piece_capture => 3
  | clock => 2
  | atmosphere => 1
  end.

(** The inner [sounds.forEach((sound, soundIndex) => triggers.push(...))]. *)
Fixpoint push_triggers (frameStart : Z) (sounds : list SoundEffect)
  (soundIndex : nat) (triggers : list SoundTrigger) : list SoundTrigger :=
  match sounds with
  | [] => triggers
  | sound :: rest =>
      push_triggers frameStart rest (S soundIndex)
        (push triggers
           {| soundEffect := sound;
              startFrame := frameStart + (Z.of_nat soundIndex * 5);
              priority := getPriority sound |})
  end.

(** [evaluations[index]] *)
Definition eval_at (evaluations : list (option Z)) (index : nat) : option Z :=
  match nth_error evaluations index with
  | Some e => e
  | None => None
  end.

(** The state the outer loop of [generateSoundSchedule] updates. *)
Record LoopState : Type := mkLoopState {
  chess_board : Chess;
  triggers_acc : list SoundTrigger;
  previousEval_acc : option Z
}.

(** One iteration of [moves.forEach((move, index) => ...)]. *)
Definition schedule_step (evaluations : list (option Z))
  (settings : SoundEffectSettings) (fps : Z)
  (st : LoopState) (mv : string) (index : nat) : Run LoopState :=
  let currentEval := eval_at evaluations index in
  parsed <- lift (parseMoveForAnalysis (chess_board st) mv
                    (Z.of_nat index + 1) (previousEval_acc st) currentEval) ;;
  let '(chess', analysis) := parsed in
  sounds <- analyzeMoveForSounds analysis settings ;;
  let frameStart := calculateSoundFrameTiming (Z.of_nat index) (Some fps) None None in
  ret {| chess_board := chess';
         triggers_acc := push_triggers frameStart sounds 0 (triggers_acc st);
         previousEval_acc := currentEval |}.

(** [moves.forEach] from position [index] on. *)
Fixpoint schedule_loop (evaluations : list (option Z))
  (settings : SoundEffectSettings) (fps : Z)
  (moves : list string) (index : nat) (st : LoopState) : Run LoopState :=
  match moves with
  | [] => ret st
  | mv :: rest =>
      st' <- schedule_step evaluations settings fps st mv index ;;
      schedule_loop evaluations settings fps rest (S index) st'
  end.

(** The comparator handed to [triggers.sort]. *)
Definition compare_triggers (a b : SoundTrigger) : Z :=
  if negb (startFrame a =? startFrame b) then startFrame a - startFrame b
  else priority b - priority a.

(** [arr.sort(cmp)]: [Array.prototype.sort] is a stable sort; it is embedded
    as the stable insertion sort, [x] going in front of the first element it
    does not compare greater than. *)
Fixpoint sort_insert {A : Type} (cmp : A -> A -> Z) (x : A) (sorted : list A)
  : list A :=
  match sorted with
  | [] => [x]
  | y :: rest =>
      if cmp x y <=? 0 then x :: y :: rest
      else y :: sort_insert cmp x rest
  end.

Fixpoint js_sort {A : Type} (cmp : A -> A -> Z) (arr : list A) : list A :=
  match arr with
  | [] => []
  | x :: rest => sort_insert cmp x (js_sort cmp rest)
  end.

(** The triggers accumulated by the loop, before the final sort. *)
Definition accumulated_triggers (moves : list string)
  (evaluations : list (option Z)) (settings : SoundEffectSettings)
  (fps : option Z) : Run (list SoundTrigger) :=
  let fps := with_default 30 fps in
  st <- schedule_loop evaluations settings fps moves 0
          {| chess_board := new_Chess;
             triggers_acc := [];
             previousEval_acc := None |} ;;
  ret (triggers_acc st).

(** [generateSoundSchedule(moves, evaluations, settings, fps = 30)] *)
Definition generateSoundSchedule (moves : list string)
  (evaluations : list (option Z)) (settings : SoundEffectSettings)
  (fps : option Z) : Run (list SoundTrigger) :=
  triggers <- accumulated_triggers moves evaluations settings fps ;;
  ret (js_sort compare_triggers triggers).

End Effects.

(** [existing => Math.abs(existing.startFrame - trigger.startFrame) <
    maxFrameDistance && existing.priority >= trigger.priority] *)
Definition conflicts_with (maxFrameDistance : Z) (trigger existing : SoundTrigger)
  : bool :=
  ((Z.abs (startFrame existing - startFrame trigger) <? maxFrameDistance)
   && (priority existing >=? priority trigger))%bool.

(** The body of [triggers.forEach(trigger => ...)] in the filter. *)
Definition filter_step (maxFrameDistance : Z) (filtered : list SoundTrigger)
  (trigger : SoundTrigger) : list SoundTrigger :=
  let hasConflict := existsb (conflicts_with maxFrameDistance trigger) filtered in
  if negb hasConflict then push filtered trigger else filtered.

(** [filterOverlappingSounds(triggers, maxFrameDistance = 15)] *)
Definition filterOverlappingSounds (triggers : list SoundTrigger)
  (maxFrameDistance : option Z) : list SoundTrigger :=
  let maxFrameDistance := with_default 15 maxFrameDistance in
  fold_left (filter_step maxFrameDistance) triggers [].

End Triggers.

(* ===================================================================== *)
(** * Vocabulary of the specification *)
(* ===================================================================== *)

Module Spec.
Import Config Triggers.

(** ** Ordering invariant of a schedule (data model, section 3) *)

(** [a] may stand immediately before [b]: start frames do not decrease, and
    on equal start frames the priority does not increase. *)
Definition in_order (a b : SoundTrigger) : Prop :=
  startFrame a <= startFrame b
  /\ (startFrame a = startFrame b -> priority a >= priority b).

(** The invariant, over all adjacent pairs of the list. *)
Fixpoint ordered (sched : list SoundTrigger) : Prop :=
  match sched with
  | [] => True
  | a :: rest =>
      match rest with
      | [] => True
      | b :: _ => in_order a b /\ ordered rest
      end
  end.

(** ** The greedy suppression pass (Priority Resolver, section 4.3) *)

(** A kept cue [k] dominates the candidate [c] within the window [W]. *)
Definition dominates (W : Z) (k c : SoundTrigger) : Prop :=
  Z.abs (startFrame k - startFrame c) < W /\ priority k >= priority c.

(** The candidate is dominated by some cue of the kept list. *)
Definition dominated (W : Z) (kept : list SoundTrigger) (c : SoundTrigger) : Prop :=
  exists k, In k kept /\ dominates W k c.

(** The reference algorithm: the cues are taken in their given order, a
    candidate is added to the kept list iff no kept cue dominates it. *)
Inductive greedy_pass (W : Z)
  : list SoundTrigger -> list SoundTrigger -> list SoundTrigger -> Prop :=
| greedy_done : forall kept,
    greedy_pass W kept [] kept
| greedy_discard : forall kept c rest out,
    dominated W kept c ->
    greedy_pass W kept rest out ->
    greedy_pass W kept (c :: rest) out
| greedy_keep : forall kept c rest out,
    ~ dominated W kept c ->
    greedy_pass W (kept ++ [c]) rest out ->
    greedy_pass W kept (c :: rest) out.

(** A list in which no cue is dominated by a cue before it: the lists the
    greedy pass can produce. *)
Definition undominated (W : Z) (kept : list SoundTrigger) : Prop :=
  forall before c after,
    kept = before ++ c :: after ->
    existsb (conflicts_with W c) before = false.

(** ** Cues of one category *)

Definition of_category (c : SoundEffectCategory) (sounds : list SoundEffect)
  : list SoundEffect :=
  filter (fun s => category_eqb (category s) c) sounds.

(** The catalog entry of a capture tier (index into [piece_capture]). *)
Definition capture_tier (tier : nat) : option SoundEffect :=
  nth_error (SOUND_EFFECTS piece_capture) tier.

(** The tier the captured-piece code selects, by its lower-cased form. *)
Definition tier_of_code (code : string) : nat :=
  let piece := JsString.toLowerCase code in
  if String.eqb piece "p" then 0%nat
  else if String.eqb piece "n" then 1%nat
  else if String.eqb piece "b" then 1%nat
  else if String.eqb piece "r" then 2%nat
  else if String.eqb piece "q" then 3%nat
  else 0%nat.

(** The special-move cue the precedence checkmate > check > castle >
    promotion selects for an event, by id. *)
Definition special_choice (analysis : MoveAnalysis) : option string :=
  if isCheckmate analysis then Some "checkmate"
  else if isCheck analysis then Some "check"
  else if isCastle analysis then Some "castle"
  else if isPromotion analysis then Some "promotion"
  else None.

(** The frame the [j]-th cue of the event with 1-based sequence index [s]
    is stamped with, for a lead-in, a per-event spacing and a stagger. *)
Definition stamp (leadInFrames framesPerEvent intraEventStagger : Z)
  (s : Z) (j : nat) : Z :=
  leadInFrames + (s - 1) * framesPerEvent + Z.of_nat j * intraEventStagger.

(** ** Cues of a run, event by event *)

(** The triggers the inner loop builds from the cues of one event, the
    first of them at position [j]. *)
Fixpoint stamped_cues (frameStart : Z) (j : nat) (sounds : list SoundEffect)
  : list SoundTrigger :=
  match sounds with
  | [] => []
  | sound :: rest =>
      {| soundEffect := sound;
         startFrame := frameStart + (Z.of_nat j * 5);
         priority := getPriority sound |}
      :: stamped_cues frameStart (S j) rest
  end.

(** The triggers of consecutive events, the first at 0-based [index], in
    production order. *)
Fixpoint event_cues (index : nat) (per_event : list (list SoundEffect))
  : list SoundTrigger :=
  match per_event with
  | [] => []
  | sounds :: rest =>
      stamped_cues (90 + Z.of_nat index * 30) 0 sounds
      ++ event_cues (S index) rest
  end.

(** No cue of the schedule lies within the window of a cue of the schedule
    that was produced before it and has a priority at least as high. *)
Definition suppression_applied (W : Z) (produced sched : list SoundTrigger)
  : Prop :=
  forall before k between c after,
    produced = before ++ k :: between ++ c :: after ->
    In k sched -> In c sched -> ~ dominates W k c.

(** The categories the move classifier draws its cues from. *)
Definition event_driven (c : SoundEffectCategory) : bool :=
  match c with
  | special_moves | piece_capture | crowd_reaction => true
  | atmosphere | clock => false
  end.

(** The two triggers compare equal under the sort comparator: same start
    frame and same priority. *)
Definition same_key (k t : SoundTrigger) : bool :=
  ((startFrame t =? startFrame k) && (priority t =? priority k))%bool.

End Spec.

(* ===================================================================== *)
(** * A recorded game: chess.js replayed from a transcript *)
(* ===================================================================== *)

Module Replay.
Import Config Triggers.

(** What chess.js answers for one move of a game: the move object and the
    board queries after it. *)
Record Answer : Type := mkAnswer {
  asked : string;
  answered : Move;
  fen_after : string;
  check_after : bool;
  checkmate_after : bool
}.

(** The board: the last answer given and the answers still to come. *)
Record Board : Type := mkBoard {
  last : option Answer;
  upcoming : list Answer
}.

Definition start_fen : string :=
  "rnbqkbnr/pppppppp/8/8/8/8/PPPPPPPP/RNBQKBNR w KQkq - 0 1".

(** The transcript answers the moves of the recorded game, in their order,
    as chess.js does.  Any other move makes the call throw, as chess.js
    does on an illegal move; the transcript is to be asked only the moves
    of the game it records and moves that are illegal where they are
    asked. *)
Definition replay_move (b : Board) (mv : string) : option (Board * option Move) :=
  match upcoming b with
  | a :: rest =>
      if String.eqb (asked a) mv
      then Some ({| last := Some a; upcoming := rest |}, Some (answered a))
      else None
  | [] => None
  end.

Definition replay (game : list Answer) : ChessJs :=
  {| Chess := Board;
     new_Chess := {| last := None; upcoming := game |};
     chess_move := replay_move;
     chess_fen := fun b =>
       match last b with Some a => fen_after a | None => start_fen end;
     chess_isCheck := fun b =>
       match last b with Some a => check_after a | None => false end;
     chess_isCheckmate := fun b =>
       match last b with Some a => checkmate_after a | None => false end |}.

Definition quiet (sanText fenText : string) : Answer :=
  {| asked := sanText;
     answered := {| captured := None; san := sanText; promotion := None |};
     fen_after := fenText;
     check_after := false;
     checkmate_after := false |}.

(** 1. e4 e5 2. Qh5 Nc6 3. Bc4 Nf6 4. Qxf7#: the last move captures the
    pawn on f7 and mates. *)
Definition scholars_mate_moves : list string :=
  ["e4"; "e5"; "Qh5"; "Nc6"; "Bc4"; "Nf6"; "Qxf7#"].

Definition scholars_mate : list Answer :=
  [ quiet "e4" "rnbqkbnr/pppppppp/8/8/4P3/8/PPPPPPPP/RNBQKBNR b KQkq - 0 1";
    quiet "e5" "rnbqkbnr/pppp1ppp/8/4p3/4P3/8/PPPP1PPP/RNBQKBNR w KQkq - 0 2";
    quiet "Qh5" "rnbqkbnr/pppp1ppp/8/4p2Q/4P3/8/PPPP1PPP/RNB1KBNR b KQkq - 1 2";
    quiet "Nc6" "r1bqkbnr/pppp1ppp/2n5/4p2Q/4P3/8/PPPP1PPP/RNB1KBNR w KQkq - 2 3";
    quiet "Bc4" "r1bqkbnr/pppp1ppp/2n5/4p2Q/2B1P3/8/PPPP1PPP/RNB1K1NR b KQkq - 3 3";
    quiet "Nf6" "r1bqkb1r/pppp1ppp/2n2n2/4p2Q/2B1P3/8/PPPP1PPP/RNB1K1NR w KQkq - 4 4";
    {| asked := "Qxf7#";
       answered := {| captured := Some "p"; san := "Qxf7#"; promotion := None |};
       fen_after := "r1bqkb1r/pppp1Qpp/2n2n2/4p3/2B1P3/8/PPPP1PPP/RNB1K1NR b KQkq - 0 4";
       check_after := true;
       checkmate_after := true |} ].

(** A random source that always returns 0. *)
Definition zero_random : nat -> Q := fun _ => 0%Q.

(** Sample cues. *)
Definition cue (i : string) (c : SoundEffectCategory) (frame prio : Z)
  : SoundTrigger :=
  {| soundEffect := mkSoundEffect i c "" None "";
     startFrame := frame;
     priority := prio |}.

Definition checkmate_cue : SoundEffect :=
  mkSoundEffect "checkmate" special_moves "sounds/special/checkmate.mp3"
    (Some ((5 # 10) * 1)%Q) "Checkmate sound".

Definition capture_pawn_cue : SoundEffect :=
  mkSoundEffect "capture-pawn" piece_capture "sounds/pieces/capture-pawn.mp3"
    (Some ((4 # 10) * 1)%Q) "Pawn capture sound".

(** The two triggers the recorded game produces, both for its last move. *)
Definition mate_trigger : SoundTrigger :=
  {| soundEffect := checkmate_cue; startFrame := 270; priority := 5 |}.

Definition capture_trigger : SoundTrigger :=
  {| soundEffect := capture_pawn_cue; startFrame := 275; priority := 3 |}.

(** The default settings with the master flag switched off. *)
Definition muted_settings : SoundEffectSettings :=
  {| enabled := false;
     capturesEnabled := true;
     crowdEnabled := true;
     atmosphereEnabled := true;
     clockEnabled := false;
     specialMovesEnabled := true;
     masterVolume := 1%Q |}.

(** Sample events. *)

(** A check that is not a mate. *)
Definition check_event : MoveAnalysis :=
  {| move := "Qh5+";
     fen := "";
     evaluation := None;
     previousEvaluation := None;
     capturedPiece := None;
     isCheck := true;
     isCheckmate := false;
     isCastle := false;
     isPromotion := false;
     moveNumber := 3 |}.

(** A quiet move after which the evaluation has risen from 30 to 250. *)
Definition swing_event : MoveAnalysis :=
  {| move := "Nf6";
     fen := "";
     evaluation := Some 250;
     previousEvaluation := Some 30;
     capturedPiece := None;
     isCheck := false;
     isCheckmate := false;
     isCastle := false;
     isPromotion := false;
     moveNumber := 6 |}.

(** A capture of the piece with the given code. *)
Definition capture_event (code : string) : MoveAnalysis :=
  {| move := "exd5";
     fen := "";
     evaluation := None;
     previousEvaluation := None;
     capturedPiece := Some code;
     isCheck := false;
     isCheckmate := false;
     isCastle := false;
     isPromotion := false;
     moveNumber := 3 |}.

End Replay.

(* ===================================================================== *)
(** * media-library-config.ts *)
(* ===================================================================== *)

Module MediaLibrary.
Import Triggers.

(** [type MediaType] *)
Inductive MediaType : Type := video | image.

(** [type MediaCategory] *)
Inductive MediaCategory : Type :=
| venue_exterior
| venue_hall
| player_photo
| player_video
| atmosphere
| transition.

Definition media_category_eqb (a b : MediaCategory) : bool :=
  match a, b with
  | venue_exterior, venue_exterior
  | venue_hall, venue_hall
  | player_photo, player_photo
  | player_video, player_video
  | atmosphere, atmosphere
  | transition, transition => true
  | _, _ => false
  end.

(** [interface MediaAsset] *)
Record MediaAsset : Type := mkMediaAsset {
  id : string;
  type : MediaType;
  category : MediaCategory;
  path : string;
  duration : option Q;
  description : string;
  tags : option (list string);
  tournamentId : option string;
  playerId : option string
}.

(** [DEFAULT_MEDIA_LIBRARY] *)
Definition DEFAULT_MEDIA_LIBRARY : list MediaAsset :=
  [ mkMediaAsset "stock-venue-exterior-01" image venue_exterior
      "media/stock/venue/exterior-01.jpg" None
      "Generic tournament hall exterior"
      (Some ["establishing"; "intro"]) None None;
    mkMediaAsset "stock-venue-hall-01" video venue_hall
      "media/stock/venue/hall-wide-01.mp4" (Some 5%Q)
      "Wide shot of chess tournament hall"
      (Some ["establishing"; "atmosphere"]) None None;
    mkMediaAsset "stock-clock-closeup" video atmosphere
      "media/stock/atmosphere/clock-closeup.mp4" (Some 3%Q)
      "Chess clock close-up"
      (Some ["clock"; "tension"]) None None;
    mkMediaAsset "stock-board-overhead" video atmosphere
      "media/stock/atmosphere/board-overhead.mp4" (Some 4%Q)
      "Overhead shot of chess board"
      (Some ["board"; "transition"]) None None;
    mkMediaAsset "stock-pieces-closeup" video atmosphere
      "media/stock/atmosphere/pieces-closeup.mp4" (Some 3%Q)
      "Close-up of chess pieces"
      (Some ["pieces"; "artistic"]) None None;
    mkMediaAsset "stock-hand-move" video transition
      "media/stock/transitions/hand-move.mp4" (Some 2%Q)
      "Hand making a chess move"
      (Some ["transition"; "move"]) None None;
    mkMediaAsset "stock-clock-press" video transition
      "media/stock/transitions/clock-press.mp4" (Some (15 # 10)%Q)
      "Hand pressing chess clock"
      (Some ["transition"; "clock"]) None None ].

(** [interface MediaLibrarySettings] *)
Record MediaLibrarySettings : Type := mkMediaSettings {
  enabled : bool;
  useVenueShots : bool;
  usePlayerMedia : bool;
  useAtmosphere : bool;
  useTransitions : bool;
  preferUserUploads : bool
}.

Definition DEFAULT_MEDIA_SETTINGS : MediaLibrarySettings :=
  {| enabled := true;
     useVenueShots := true;
     usePlayerMedia := true;
     useAtmosphere := true;
     useTransitions := true;
     preferUserUploads := true |}.

(** [a === b] on two optional strings. *)
Definition opt_string_eqb (a b : option string) : bool :=
  match a, b with
  | Some x, Some y => String.eqb x y
  | None, None => true
  | _, _ => false
  end.

(** [getMediaByCategory(category, library = DEFAULT_MEDIA_LIBRARY)] *)
Definition getMediaByCategory (c : MediaCategory)
  (library : option (list MediaAsset)) : list MediaAsset :=
  let library := with_default DEFAULT_MEDIA_LIBRARY library in
  filter (fun asset => media_category_eqb (category asset) c) library.

(** [getTournamentMedia(tournamentId, library)] *)
Definition getTournamentMedia (tid : string) (library : list MediaAsset)
  : list MediaAsset :=
  filter (fun asset => opt_string_eqb (tournamentId asset) (Some tid)) library.

(** [getPlayerMedia(playerId, library)] *)
Definition getPlayerMedia (pid : string) (library : list MediaAsset)
  : list MediaAsset :=
  filter (fun asset => opt_string_eqb (playerId asset) (Some pid)) library.

Section Random.

Variable random : nat -> Q.

(** [getRandomMedia(category, library = DEFAULT_MEDIA_LIBRARY)]:
    [Math.random] is called only when the category is not empty; the product
    of the draw and the length is taken exactly. *)
Definition getRandomMedia (c : MediaCategory)
  (library : option (list MediaAsset)) : Run (option MediaAsset) :=
  let assets := getMediaByCategory c library in
  if (length assets =? 0)%nat then ret None
  else
    bind (Math_random random) (fun r =>
    ret (Config.js_index assets
           (Qfloor (r * inject_Z (Z.of_nat (length assets)))))).

(** [segmentType: 'intro' | 'transition' | 'outro' | 'atmosphere'] *)
Inductive SegmentType : Type :=
| intro_segment
| transition_segment
| outro_segment
| atmosphere_segment.

(** [m.category === 'venue_exterior' || m.category === 'venue_hall'] *)
Definition is_venue (m : MediaAsset) : bool :=
  (media_category_eqb (category m) venue_exterior
   || media_category_eqb (category m) venue_hall)%bool.

(** Truthiness of an optional string: [undefined] and the empty string are
    falsy. *)
Definition opt_string_truthy (s : option string) : bool :=
  match s with
  | Some x => JsString.truthy x
  | None => false
  end.

(** [getRandomMedia('venue_hall', library) ||
     getRandomMedia('venue_exterior', library)] *)
Definition stock_venue (library : list MediaAsset) : Run (option MediaAsset) :=
  bind (getRandomMedia venue_hall (Some library)) (fun hall =>
  match hall with
  | Some _ => ret hall
  | None => getRandomMedia venue_exterior (Some library)
  end).

(** [selectMediaForSegment(segmentType, settings, tournamentId?,
    customLibrary?)]; an array is truthy even when empty, so
    [customLibrary || DEFAULT_MEDIA_LIBRARY] takes the default only for
    [undefined]. *)
Definition selectMediaForSegment (segmentType : SegmentType)
  (settings : MediaLibrarySettings) (tid : option string)
  (customLibrary : option (list MediaAsset)) : Run (option MediaAsset) :=
  if negb (enabled settings) then ret None
  else
    let library := with_default DEFAULT_MEDIA_LIBRARY customLibrary in
    match segmentType with
    | intro_segment =>
        if negb (useVenueShots settings) then ret None
        else
          let tournamentVenue :=
            if (opt_string_truthy tid && preferUserUploads settings)%bool then
              find (fun m => (opt_string_eqb (tournamentId m) tid
                              && is_venue m)%bool) library
            else None in
          match tournamentVenue with
          | Some venue => ret (Some venue)
          | None => stock_venue library
          end
    | transition_segment =>
        if negb (useTransitions settings) then ret None
        else getRandomMedia transition (Some library)
    | atmosphere_segment =>
        if negb (useAtmosphere settings) then ret None
        else getRandomMedia atmosphere (Some library)
    | outro_segment =>
        if negb (useVenueShots settings) then ret None
        else getRandomMedia venue_hall (Some library)
    end.

End Random.

(** [Partial<MediaAsset>]: every field may be missing. *)
Record PartialMediaAsset : Type := mkPartialMediaAsset {
  p_id : option string;
  p_type : option MediaType;
  p_category : option MediaCategory;
  p_path : option string;
  p_duration : option Q;
  p_description : option string;
  p_tags : option (list string);
  p_tournamentId : option string;
  p_playerId : option string
}.

(** The result of [validateMediaAsset]. *)
Record Validation : Type := mkValidation {
  valid : bool;
  errors : list string
}.

(** [!x] for an optional value whose defined values are all truthy. *)
Definition missing {A : Type} (x : option A) : bool :=
  match x with Some _ => false | None => true end.

(** [!asset.duration]: [undefined] and [0] are falsy. *)
Definition no_duration (d : option Q) : bool :=
  match d with
  | Some q => Qeq_bool q 0
  | None => true
  end.

(** [if (cond) errors.push(message)] *)
Definition push_when (cond : bool) (message : string) (errs : list string)
  : list string :=
  if cond then push errs message else errs.

(** [validateMediaAsset(asset)] *)
Definition validateMediaAsset (asset : PartialMediaAsset) : Validation :=
  let errs := [] in
  let errs := push_when (missing (p_type asset)) "Media type is required" errs in
  let errs :=
    push_when (missing (p_category asset)) "Media category is required" errs in
  let errs :=
    push_when (negb (opt_string_truthy (p_path asset)))
      "Media path is required" errs in
  let errs :=
    push_when (negb (opt_string_truthy (p_description asset)))
      "Description is required" errs in
  let errs :=
    push_when
      (match p_type asset with
       | Some video => no_duration (p_duration asset)
       | _ => false
       end)
      "Duration is required for video assets" errs in
  {| valid := (length errs =? 0)%nat; errors := errs |}.

(** A complete asset seen as a partial one. *)
Definition as_partial (a : MediaAsset) : PartialMediaAsset :=
  {| p_id := Some (id a);
     p_type := Some (type a);
     p_category := Some (category a);
     p_path := Some (path a);
     p_duration := duration a;
     p_description := Some (description a);
     p_tags := tags a;
     p_tournamentId := tournamentId a;
     p_playerId := playerId a |}.

(** The categories a segment type may show. *)
Definition segment_allows (segmentType : SegmentType) (c : MediaCategory)
  : bool :=
  match segmentType, c with
  | intro_segment, venue_exterior
  | intro_segment, venue_hall
  | outro_segment, venue_hall
  | transition_segment, transition
  | atmosphere_segment, atmosphere => true
  | _, _ => false
  end.

(** The flag of the settings that gates a segment type. *)
Definition segment_flag (segmentType : SegmentType)
  (settings : MediaLibrarySettings) : bool :=
  match segmentType with
  | intro_segment | outro_segment => useVenueShots settings
  | transition_segment => useTransitions settings
  | atmosphere_segment => useAtmosphere settings
  end.

(** A user-uploaded venue shot of a tournament. *)
Definition uploaded_venue (tid : string) : MediaAsset :=
  mkMediaAsset "upload-venue" image venue_exterior
    "media/uploads/venue.jpg" None "Uploaded venue photo" None
    (Some tid) None.

End MediaLibrary.

(* ===================================================================== *)
(** * SoundEffectLayer: which triggers sound at a frame *)
(* ===================================================================== *)

Module SoundLayer.
Import Triggers.

(** [const soundDurationFrames = 90] *)
Definition soundDurationFrames : Z := 90.

(** The predicate of [soundTriggers.filter(trigger => ...)] *)
Definition is_active (frame : Z) (trigger : SoundTrigger) : bool :=
  ((frame >=? startFrame trigger)
   && (frame <? startFrame trigger + soundDurationFrames))%bool.

(** [activeSounds] at the current frame. *)
Definition activeSounds (frame : Z) (soundTriggers : list SoundTrigger)
  : list SoundTrigger :=
  filter (is_active frame) soundTriggers.

(** [const offsetFrames = frame - trigger.startFrame] *)
Definition offsetFrames (frame : Z) (trigger : SoundTrigger) : Z :=
  frame - startFrame trigger.

(** [startFrom={Math.max(0, offsetFrames)}] *)
Definition startFrom (frame : Z) (trigger : SoundTrigger) : Z :=
  Z.max 0 (offsetFrames frame trigger).

End SoundLayer.

(* ===================================================================== *)
(** * Further vocabulary *)
(* ===================================================================== *)

Module Shape.
Import Config Triggers.

(** [sub] is [l] with some elements left out, the others in their order. *)
Inductive Subsequence {A : Type} : list A -> list A -> Prop :=
| sub_nil : Subsequence [] []
| sub_skip : forall x sub l, Subsequence sub l -> Subsequence sub (x :: l)
| sub_take : forall x sub l, Subsequence sub l -> Subsequence (x :: sub) (x :: l).

(** Start frames strictly increase along the list. *)
Fixpoint frames_increase (sched : list SoundTrigger) : Prop :=
  match sched with
  | [] => True
  | a :: rest =>
      match rest with
      | [] => True
      | b :: _ => startFrame a < startFrame b /\ frames_increase rest
      end
  end.

(** Any two cues at different positions are at least [W] frames apart. *)
Definition spread (W : Z) (xs : list SoundTrigger) : Prop :=
  forall before a between b after,
    xs = before ++ a :: between ++ b :: after ->
    W <= Z.abs (startFrame a - startFrame b).

(** The evaluation before the one at position [i]. *)
Definition eval_before (evaluations : list (option Z)) (i : nat) : option Z :=
  match i with
  | O => None
  | S k => eval_at evaluations k
  end.

End Shape.

(** * The events of a run

    What the loop of [generateSoundSchedule] computes for a move before it
    stamps anything, read off the first statements of the loop body: the
    analysis [parseMoveForAnalysis] returns on the board reached so far,
    with the evaluation of the move and the one before it, and the cues
    [analyzeMoveForSounds] returns for that analysis at the number of draws
    reached so far. *)

Module Trace.
Import Config Triggers.

Section Events.

Variable random : nat -> Q.
Context {chessjs : ChessJs}.

(** The loop of [generateSoundSchedule] from position [index] on, recording
    for each move the pair of [analysis] and [sounds] of its iteration
    instead of pushing the triggers. *)
Fixpoint classified_events (evaluations : list (option Z))
  (settings : SoundEffectSettings) (moves : list string) (index : nat)
  (board : Chess) (previousEval : option Z)
  : Run (list (MoveAnalysis * list SoundEffect)) :=
  match moves with
  | [] => ret []
  | mv :: rest =>
      let currentEval := eval_at evaluations index in
      bind (lift (parseMoveForAnalysis board mv (Z.of_nat index + 1)
                    previousEval currentEval)) (fun parsed =>
      let '(board', analysis) := parsed in
      bind (analyzeMoveForSounds random analysis settings) (fun sounds =>
      bind (classified_events evaluations settings rest (S index) board'
              currentEval) (fun events =>
      ret ((analysis, sounds) :: events))))
  end.

(** [chess.move] throws on none of the moves, made one after the other,
    each on the board the one before it left. *)
Fixpoint replays (board : Chess) (moves : list string) : bool :=
  match moves with
  | [] => true
  | mv :: rest =>
      match chess_move board mv with
      | Some (board', _) => replays board' rest
      | None => false
      end
  end.

End Events.

(** The number of cues of the events before position [i]. *)
Definition cues_before (events : list (MoveAnalysis * list SoundEffect))
  (i : nat) : nat :=
  length (concat (map snd (firstn i events))).

End Trace.

Import Config Triggers Spec.

(* ===================================================================== *)
(** * The overlap filter *)
(* ===================================================================== *)

Section OverlapFilter.

Variable W : Z.

Lemma conflicts_with_dominates (c k : SoundTrigger) :
  conflicts_with W c k = true <-> dominates W k c.
Proof.
  unfold conflicts_with, dominates.
  rewrite andb_true_iff, Z.ltb_lt, Z.geb_leb, Z.leb_le.
  split; intros [Hd Hp]; split; auto; lia.
Qed.

Lemma hasConflict_dominated (kept : list SoundTrigger) (c : SoundTrigger) :
  existsb (conflicts_with W c) kept = true <-> dominated W kept c.
Proof.
  unfold dominated. rewrite existsb_exists.
  split; intros [k [Hin Hk]]; exists k; split; auto;
    now apply conflicts_with_dominates.
Qed.

Lemma hasConflict_not_dominated (kept : list SoundTrigger) (c : SoundTrigger) :
  existsb (conflicts_with W c) kept = false <-> ~ dominated W kept c.
Proof.
  rewrite <- hasConflict_dominated.
  destruct (existsb (conflicts_with W c) kept); split; intro H;
    try reflexivity; try discriminate; auto.
  now elim H.
Qed.

Lemma filter_step_discard (kept : list SoundTrigger) (c : SoundTrigger) :
  dominated W kept c -> filter_step W kept c = kept.
Proof.
  intro H. apply hasConflict_dominated in H.
  unfold filter_step. now rewrite H.
Qed.

Lemma filter_step_keep (kept : list SoundTrigger) (c : SoundTrigger) :
  ~ dominated W kept c -> filter_step W kept c = kept ++ [c].
Proof.
  intro H. apply hasConflict_not_dominated in H.
  unfold filter_step. now rewrite H.
Qed.

(** The loop of the filter follows the reference pass step by step. *)
Lemma filter_loop_greedy (xs kept : list SoundTrigger) :
  greedy_pass W kept xs (fold_left (filter_step W) xs kept).
Proof.
  revert kept. induction xs as [|c rest IH]; intro kept; simpl.
  - constructor.
  - destruct (existsb (conflicts_with W c) kept) eqn:E.
    + apply greedy_discard.
      * now apply hasConflict_dominated.
      * rewrite filter_step_discard by now apply hasConflict_dominated.
        apply IH.
    + apply greedy_keep.
      * now apply hasConflict_not_dominated.
      * rewrite filter_step_keep by now apply hasConflict_not_dominated.
        apply IH.
Qed.

(** The reference pass has one outcome only, that of the loop. *)
Lemma greedy_pass_filter_loop (kept xs out : list SoundTrigger) :
  greedy_pass W kept xs out -> out = fold_left (filter_step W) xs kept.
Proof.
  induction 1 as [kept | kept c rest out Hd _ IH | kept c rest out Hd _ IH];
    simpl.
  - reflexivity.
  - now rewrite filter_step_discard.
  - now rewrite filter_step_keep.
Qed.

(** The kept list only grows. *)
Lemma filter_loop_keeps (xs kept : list SoundTrigger) (k : SoundTrigger) :
  In k kept -> In k (fold_left (filter_step W) xs kept).
Proof.
  revert kept. induction xs as [|c rest IH]; intros kept Hin; simpl; auto.
  apply IH. unfold filter_step.
  destruct (existsb (conflicts_with W c) kept); simpl; auto.
  unfold push. apply in_or_app. now left.
Qed.

Lemma undominated_nil : undominated W [].
Proof.
  intros before c after H. destruct before; discriminate.
Qed.

Lemma last_cases {A : Type} (l : list A) :
  l = [] \/ exists front x, l = front ++ [x].
Proof.
  destruct l as [|a l]; [now left | right].
  destruct (exists_last (l := a :: l)) as [front [x E]]; [discriminate|].
  now exists front, x.
Qed.

Lemma undominated_snoc (kept : list SoundTrigger) (c : SoundTrigger) :
  undominated W kept ->
  existsb (conflicts_with W c) kept = false ->
  undominated W (kept ++ [c]).
Proof.
  intros Hk Hc before c' after E.
  destruct (last_cases after) as [-> | [front [x ->]]].
  - apply app_inj_tail in E. destruct E as [-> ->]. exact Hc.
  - change (before ++ c' :: front ++ [x])
      with (before ++ (c' :: front) ++ [x]) in E.
    rewrite app_assoc in E. apply app_inj_tail in E. destruct E as [E _].
    exact (Hk before c' front E).
Qed.

Lemma undominated_prefix (front back : list SoundTrigger) :
  undominated W (front ++ back) -> undominated W front.
Proof.
  intros H before c after E. apply (H before c (after ++ back)).
  rewrite E, <- app_assoc. reflexivity.
Qed.

(** Whatever the loop has kept is undominated. *)
Lemma filter_loop_undominated (xs kept : list SoundTrigger) :
  undominated W kept -> undominated W (fold_left (filter_step W) xs kept).
Proof.
  revert kept. induction xs as [|c rest IH]; intros kept Hk; simpl; auto.
  apply IH. unfold filter_step.
  destruct (existsb (conflicts_with W c) kept) eqn:E; simpl; auto.
  now apply undominated_snoc.
Qed.

(** Running the loop over an undominated list keeps every cue of it. *)
Lemma filter_loop_fixes_undominated (back front : list SoundTrigger) :
  undominated W (front ++ back) ->
  fold_left (filter_step W) back front = front ++ back.
Proof.
  revert front. induction back as [|c rest IH]; intros front H; simpl.
  - now rewrite app_nil_r.
  - assert (E : existsb (conflicts_with W c) front = false)
      by exact (H front c rest eq_refl).
    unfold filter_step at 2. rewrite E. simpl. unfold push.
    rewrite IH.
    + now rewrite <- app_assoc.
    + now rewrite <- app_assoc.
Qed.

End OverlapFilter.

(** C10. The overlap filter is idempotent: for every trigger list and every
    window (given or defaulted), filtering the filtered list again with the
    same window returns it unchanged. *)
Theorem filterOverlappingSounds_idempotent
  (xs : list SoundTrigger) (maxFrameDistance : option Z) :
  filterOverlappingSounds (filterOverlappingSounds xs maxFrameDistance)
    maxFrameDistance
  = filterOverlappingSounds xs maxFrameDistance.
Proof.
  unfold filterOverlappingSounds.
  set (W := with_default 15 maxFrameDistance).
  apply (filter_loop_fixes_undominated (W := W)
           (fold_left (filter_step W) xs []) []).
  simpl. apply filter_loop_undominated, undominated_nil.
Qed.

Lemma filterOverlappingSounds_snoc (W : Z) (xs : list SoundTrigger)
  (c : SoundTrigger) :
  filterOverlappingSounds (xs ++ [c]) (Some W)
  = filter_step W (filterOverlappingSounds xs (Some W)) c.
Proof.
  unfold filterOverlappingSounds. simpl. now rewrite fold_left_app.
Qed.

Lemma filterOverlappingSounds_app (W : Z) (xs ys : list SoundTrigger) :
  filterOverlappingSounds (xs ++ ys) (Some W)
  = fold_left (filter_step W) ys (filterOverlappingSounds xs (Some W)).
Proof.
  unfold filterOverlappingSounds. simpl. now rewrite fold_left_app.
Qed.

(** C3 (amended). The overlap filter is the greedy reference pass: started
    from the empty kept list over the triggers in their given order, the
    pass has the filter's result as its one outcome (a candidate joins the
    kept list iff no kept cue within the window has a priority at least as
    high); the window defaults to 15.  Of two cues of equal priority within
    the window of each other the later one is discarded whenever the
    earlier one has been kept: on the input made of the two cues, and in
    any input in which no cue kept before the earlier one dominates it. *)
Theorem filterOverlappingSounds_greedy_reference :
  (forall (W : Z) (xs out : list SoundTrigger),
      greedy_pass W [] xs out <-> filterOverlappingSounds xs (Some W) = out)
  /\ (forall xs : list SoundTrigger,
         filterOverlappingSounds xs None = filterOverlappingSounds xs (Some 15))
  /\ (forall (W : Z) (a b : SoundTrigger),
         priority a = priority b ->
         Z.abs (startFrame a - startFrame b) < W ->
         filterOverlappingSounds [a; b] (Some W) = [a])
  /\ (forall (W : Z) (before between : list SoundTrigger) (a b : SoundTrigger),
         ~ dominated W (filterOverlappingSounds before (Some W)) a ->
         priority a = priority b ->
         Z.abs (startFrame a - startFrame b) < W ->
         In a (filterOverlappingSounds (before ++ a :: between) (Some W))
         /\ filterOverlappingSounds ((before ++ a :: between) ++ [b]) (Some W)
            = filterOverlappingSounds (before ++ a :: between) (Some W)).
Proof.
  split; [|split; [|split]].
  - intros W xs out. split.
    + intro H. apply greedy_pass_filter_loop in H. now subst.
    + intros <-. apply filter_loop_greedy.
  - reflexivity.
  - intros W a b Hp Hd.
    unfold filterOverlappingSounds. simpl.
    unfold filter_step at 2. simpl. unfold push. simpl.
    apply filter_step_discard. exists a. split; [now left|].
    split; [exact Hd | lia].
  - intros W before between a b Hk Hp Hd.
    assert (Hin : In a (filterOverlappingSounds (before ++ a :: between) (Some W))).
    { rewrite filterOverlappingSounds_app. simpl.
      apply filter_loop_keeps.
      rewrite (filter_step_keep Hk). apply in_or_app. right. now left. }
    split; [exact Hin|].
    rewrite filterOverlappingSounds_snoc.
    apply filter_step_discard. exists a. split; [exact Hin|].
    split; [exact Hd | lia].
Qed.

Lemma filterOverlappingSounds_greedy_reference_witness :
  filterOverlappingSounds
    [Replay.cue "capture-pawn" piece_capture 90 3;
     Replay.cue "capture-rook" piece_capture 95 3] (Some 15)
  = [Replay.cue "capture-pawn" piece_capture 90 3]
  /\ filterOverlappingSounds
       (([Replay.cue "checkmate" special_moves 60 5]
         ++ Replay.cue "capture-pawn" piece_capture 90 3
            :: [Replay.cue "gasp-01" crowd_reaction 120 4])
        ++ [Replay.cue "capture-rook" piece_capture 95 3]) (Some 15)
     = filterOverlappingSounds
         ([Replay.cue "checkmate" special_moves 60 5]
          ++ Replay.cue "capture-pawn" piece_capture 90 3
             :: [Replay.cue "gasp-01" crowd_reaction 120 4]) (Some 15).
Proof.
  destruct filterOverlappingSounds_greedy_reference as [_ [_ [Htwo Hany]]].
  split.
  - apply Htwo; simpl; lia.
  - apply Hany; simpl; try lia.
    intros [k [Hin [Hd Hp]]]. simpl in Hin.
    destruct Hin as [<- | []]. simpl in Hd. lia.
Defined.

(** C3 (as stated, refuted). Two capture cues of equal priority 10 frames
    apart follow a mate cue: the first capture cue, 10 frames after the
    mate cue, is discarded; the second, 20 frames after it, has no kept cue
    within the window and is kept.  Of the two equal-priority cues it is
    the later one that the filter returns. *)
Lemma filterOverlappingSounds_tie_keeps_later :
  priority (Replay.cue "capture-pawn" piece_capture 10 3)
  = priority (Replay.cue "capture-rook" piece_capture 20 3)
  /\ Z.abs (startFrame (Replay.cue "capture-pawn" piece_capture 10 3)
            - startFrame (Replay.cue "capture-rook" piece_capture 20 3)) < 15
  /\ filterOverlappingSounds
       [Replay.cue "checkmate" special_moves 0 5;
        Replay.cue "capture-pawn" piece_capture 10 3;
        Replay.cue "capture-rook" piece_capture 20 3] (Some 15)
     = [Replay.cue "checkmate" special_moves 0 5;
        Replay.cue "capture-rook" piece_capture 20 3]
  /\ ~ In (Replay.cue "capture-pawn" piece_capture 10 3)
         (filterOverlappingSounds
            [Replay.cue "checkmate" special_moves 0 5;
             Replay.cue "capture-pawn" piece_capture 10 3;
             Replay.cue "capture-rook" piece_capture 20 3] (Some 15))
  /\ In (Replay.cue "capture-rook" piece_capture 20 3)
       (filterOverlappingSounds
          [Replay.cue "checkmate" special_moves 0 5;
           Replay.cue "capture-pawn" piece_capture 10 3;
           Replay.cue "capture-rook" piece_capture 20 3] (Some 15)).
Proof.
  split; [reflexivity|]. split; [simpl; lia|]. split; [reflexivity|]. split.
  - intros [E | [E | []]]; discriminate E.
  - right. now left.
Qed.

(** C2 (the code departs from the claim when the weaker cue comes first).
    A cue of priority 3 followed in the input by a cue of priority 5 whose
    start frame is 5 frames away is not suppressed: with window 15 the
    filter returns both cues. *)
Theorem filterOverlappingSounds_weaker_cue_first_survives (a b : SoundTrigger) :
  priority a = 3 ->
  priority b = 5 ->
  Z.abs (startFrame a - startFrame b) = 5 ->
  filterOverlappingSounds [a; b] (Some 15) = [a; b].
Proof.
  intros Ha Hb Hd.
  unfold filterOverlappingSounds. simpl.
  unfold filter_step at 2. simpl. unfold push. simpl.
  change [a; b] with ([a] ++ [b]).
  apply filter_step_keep.
  intros [k [Hin [_ Hp]]]. destruct Hin as [<- | []]. lia.
Qed.

Lemma filterOverlappingSounds_weaker_cue_first_survives_witness :
  filterOverlappingSounds
    [Replay.cue "capture-pawn" piece_capture 150 3;
     Replay.cue "check" special_moves 155 5] (Some 15)
  = [Replay.cue "capture-pawn" piece_capture 150 3;
     Replay.cue "check" special_moves 155 5].
Proof.
  apply filterOverlappingSounds_weaker_cue_first_survives; reflexivity.
Defined.

(** The two parts of C2 the code does satisfy: the priority-5 cue first
    suppresses the priority-3 cue 5 frames away, and two priority-3 cues
    20 frames apart both survive. *)
Lemma filterOverlappingSounds_stronger_cue_first (a b : SoundTrigger) :
  priority a = 5 ->
  priority b = 3 ->
  Z.abs (startFrame a - startFrame b) = 5 ->
  filterOverlappingSounds [a; b] (Some 15) = [a].
Proof.
  intros Ha Hb Hd.
  unfold filterOverlappingSounds. simpl.
  unfold filter_step at 2. simpl. unfold push. simpl.
  apply filter_step_discard. exists a. split; [now left|].
  split; lia.
Qed.

Lemma filterOverlappingSounds_outside_window (a b : SoundTrigger) :
  priority a = 3 ->
  priority b = 3 ->
  Z.abs (startFrame a - startFrame b) = 20 ->
  filterOverlappingSounds [a; b] (Some 15) = [a; b].
Proof.
  intros Ha Hb Hd.
  unfold filterOverlappingSounds. simpl.
  unfold filter_step at 2. simpl. unfold push. simpl.
  change [a; b] with ([a] ++ [b]).
  apply filter_step_keep.
  intros [k [Hin [Hw _]]]. destruct Hin as [<- | []]. lia.
Qed.

(* ===================================================================== *)
(** * The final sort *)
(* ===================================================================== *)

Section Sort.

Variable A : Type.
Variable cmp : A -> A -> Z.

Lemma sort_insert_permutation (x : A) (l : list A) :
  Permutation (x :: l) (sort_insert cmp x l).
Proof.
  induction l as [|y rest IH]; simpl.
  - apply Permutation_refl.
  - destruct (cmp x y <=? 0).
    + apply Permutation_refl.
    + eapply perm_trans; [apply perm_swap|]. now apply perm_skip.
Qed.

Lemma js_sort_permutation (l : list A) : Permutation l (js_sort cmp l).
Proof.
  induction l as [|x rest IH]; simpl.
  - apply perm_nil.
  - eapply perm_trans; [|apply sort_insert_permutation]. now apply perm_skip.
Qed.

Lemma js_sort_length (l : list A) : length (js_sort cmp l) = length l.
Proof. symmetry. apply Permutation_length, js_sort_permutation. Qed.

End Sort.

Lemma compare_triggers_in_order (a b : SoundTrigger) :
  compare_triggers a b <= 0 <-> in_order a b.
Proof.
  unfold compare_triggers, in_order.
  destruct (Z.eqb_spec (startFrame a) (startFrame b)) as [E|E]; simpl; lia.
Qed.

Lemma compare_triggers_total (a b : SoundTrigger) :
  ~ compare_triggers a b <= 0 -> compare_triggers b a <= 0.
Proof.
  unfold compare_triggers.
  destruct (Z.eqb_spec (startFrame a) (startFrame b)) as [E|E];
    destruct (Z.eqb_spec (startFrame b) (startFrame a)) as [E'|E'];
    simpl; lia.
Qed.

Lemma ordered_cons (a b : SoundTrigger) (rest : list SoundTrigger) :
  ordered (a :: b :: rest) <-> in_order a b /\ ordered (b :: rest).
Proof. reflexivity. Qed.

Lemma sort_insert_ordered (x : SoundTrigger) (l : list SoundTrigger) :
  ordered l -> ordered (sort_insert compare_triggers x l).
Proof.
  induction l as [|y rest IH]; intro Hl.
  - exact I.
  - simpl sort_insert.
    destruct (Z.leb_spec (compare_triggers x y) 0) as [Hxy|Hxy].
    + apply ordered_cons. split; [now apply compare_triggers_in_order | exact Hl].
    + assert (Hyx : in_order y x).
      { apply compare_triggers_in_order, compare_triggers_total. lia. }
      destruct rest as [|z rest'].
      * simpl. split; [exact Hyx | exact I].
      * apply ordered_cons in Hl. destruct Hl as [Hyz Hrest].
        specialize (IH Hrest). simpl sort_insert in *.
        destruct (compare_triggers x z <=? 0);
          apply ordered_cons; split; auto.
Qed.

Lemma js_sort_ordered (l : list SoundTrigger) :
  ordered (js_sort compare_triggers l).
Proof.
  induction l as [|x rest IH]; simpl.
  - exact I.
  - now apply sort_insert_ordered.
Qed.

Lemma compare_triggers_same_key (k t : SoundTrigger) :
  same_key k t = true -> compare_triggers k t <= 0.
Proof.
  unfold same_key, compare_triggers.
  rewrite andb_true_iff, !Z.eqb_eq. intros [Hf Hp].
  destruct (Z.eqb_spec (startFrame k) (startFrame t)); simpl; lia.
Qed.

Lemma same_key_trans (k x y : SoundTrigger) :
  same_key k x = true -> same_key k y = same_key x y.
Proof.
  unfold same_key. rewrite andb_true_iff, !Z.eqb_eq. intros [-> ->].
  reflexivity.
Qed.

(** The sort is stable: the cues that share a start frame and a priority
    keep the order they were accumulated in. *)
Lemma sort_insert_stable (k x : SoundTrigger) (l : list SoundTrigger) :
  filter (same_key k) (sort_insert compare_triggers x l)
  = filter (same_key k) (x :: l).
Proof.
  induction l as [|y rest IH]; [reflexivity|].
  simpl sort_insert.
  destruct (Z.leb_spec (compare_triggers x y) 0) as [Hle|Hgt]; [reflexivity|].
  change (filter (same_key k) (y :: sort_insert compare_triggers x rest))
    with (if same_key k y
          then y :: filter (same_key k) (sort_insert compare_triggers x rest)
          else filter (same_key k) (sort_insert compare_triggers x rest)).
  rewrite IH. simpl.
  destruct (same_key k x) eqn:Ex; destruct (same_key k y) eqn:Ey;
    try reflexivity.
  exfalso. rewrite (@same_key_trans k x y Ex) in Ey.
  apply compare_triggers_same_key in Ey. lia.
Qed.

Lemma js_sort_stable (k : SoundTrigger) (l : list SoundTrigger) :
  filter (same_key k) (js_sort compare_triggers l) = filter (same_key k) l.
Proof.
  induction l as [|x rest IH]; [reflexivity|].
  simpl js_sort. rewrite sort_insert_stable. simpl. now rewrite IH.
Qed.

(* ===================================================================== *)
(** * Reasoning about [Run] computations *)
(* ===================================================================== *)

Section RunFacts.

Lemma bind_returns {A B : Type} (m : Run A) (k : A -> Run B)
  (n n' : nat) (b : B) :
  bind m k n = Some (b, n') ->
  exists a n1, m n = Some (a, n1) /\ k a n1 = Some (b, n').
Proof.
  unfold bind. destruct (m n) as [[a n1]|]; [|discriminate].
  intro H. now exists a, n1.
Qed.

Lemma ret_returns {A : Type} (a b : A) (n n' : nat) :
  ret a n = Some (b, n') -> a = b /\ n = n'.
Proof. unfold ret. intro H. now inversion H. Qed.

Lemma lift_returns {A : Type} (o : option A) (b : A) (n n' : nat) :
  lift o n = Some (b, n') -> o = Some b /\ n = n'.
Proof.
  destruct o as [a|]; simpl; [|discriminate].
  intro H. apply ret_returns in H. destruct H as [-> ->]. now split.
Qed.

End RunFacts.

(* ===================================================================== *)
(** * The schedule builder *)
(* ===================================================================== *)

Lemma push_triggers_stamped (frameStart : Z) (sounds : list SoundEffect)
  (j : nat) (triggers : list SoundTrigger) :
  push_triggers frameStart sounds j triggers
  = triggers ++ stamped_cues frameStart j sounds.
Proof.
  revert j triggers. induction sounds as [|sound rest IH]; intros j triggers;
    simpl.
  - now rewrite app_nil_r.
  - rewrite IH. unfold push. now rewrite <- app_assoc.
Qed.

Lemma stamped_cues_nth (frameStart : Z) (sounds : list SoundEffect)
  (j0 j : nat) (t : SoundTrigger) :
  nth_error (stamped_cues frameStart j0 sounds) j = Some t <->
  exists sound,
    nth_error sounds j = Some sound
    /\ t = {| soundEffect := sound;
              startFrame := frameStart + Z.of_nat (j0 + j) * 5;
              priority := getPriority sound |}.
Proof.
  revert j0 j. induction sounds as [|sound rest IH]; intros j0 j.
  - destruct j; simpl; split; try discriminate; intros [s [H _]]; discriminate.
  - destruct j as [|j]; simpl.
    + rewrite Nat.add_0_r. split.
      * intro H. inversion H. now exists sound.
      * intros [s [Hs ->]]. now inversion Hs.
    + rewrite IH. replace (S j0 + j)%nat with (j0 + S j)%nat by lia.
      reflexivity.
Qed.

Lemma stamped_cues_effects (frameStart : Z) (sounds : list SoundEffect) (j : nat) :
  map soundEffect (stamped_cues frameStart j sounds) = sounds.
Proof.
  revert j. induction sounds as [|sound rest IH]; intro j; simpl.
  - reflexivity.
  - now rewrite IH.
Qed.

Section Builder.

Variable random : nat -> Q.
Context {chessjs : ChessJs}.
Variable evaluations : list (option Z).
Variable settings : SoundEffectSettings.

(** What one iteration of the loop does when it returns: it classifies an
    event whose sequence number is [index + 1] and appends the stamped cues
    of that event. *)
Lemma schedule_step_returns (fps : Z) (st st' : LoopState) (mv : string)
  (index n n' : nat) :
  schedule_step random evaluations settings fps st mv index n = Some (st', n') ->
  exists analysis sounds n1,
    moveNumber analysis = Z.of_nat index + 1
    /\ analyzeMoveForSounds random analysis settings n1 = Some (sounds, n')
    /\ triggers_acc st'
       = triggers_acc st ++ stamped_cues (90 + Z.of_nat index * 30) 0 sounds.
Proof.
  unfold schedule_step. intro H.
  apply bind_returns in H. destruct H as [[chess' analysis] [n1 [Hparse H]]].
  apply lift_returns in Hparse. destruct Hparse as [Hparse ->].
  apply bind_returns in H. destruct H as [sounds [n2 [Hsounds H]]].
  apply ret_returns in H. destruct H as [<- ->].
  exists analysis, sounds, n1. split; [|split].
  - unfold parseMoveForAnalysis in Hparse.
    destruct (chess_move (chess_board st) mv) as [[c m]|]; [|discriminate].
    now inversion Hparse.
  - exact Hsounds.
  - simpl. now rewrite push_triggers_stamped.
Qed.

(** The whole loop: one classified event per move, in order. *)
Lemma schedule_loop_returns (fps : Z) (moves : list string) :
  forall (index : nat) (st st' : LoopState) (n n' : nat),
    schedule_loop random evaluations settings fps moves index st n
    = Some (st', n') ->
    exists events : list (MoveAnalysis * list SoundEffect),
      length events = length moves
      /\ (forall i analysis sounds,
             nth_error events i = Some (analysis, sounds) ->
             moveNumber analysis = Z.of_nat (index + i) + 1
             /\ exists n1 n2,
                 analyzeMoveForSounds random analysis settings n1
                 = Some (sounds, n2))
      /\ triggers_acc st'
         = triggers_acc st ++ event_cues index (map snd events).
Proof.
  induction moves as [|mv rest IH]; intros index st st' n n' H; simpl in H.
  - apply ret_returns in H. destruct H as [<- _].
    exists []. split; [reflexivity|]. split.
    + intros [|i] analysis sounds Hnth; discriminate.
    + simpl. now rewrite app_nil_r.
  - apply bind_returns in H. destruct H as [st1 [n1 [Hstep H]]].
    apply schedule_step_returns in Hstep.
    destruct Hstep as [analysis [sounds [n0 [Hnum [Hsounds Hacc]]]]].
    apply IH in H. destruct H as [events [Hlen [Hev Hacc']]].
    exists ((analysis, sounds) :: events). split; [simpl; now rewrite Hlen|].
    split.
    + intros [|i] analysis' sounds' Hnth; simpl in Hnth.
      * inversion Hnth; subst. rewrite Nat.add_0_r. split; [exact Hnum|].
        now exists n0, n1.
      * destruct (Hev i analysis' sounds' Hnth) as [Hnum' Hrun].
        replace (index + S i)%nat with (S index + i)%nat by lia.
        now split.
    + simpl. rewrite Hacc', Hacc. now rewrite <- app_assoc.
Qed.

Lemma accumulated_triggers_returns (moves : list string) (fps : option Z)
  (acc : list SoundTrigger) (n n' : nat) :
  accumulated_triggers random moves evaluations settings fps n = Some (acc, n') ->
  exists events : list (MoveAnalysis * list SoundEffect),
    length events = length moves
    /\ (forall i analysis sounds,
           nth_error events i = Some (analysis, sounds) ->
           moveNumber analysis = Z.of_nat i + 1
           /\ exists n1 n2,
               analyzeMoveForSounds random analysis settings n1
               = Some (sounds, n2))
    /\ acc = event_cues 0 (map snd events).
Proof.
  unfold accumulated_triggers. intro H.
  apply bind_returns in H. destruct H as [st [n1 [Hloop H]]].
  apply ret_returns in H. destruct H as [<- ->].
  apply schedule_loop_returns in Hloop.
  destruct Hloop as [events [Hlen [Hev Hacc]]].
  exists events. split; [exact Hlen|]. split; [|exact Hacc].
  intros i analysis sounds Hnth. exact (Hev i analysis sounds Hnth).
Qed.

Lemma generateSoundSchedule_returns (moves : list string) (fps : option Z)
  (sched : list SoundTrigger) (n n' : nat) :
  generateSoundSchedule random moves evaluations settings fps n
  = Some (sched, n') ->
  exists acc,
    accumulated_triggers random moves evaluations settings fps n = Some (acc, n')
    /\ sched = js_sort compare_triggers acc.
Proof.
  unfold generateSoundSchedule. intro H.
  apply bind_returns in H. destruct H as [acc [n1 [Hacc H]]].
  apply ret_returns in H. destruct H as [<- ->].
  now exists acc.
Qed.

End Builder.

Lemma event_cues_member (per_event : list (list SoundEffect)) :
  forall (index : nat) (t : SoundTrigger),
    In t (event_cues index per_event) <->
    exists i sounds j sound,
      nth_error per_event i = Some sounds
      /\ nth_error sounds j = Some sound
      /\ t = {| soundEffect := sound;
                startFrame := 90 + Z.of_nat (index + i) * 30 + Z.of_nat j * 5;
                priority := getPriority sound |}.
Proof.
  induction per_event as [|sounds rest IH]; intros index t; simpl.
  - split; [intros [] | intros [[|i] [s [j [sound [H _]]]]]; discriminate].
  - rewrite in_app_iff, IH. split.
    + intros [H | [i [s [j [sound [Hi [Hj ->]]]]]]].
      * apply In_nth_error in H. destruct H as [j Hj].
        apply stamped_cues_nth in Hj. destruct Hj as [sound [Hj ->]].
        exists 0%nat, sounds, j, sound. simpl.
        rewrite Nat.add_0_r. now split; [|split].
      * exists (S i), s, j, sound. simpl.
        replace (index + S i)%nat with (S index + i)%nat by lia.
        now split; [|split].
    + intros [[|i] [s [j [sound [Hi [Hj ->]]]]]]; simpl in Hi.
      * inversion Hi; subst. left.
        apply nth_error_In with (n := j). apply stamped_cues_nth.
        exists sound. rewrite Nat.add_0_r. now split.
      * right. exists i, s, j, sound.
        replace (S index + i)%nat with (index + S i)%nat by lia.
        now split; [|split].
Qed.

(* ===================================================================== *)
(** * The catalog and its lookups *)
(* ===================================================================== *)

Lemma catalog_category (c : SoundEffectCategory) (s : SoundEffect) :
  In s (SOUND_EFFECTS c) -> category s = c.
Proof.
  destruct c; simpl; intros H;
    repeat (destruct H as [<- | H]; [reflexivity|]); destruct H.
Qed.

Lemma js_index_in_range {A : Type} (arr : list A) (i : Z) :
  0 <= i < Z.of_nat (length arr) ->
  exists a, js_index arr i = Some a /\ In a arr.
Proof.
  intros [Hlo Hhi]. unfold js_index.
  destruct (Z.ltb_spec i 0) as [Hneg|_]; [lia|].
  destruct (nth_error arr (Z.to_nat i)) as [a|] eqn:E.
  - exists a. split; [reflexivity|]. now apply nth_error_In with (n := Z.to_nat i).
  - apply nth_error_None in E. lia.
Qed.

Lemma js_index_member {A : Type} (arr : list A) (i : Z) (a : A) :
  js_index arr i = Some a -> In a arr.
Proof.
  unfold js_index. destruct (i <? 0); [discriminate|].
  apply nth_error_In.
Qed.

(** [Math.floor(r * len)] is an index of the array when [r] is a value
    [Math.random()] can return. *)
Lemma floor_scaled_in_range (r : Q) (len : nat) :
  (0 < len)%nat -> (0 <= r)%Q -> (r < 1)%Q ->
  0 <= Qfloor (r * inject_Z (Z.of_nat len)) < Z.of_nat len.
Proof.
  intros Hlen Hlo Hhi.
  assert (Hpos : (0 < inject_Z (Z.of_nat len))%Q).
  { change 0%Q with (inject_Z 0). rewrite <- Zlt_Qlt. lia. }
  split.
  - change 0 with (Qfloor 0). apply Qfloor_resp_le.
    apply Qmult_le_0_compat; [exact Hlo|]. now apply Qlt_le_weak.
  - rewrite Zlt_Qlt.
    eapply Qle_lt_trans; [apply Qfloor_le|].
    setoid_replace (inject_Z (Z.of_nat len)) with (1 * inject_Z (Z.of_nat len))%Q
      at 2 by (now rewrite Qmult_1_l).
    now apply Qmult_lt_compat_r.
Qed.

Lemma getRandomSound_at_defined (r : Q) (c : SoundEffectCategory) :
  (0 <= r)%Q -> (r < 1)%Q ->
  exists s, getRandomSound_at r c = Some s /\ In s (SOUND_EFFECTS c).
Proof.
  intros Hlo Hhi. unfold getRandomSound_at.
  apply js_index_in_range. apply floor_scaled_in_range; auto.
  destruct c; simpl; lia.
Qed.

Lemma getRandomSound_at_category (r : Q) (c : SoundEffectCategory)
  (s : SoundEffect) :
  getRandomSound_at r c = Some s -> category s = c.
Proof.
  unfold getRandomSound_at. intro H.
  apply catalog_category. exact (js_index_member _ _ H).
Qed.

(** The capture lookup, tier by tier. *)
Lemma getCaptureSound_tier (code : string) :
  getCaptureSound code = capture_tier (tier_of_code code).
Proof.
  unfold getCaptureSound, tier_of_code.
  destruct (String.eqb (JsString.toLowerCase code) "p"); [reflexivity|].
  destruct (String.eqb (JsString.toLowerCase code) "n"); [reflexivity|].
  destruct (String.eqb (JsString.toLowerCase code) "b"); [reflexivity|].
  destruct (String.eqb (JsString.toLowerCase code) "r"); [reflexivity|].
  destruct (String.eqb (JsString.toLowerCase code) "q"); reflexivity.
Qed.

Lemma tier_of_code_bound (code : string) : (tier_of_code code <= 3)%nat.
Proof.
  unfold tier_of_code.
  repeat match goal with
         | |- context [if ?b then _ else _] => destruct b
         end; lia.
Qed.

Lemma getCaptureSound_defined (code : string) :
  exists cue,
    getCaptureSound code = Some cue
    /\ In cue (SOUND_EFFECTS piece_capture)
    /\ category cue = piece_capture.
Proof.
  rewrite getCaptureSound_tier. unfold capture_tier.
  pose proof (tier_of_code_bound code) as Hb.
  destruct (nth_error (SOUND_EFFECTS piece_capture) (tier_of_code code))
    as [cue|] eqn:E.
  - exists cue. split; [reflexivity|].
    assert (Hin : In cue (SOUND_EFFECTS piece_capture))
      by exact (nth_error_In _ _ E).
    split; [exact Hin | now apply catalog_category].
  - apply nth_error_None in E. simpl in E. lia.
Qed.

(* ===================================================================== *)
(** * The move classifier, block by block *)
(* ===================================================================== *)

Section Classifier.

Variable random : nat -> Q.
Variable analysis : MoveAnalysis.
Variable settings : SoundEffectSettings.

Lemma scale_volume_category (fallback : Q) (sound : SoundEffect) :
  category (scale_volume fallback settings sound) = category sound.
Proof. reflexivity. Qed.

Lemma scale_volume_id (fallback : Q) (sound : SoundEffect) :
  id (scale_volume fallback settings sound) = id sound.
Proof. reflexivity. Qed.

Lemma of_category_scaled (c : SoundEffectCategory) (cues : list SoundEffect) :
  of_category c (map (scale_volume (5 # 10) settings) cues)
  = map (scale_volume (5 # 10) settings) (of_category c cues).
Proof.
  unfold of_category. induction cues as [|cue rest IH]; simpl.
  - reflexivity.
  - destruct (category_eqb (category cue) c); simpl; now rewrite IH.
Qed.

Lemma of_category_app (c : SoundEffectCategory) (l1 l2 : list SoundEffect) :
  of_category c (l1 ++ l2) = of_category c l1 ++ of_category c l2.
Proof. apply filter_app. Qed.

Lemma of_category_all (c : SoundEffectCategory) (cues : list SoundEffect) :
  Forall (fun cue => category cue = c) cues -> of_category c cues = cues.
Proof.
  induction 1 as [|cue rest Hc _ IH]; simpl.
  - reflexivity.
  - rewrite Hc. destruct c; simpl; now rewrite IH.
Qed.

Lemma of_category_none (c : SoundEffectCategory) (cues : list SoundEffect) :
  Forall (fun cue => category cue <> c) cues -> of_category c cues = [].
Proof.
  induction 1 as [|cue rest Hc _ IH]; simpl.
  - reflexivity.
  - destruct (category cue), c; simpl; try exact IH; now elim Hc.
Qed.

(** The volume pass returns exactly when no entry is [undefined], and then
    scales every cue. *)
Lemma apply_master_volume_returns (raw : list (option SoundEffect))
  (sounds : list SoundEffect) :
  apply_master_volume settings raw = Some sounds <->
  exists cues,
    raw = map Some cues
    /\ sounds = map (scale_volume (5 # 10) settings) cues.
Proof.
  revert sounds. induction raw as [|[cue|] rest IH]; intro sounds; simpl.
  - split.
    + intro H. inversion H. now exists [].
    + intros [[|c cs] [H ->]]; [reflexivity | discriminate].
  - destruct (apply_master_volume settings rest) as [rest'|].
    + split.
      * intro H. inversion H.
        destruct (proj1 (IH rest') eq_refl) as [cues [-> ->]].
        now exists (cue :: cues).
      * intros [[|c cs] [H ->]]; [discriminate|].
        inversion H; subst. simpl.
        assert (E : Some rest' = Some (map (scale_volume (5 # 10) settings) cs))
          by (apply IH; now exists cs).
        inversion E. reflexivity.
    + split; [discriminate|].
      intros [[|c cs] [H ->]]; [discriminate|].
      inversion H; subst.
      assert (E : None = Some (map (scale_volume (5 # 10) settings) cs))
        by (apply IH; now exists cs).
      discriminate.
  - split; [discriminate|].
    intros [[|c cs] [H _]]; discriminate.
Qed.

(** *** Special moves *)

Lemma special_move_sounds_app (sounds : list (option SoundEffect)) :
  special_move_sounds analysis settings sounds
  = sounds ++ special_move_sounds analysis settings [].
Proof.
  unfold special_move_sounds.
  destruct (specialMovesEnabled settings); [|now rewrite app_nil_r].
  destruct (isCheckmate analysis); [reflexivity|].
  destruct (isCheck analysis); [reflexivity|].
  destruct (isCastle analysis); [reflexivity|].
  destruct (isPromotion analysis); [reflexivity|].
  now rewrite app_nil_r.
Qed.

Lemma special_move_sounds_cues :
  exists cues,
    special_move_sounds analysis settings [] = map Some cues
    /\ Forall (fun cue => category cue = special_moves) cues
    /\ map id cues
       = if specialMovesEnabled settings then
           match special_choice analysis with
           | Some i => [i]
           | None => []
           end
         else [].
Proof.
  unfold special_move_sounds, special_choice.
  destruct (specialMovesEnabled settings);
    [|exists []; repeat split; constructor].
  destruct (isCheckmate analysis).
  { eexists [_]. split; [reflexivity|].
    split; [repeat constructor | reflexivity]. }
  destruct (isCheck analysis).
  { eexists [_]. split; [reflexivity|].
    split; [repeat constructor | reflexivity]. }
  destruct (isCastle analysis).
  { eexists [_]. split; [reflexivity|].
    split; [repeat constructor | reflexivity]. }
  destruct (isPromotion analysis).
  { eexists [_]. split; [reflexivity|].
    split; [repeat constructor | reflexivity]. }
  exists []. repeat split; constructor.
Qed.

(** *** Captures *)

Lemma capture_sounds_app (sounds : list (option SoundEffect)) :
  capture_sounds analysis settings sounds
  = sounds ++ capture_sounds analysis settings [].
Proof.
  unfold capture_sounds.
  destruct (capturedPiece analysis) as [piece|]; [|now rewrite app_nil_r].
  destruct (capturesEnabled settings && JsString.truthy piece)%bool;
    [reflexivity | now rewrite app_nil_r].
Qed.

Lemma capture_sounds_cues :
  exists cues,
    capture_sounds analysis settings [] = map Some cues
    /\ Forall (fun cue => category cue = piece_capture) cues
    /\ match capturedPiece analysis with
       | Some piece =>
           if (capturesEnabled settings && JsString.truthy piece)%bool
           then exists cue, getCaptureSound piece = Some cue /\ cues = [cue]
           else cues = []
       | None => cues = []
       end.
Proof.
  unfold capture_sounds.
  destruct (capturedPiece analysis) as [piece|];
    [|exists []; repeat split; constructor].
  destruct (capturesEnabled settings && JsString.truthy piece)%bool;
    [|exists []; repeat split; constructor].
  destruct (getCaptureSound_defined piece) as [cue [E [_ Hc]]].
  exists [cue]. split; [simpl; unfold push; simpl; now rewrite E|].
  split; [repeat constructor; exact Hc|].
  now exists cue.
Qed.

End Classifier.

Lemma map_Some_app_inv {A : Type} (front : list A) (raw : list (option A))
  (cues : list A) :
  map Some front ++ raw = map Some cues ->
  exists back, raw = map Some back /\ cues = front ++ back.
Proof.
  revert cues. induction front as [|c front IH]; intros cues H; simpl in *.
  - now exists cues.
  - destruct cues as [|c' cues]; [discriminate|].
    inversion H; subst.
    destruct (IH cues H2) as [back [-> ->]]. now exists back.
Qed.

Section CrowdAndWhole.

Variable random : nat -> Q.
Variable analysis : MoveAnalysis.
Variable settings : SoundEffectSettings.

(** *** Crowd reactions *)

Lemma crowd_sounds_app (sounds : list (option SoundEffect)) (n : nat) :
  crowd_sounds random analysis settings sounds n
  = match crowd_sounds random analysis settings [] n with
    | Some (raw, n') => Some (sounds ++ raw, n')
    | None => None
    end.
Proof.
  unfold crowd_sounds.
  destruct (evaluation analysis) as [ev|];
    [|unfold ret; now rewrite app_nil_r].
  destruct (previousEvaluation analysis) as [prev|];
    [|unfold ret; now rewrite app_nil_r].
  destruct (crowdEnabled settings); [|unfold ret; now rewrite app_nil_r].
  destruct (Z.abs (ev - prev) >? 200); [reflexivity|].
  destruct (ev - prev >? 150); [reflexivity|].
  unfold ret; now rewrite app_nil_r.
Qed.

(** The magnitude branch: one call of [Math.random], one entry pushed. *)
Lemma crowd_sounds_magnitude (ev prev : Z) (n : nat) :
  evaluation analysis = Some ev ->
  previousEvaluation analysis = Some prev ->
  crowdEnabled settings = true ->
  Z.abs (ev - prev) > 200 ->
  crowd_sounds random analysis settings [] n
  = Some ([getRandomSound_at (random n) crowd_reaction], S n).
Proof.
  intros Hev Hprev Hon Hbig. unfold crowd_sounds.
  rewrite Hev, Hprev, Hon.
  destruct (Z.gtb_spec (Z.abs (ev - prev)) 200) as [_|Hno]; [|lia].
  reflexivity.
Qed.

(** The applause branch: no call of [Math.random], the first catalog entry
    whose id contains "applause". *)
Lemma crowd_sounds_applause (ev prev : Z) (n : nat) :
  evaluation analysis = Some ev ->
  previousEvaluation analysis = Some prev ->
  crowdEnabled settings = true ->
  Z.abs (ev - prev) <= 200 ->
  ev - prev > 150 ->
  crowd_sounds random analysis settings [] n
  = Some ([nth_error (SOUND_EFFECTS crowd_reaction) 2], n).
Proof.
  intros Hev Hprev Hon Hsmall Hup. unfold crowd_sounds.
  rewrite Hev, Hprev, Hon.
  destruct (Z.gtb_spec (Z.abs (ev - prev)) 200) as [Hno|_]; [lia|].
  destruct (Z.gtb_spec (ev - prev) 150) as [_|Hno]; [|lia].
  reflexivity.
Qed.

(** Whatever the crowd block pushes is at most one entry, and a defined
    entry is a crowd-reaction cue. *)
Lemma crowd_sounds_entries (raw : list (option SoundEffect)) (n n' : nat) :
  crowd_sounds random analysis settings [] n = Some (raw, n') ->
  (length raw <= 1)%nat
  /\ Forall (fun entry => forall cue, entry = Some cue ->
                                      category cue = crowd_reaction) raw.
Proof.
  unfold crowd_sounds.
  destruct (evaluation analysis) as [ev|];
    [|intro H; apply ret_returns in H; destruct H as [<- _]; simpl; auto].
  destruct (previousEvaluation analysis) as [prev|];
    [|intro H; apply ret_returns in H; destruct H as [<- _]; simpl; auto].
  destruct (crowdEnabled settings);
    [|intro H; apply ret_returns in H; destruct H as [<- _]; simpl; auto].
  destruct (Z.abs (ev - prev) >? 200).
  { intro H. inversion H; subst. split; [simpl; lia|].
    constructor; [|constructor].
    intros cue Hc. now apply getRandomSound_at_category in Hc. }
  destruct (ev - prev >? 150).
  { intro H. apply ret_returns in H. destruct H as [<- _].
    split; [simpl; lia|]. constructor; [|constructor].
    intros cue Hc. inversion Hc. reflexivity. }
  intro H; apply ret_returns in H; destruct H as [<- _]; simpl; auto.
Qed.

(** The crowd block returns without an [undefined] entry when the draw is a
    value [Math.random()] can return. *)
Lemma crowd_sounds_defined (n : nat) :
  (0 <= random n)%Q -> (random n < 1)%Q ->
  exists cues n',
    crowd_sounds random analysis settings [] n = Some (map Some cues, n').
Proof.
  intros Hlo Hhi. unfold crowd_sounds.
  destruct (evaluation analysis) as [ev|]; [|now exists [], n].
  destruct (previousEvaluation analysis) as [prev|]; [|now exists [], n].
  destruct (crowdEnabled settings); [|now exists [], n].
  destruct (Z.abs (ev - prev) >? 200).
  { destruct (getRandomSound_at_defined crowd_reaction Hlo Hhi) as [g [Hg _]].
    exists [g], (S n). unfold getRandomSound, bind, Math_random, ret.
    rewrite Hg. reflexivity. }
  destruct (ev - prev >? 150); [|now exists [], n].
  eexists [_], n. reflexivity.
Qed.

(** *** The whole classifier *)

Lemma analyzeMoveForSounds_disabled (n : nat) :
  enabled settings = false ->
  analyzeMoveForSounds random analysis settings n = Some ([], n).
Proof. intro H. unfold analyzeMoveForSounds. now rewrite H. Qed.

Lemma analyzeMoveForSounds_unfold (n : nat) :
  enabled settings = true ->
  analyzeMoveForSounds random analysis settings n
  = match crowd_sounds random analysis settings [] n with
    | Some (raw, n') =>
        match apply_master_volume settings
                (special_move_sounds analysis settings []
                 ++ capture_sounds analysis settings [] ++ raw) with
        | Some sounds => Some (sounds, n')
        | None => None
        end
    | None => None
    end.
Proof.
  intro H. unfold analyzeMoveForSounds. rewrite H. simpl.
  unfold bind. rewrite crowd_sounds_app.
  destruct (crowd_sounds random analysis settings [] n) as [[raw n']|];
    [|reflexivity].
  rewrite capture_sounds_app, <- app_assoc.
  destruct (apply_master_volume settings
              (special_move_sounds analysis settings []
               ++ capture_sounds analysis settings [] ++ raw));
    reflexivity.
Qed.

(** When the classifier returns with the master flag on, its result is the
    scaled cues of the three blocks, in the order special move, capture,
    crowd reaction. *)
Lemma analyzeMoveForSounds_blocks (sounds : list SoundEffect) (n n' : nat) :
  enabled settings = true ->
  analyzeMoveForSounds random analysis settings n = Some (sounds, n') ->
  exists special capture crowd,
    special_move_sounds analysis settings [] = map Some special
    /\ capture_sounds analysis settings [] = map Some capture
    /\ crowd_sounds random analysis settings [] n = Some (map Some crowd, n')
    /\ Forall (fun cue => category cue = special_moves) special
    /\ Forall (fun cue => category cue = piece_capture) capture
    /\ Forall (fun cue => category cue = crowd_reaction) crowd
    /\ sounds = map (scale_volume (5 # 10) settings)
                    (special ++ capture ++ crowd).
Proof.
  intros Hon H. rewrite (analyzeMoveForSounds_unfold n Hon) in H.
  destruct (crowd_sounds random analysis settings [] n) as [[raw n1]|] eqn:Hc;
    [|discriminate].
  destruct (special_move_sounds_cues analysis settings)
    as [special [Es [Fs _]]].
  destruct (capture_sounds_cues analysis settings)
    as [capture [Ec [Fc _]]].
  rewrite Es, Ec in H.
  destruct (apply_master_volume settings (map Some special ++ map Some capture ++ raw))
    as [out|] eqn:Hv; [|discriminate].
  inversion H; subst.
  apply apply_master_volume_returns in Hv. destruct Hv as [cues [Hraw ->]].
  assert (Hsplit : exists crowd, raw = map Some crowd
                                 /\ cues = special ++ capture ++ crowd).
  { apply map_Some_app_inv in Hraw. destruct Hraw as [back [Hraw ->]].
    apply map_Some_app_inv in Hraw. destruct Hraw as [crowd [-> ->]].
    now exists crowd. }
  destruct Hsplit as [crowd [-> ->]].
  exists special, capture, crowd.
  repeat (split; [first [assumption | reflexivity]|]).
  split; [|reflexivity].
  destruct (crowd_sounds_entries _ Hc) as [_ Hf].
  clear - Hf. induction crowd as [|c crowd IH]; constructor.
  - inversion Hf; subst. now apply H1.
  - apply IH. now inversion Hf.
Qed.

(** The classifier returns when the draw at hand is a value
    [Math.random()] can return. *)
Lemma analyzeMoveForSounds_defined (n : nat) :
  (0 <= random n)%Q -> (random n < 1)%Q ->
  exists sounds n',
    analyzeMoveForSounds random analysis settings n = Some (sounds, n')
    /\ (n' = n \/ n' = S n).
Proof.
  intros Hlo Hhi.
  destruct (enabled settings) eqn:Hon.
  - rewrite (analyzeMoveForSounds_unfold n Hon).
    destruct (crowd_sounds_defined Hlo Hhi) as [crowd [n' Hc]].
    assert (Hn : n' = n \/ n' = S n).
    { clear - Hc. unfold crowd_sounds in Hc.
      destruct (evaluation analysis); [|inversion Hc; auto].
      destruct (previousEvaluation analysis); [|inversion Hc; auto].
      destruct (crowdEnabled settings); [|inversion Hc; auto].
      destruct (Z.abs (z - z0) >? 200); [inversion Hc; auto|].
      destruct (z - z0 >? 150); inversion Hc; auto. }
    rewrite Hc.
    destruct (special_move_sounds_cues analysis settings) as [special [-> _]].
    destruct (capture_sounds_cues analysis settings) as [capture [-> _]].
    rewrite <- !map_app.
    assert (E : apply_master_volume settings
                  (map Some (special ++ capture ++ crowd))
                = Some (map (scale_volume (5 # 10) settings)
                            (special ++ capture ++ crowd))).
    { apply apply_master_volume_returns. now eexists. }
    rewrite E. eauto.
  - exists [], n. split; [now apply analyzeMoveForSounds_disabled | now left].
Qed.

End CrowdAndWhole.

(* ===================================================================== *)
(** * Properties of the schedule builder *)
(* ===================================================================== *)

(** Every cue the classifier returns comes from one of its three blocks. *)
Lemma analyzeMoveForSounds_event_driven (random : nat -> Q)
  (analysis : MoveAnalysis) (settings : SoundEffectSettings)
  (sounds : list SoundEffect) (n n' : nat) :
  analyzeMoveForSounds random analysis settings n = Some (sounds, n') ->
  Forall (fun cue => event_driven (category cue) = true) sounds.
Proof.
  intro H. destruct (enabled settings) eqn:Hon.
  - apply analyzeMoveForSounds_blocks in H; [|exact Hon].
    destruct H as [special [capture [crowd [_ [_ [_ [Fs [Fc [Fr ->]]]]]]]]].
    rewrite Forall_forall in *. intros cue Hin.
    apply in_map_iff in Hin. destruct Hin as [raw [<- Hin]].
    rewrite scale_volume_category.
    apply in_app_or in Hin. destruct Hin as [Hin|Hin];
      [now rewrite (Fs _ Hin)|].
    apply in_app_or in Hin. destruct Hin as [Hin|Hin];
      [now rewrite (Fc _ Hin) | now rewrite (Fr _ Hin)].
  - rewrite analyzeMoveForSounds_disabled in H by exact Hon.
    inversion H. constructor.
Qed.

Section BuilderProperties.

Variable random : nat -> Q.
Context {chessjs : ChessJs}.
Variable moves : list string.
Variable evaluations : list (option Z).
Variable settings : SoundEffectSettings.
Variable fps : option Z.

(** The builder returns a schedule whenever chess.js accepts the moves and
    the draws are values [Math.random()] can return. *)
Lemma schedule_loop_total (w : Z) :
  (forall board mv, chess_move board mv <> None) ->
  (forall k, (0 <= random k)%Q /\ (random k < 1)%Q) ->
  forall (rest : list string) (index : nat) (st : LoopState) (n : nat),
  exists st' n',
    schedule_loop random evaluations settings w rest index st n = Some (st', n').
Proof.
  intros Hchess Hrand rest.
  induction rest as [|mv rest IH]; intros index st n; simpl.
  - now exists st, n.
  - unfold bind at 1. unfold schedule_step at 1. unfold bind at 1.
    unfold parseMoveForAnalysis.
    destruct (chess_move (chess_board st) mv) as [[board' moveObj]|] eqn:E;
      [|now elim (Hchess (chess_board st) mv)].
    simpl. unfold bind at 1.
    match goal with
    | |- context [analyzeMoveForSounds random ?a settings n] =>
        destruct (@analyzeMoveForSounds_defined random a settings n
                    (proj1 (Hrand n)) (proj2 (Hrand n)))
          as [sounds [n1 [Hs _]]]; rewrite Hs
    end.
    simpl. apply IH.
Qed.

Lemma generateSoundSchedule_total (n : nat) :
  (forall board mv, chess_move board mv <> None) ->
  (forall k, (0 <= random k)%Q /\ (random k < 1)%Q) ->
  exists sched n',
    generateSoundSchedule random moves evaluations settings fps n
    = Some (sched, n').
Proof.
  intros Hchess Hrand.
  unfold generateSoundSchedule, accumulated_triggers.
  destruct (schedule_loop_total (with_default 30 fps) Hchess Hrand moves 0
              {| chess_board := new_Chess;
                 triggers_acc := [];
                 previousEval_acc := None |} n) as [st' [n' H]].
  unfold bind. rewrite H. unfold ret. eauto.
Qed.

(** C4. Every schedule the builder returns satisfies the ordering
    invariant: along the list start frames do not decrease, and of two
    adjacent cues with the same start frame the first has the priority at
    least as high. *)
Theorem generateSoundSchedule_ordered
  (sched : list SoundTrigger) (n n' : nat) :
  generateSoundSchedule random moves evaluations settings fps n
  = Some (sched, n') ->
  ordered sched.
Proof.
  intro H. apply generateSoundSchedule_returns in H.
  destruct H as [acc [_ ->]]. apply js_sort_ordered.
Qed.

(** C1 (amended). The builder runs no suppression pass: the schedule it
    returns holds every cue accumulated over the event sequence, as many
    times as it was produced, merely rearranged by the final sort. *)
Theorem generateSoundSchedule_suppresses_nothing
  (sched : list SoundTrigger) (n n' : nat) :
  generateSoundSchedule random moves evaluations settings fps n
  = Some (sched, n') ->
  exists acc,
    accumulated_triggers random moves evaluations settings fps n
    = Some (acc, n')
    /\ Permutation acc sched
    /\ length sched = length acc.
Proof.
  intro H. apply generateSoundSchedule_returns in H.
  destruct H as [acc [Hacc ->]]. exists acc.
  split; [exact Hacc|]. split.
  - apply js_sort_permutation.
  - apply js_sort_length.
Qed.

(** C5 (amended). The builder never queries the ambient cues: no cue of a
    returned schedule is of the atmosphere category (each comes from the
    special-move, capture or crowd block of the classifier).  The ambient
    cues are what the separate query getAtmosphereSounds returns: the
    tournament-hall cue scaled by the master volume when the atmosphere and
    master flags are on, nothing otherwise, whatever the game phase. *)
Theorem generateSoundSchedule_no_atmosphere
  (sched : list SoundTrigger) (n n' : nat) :
  generateSoundSchedule random moves evaluations settings fps n
  = Some (sched, n') ->
  Forall (fun t => category (soundEffect t) <> atmosphere
                   /\ event_driven (category (soundEffect t)) = true) sched
  /\ exists hall,
      getSoundEffect "tournament-hall" = Some hall
      /\ category hall = atmosphere
      /\ forall phase,
          getAtmosphereSounds phase settings
          = if (atmosphereEnabled settings && enabled settings)%bool
            then [scale_volume (15 # 100) settings hall]
            else [].
Proof.
  intro H. split.
  - apply generateSoundSchedule_returns in H.
    destruct H as [acc [Hacc ->]].
    apply accumulated_triggers_returns in Hacc.
    destruct Hacc as [events [_ [Hev ->]]].
    rewrite Forall_forall. intros t Hin.
    apply (Permutation_in _ (Permutation_sym
             (js_sort_permutation compare_triggers _))) in Hin.
    apply event_cues_member in Hin.
    destruct Hin as [i [sounds [j [sound [Hi [Hj ->]]]]]].
    rewrite nth_error_map in Hi.
    destruct (nth_error events i) as [[analysis sounds']|] eqn:Hn;
      [|discriminate].
    simpl in Hi. inversion Hi; subst sounds'.
    destruct (Hev i analysis sounds Hn) as [_ [n1 [n2 Hrun]]].
    apply analyzeMoveForSounds_event_driven in Hrun.
    rewrite Forall_forall in Hrun.
    pose proof (Hrun sound (nth_error_In _ _ Hj)) as Hd. simpl.
    split; [|exact Hd].
    intro E. rewrite E in Hd. discriminate.
  - eexists. split; [reflexivity|]. split; [reflexivity|].
    intro phase. unfold getAtmosphereSounds.
    destruct (atmosphereEnabled settings), (enabled settings); reflexivity.
Qed.

End BuilderProperties.

(** ** The recorded game as an input of the builder *)

Lemma scholars_mate_schedule :
  generateSoundSchedule (chessjs := Replay.replay Replay.scholars_mate)
    Replay.zero_random Replay.scholars_mate_moves [] DEFAULT_SOUND_SETTINGS
    None 0%nat
  = Some ([Replay.mate_trigger; Replay.capture_trigger], 0%nat).
Proof. vm_compute. reflexivity. Defined.

Lemma scholars_mate_accumulated :
  accumulated_triggers (chessjs := Replay.replay Replay.scholars_mate)
    Replay.zero_random Replay.scholars_mate_moves [] DEFAULT_SOUND_SETTINGS
    None 0%nat
  = Some ([Replay.mate_trigger; Replay.capture_trigger], 0%nat).
Proof. vm_compute. reflexivity. Defined.

Lemma generateSoundSchedule_ordered_witness :
  generateSoundSchedule (chessjs := Replay.replay Replay.scholars_mate)
    Replay.zero_random Replay.scholars_mate_moves [] DEFAULT_SOUND_SETTINGS
    None 0%nat
  = Some ([Replay.mate_trigger; Replay.capture_trigger], 0%nat)
  /\ ordered [Replay.mate_trigger; Replay.capture_trigger].
Proof.
  split; [exact scholars_mate_schedule|].
  exact (generateSoundSchedule_ordered _ _ _ _ _ _ scholars_mate_schedule).
Defined.

(** C1 (as stated, refuted). On the recorded game the builder returns the
    capture cue although it lies 5 frames after the mate cue, which was
    produced before it and has the higher priority; the suppression pass
    with the default window would have removed it. *)
Lemma generateSoundSchedule_keeps_dominated_cue :
  accumulated_triggers (chessjs := Replay.replay Replay.scholars_mate)
    Replay.zero_random Replay.scholars_mate_moves [] DEFAULT_SOUND_SETTINGS
    None 0%nat
  = Some ([Replay.mate_trigger; Replay.capture_trigger], 0%nat)
  /\ generateSoundSchedule (chessjs := Replay.replay Replay.scholars_mate)
       Replay.zero_random Replay.scholars_mate_moves [] DEFAULT_SOUND_SETTINGS
       None 0%nat
     = Some ([Replay.mate_trigger; Replay.capture_trigger], 0%nat)
  /\ dominates 15 Replay.mate_trigger Replay.capture_trigger
  /\ ~ suppression_applied 15
         [Replay.mate_trigger; Replay.capture_trigger]
         [Replay.mate_trigger; Replay.capture_trigger]
  /\ filterOverlappingSounds
       [Replay.mate_trigger; Replay.capture_trigger] None
     = [Replay.mate_trigger].
Proof.
  assert (Hd : dominates 15 Replay.mate_trigger Replay.capture_trigger)
    by (unfold dominates; simpl; lia).
  split; [exact scholars_mate_accumulated|].
  split; [exact scholars_mate_schedule|].
  split; [exact Hd|]. split.
  - intro H.
    apply (H [] Replay.mate_trigger [] Replay.capture_trigger []);
      [reflexivity | now left | right; now left | exact Hd].
  - reflexivity.
Qed.

Lemma generateSoundSchedule_suppresses_nothing_witness :
  exists acc,
    accumulated_triggers (chessjs := Replay.replay Replay.scholars_mate)
      Replay.zero_random Replay.scholars_mate_moves [] DEFAULT_SOUND_SETTINGS
      None 0%nat
    = Some (acc, 0%nat)
    /\ Permutation acc [Replay.mate_trigger; Replay.capture_trigger]
    /\ length [Replay.mate_trigger; Replay.capture_trigger] = length acc.
Proof.
  exact (generateSoundSchedule_suppresses_nothing _ _ _ _ _ _ scholars_mate_schedule).
Defined.

(** C5 (as stated, refuted). With the atmosphere and master flags on, the
    ambient query returns the tournament-hall cue, yet the schedule the
    builder returns for the recorded game holds no atmosphere cue. *)
Lemma generateSoundSchedule_omits_atmosphere :
  atmosphereEnabled DEFAULT_SOUND_SETTINGS = true
  /\ enabled DEFAULT_SOUND_SETTINGS = true
  /\ map id (getAtmosphereSounds middlegame DEFAULT_SOUND_SETTINGS)
     = ["tournament-hall"]
  /\ generateSoundSchedule (chessjs := Replay.replay Replay.scholars_mate)
       Replay.zero_random Replay.scholars_mate_moves [] DEFAULT_SOUND_SETTINGS
       None 0%nat
     = Some ([Replay.mate_trigger; Replay.capture_trigger], 0%nat)
  /\ ~ exists t,
        In t [Replay.mate_trigger; Replay.capture_trigger]
        /\ category (soundEffect t) = atmosphere.
Proof.
  split; [reflexivity|]. split; [reflexivity|]. split; [reflexivity|].
  split; [exact scholars_mate_schedule|].
  intros [t [[<- | [<- | []]] Hc]]; discriminate.
Qed.

Lemma generateSoundSchedule_no_atmosphere_witness :
  Forall (fun t => category (soundEffect t) <> atmosphere
                   /\ event_driven (category (soundEffect t)) = true)
    [Replay.mate_trigger; Replay.capture_trigger].
Proof.
  exact (proj1 (generateSoundSchedule_no_atmosphere _ _ _ _ _ _ scholars_mate_schedule)).
Defined.

(* ===================================================================== *)
(** * Properties of the move classifier *)
(* ===================================================================== *)

(** C6 (as stated, refuted). With the special-move flag on but the master
    flag off, a check that is not a mate yields no cue at all, so not the
    check cue. *)
Lemma analyzeMoveForSounds_master_off_no_check_cue :
  specialMovesEnabled Replay.muted_settings = true
  /\ isCheck Replay.check_event = true
  /\ isCheckmate Replay.check_event = false
  /\ analyzeMoveForSounds Replay.zero_random Replay.check_event
       Replay.muted_settings 0%nat
     = Some ([], 0%nat).
Proof. repeat split. Qed.

(** C6 (amended). For every event and settings with the master flag and the
    special-move flag on, the classifier emits at most one special-move cue,
    the one the precedence checkmate > check > castle > promotion selects:
    the checkmate cue alone for a mate, the check cue for a check that is no
    mate, the castle cue for a castle that is no check, otherwise the
    promotion cue for a promotion, and none for any other event.  It returns
    whenever the draw at hand is a value Math.random() can return.  With the
    master flag off it emits nothing. *)
Theorem analyzeMoveForSounds_special_precedence
  (random : nat -> Q) (analysis : MoveAnalysis)
  (settings : SoundEffectSettings) (n : nat) :
  specialMovesEnabled settings = true ->
  (enabled settings = true ->
   forall sounds n',
     analyzeMoveForSounds random analysis settings n = Some (sounds, n') ->
     map id (of_category special_moves sounds)
     = match special_choice analysis with
       | Some i => [i]
       | None => []
       end)
  /\ ((0 <= random n)%Q -> (random n < 1)%Q ->
      exists sounds n',
        analyzeMoveForSounds random analysis settings n = Some (sounds, n'))
  /\ (enabled settings = false ->
      analyzeMoveForSounds random analysis settings n = Some ([], n)).
Proof.
  intro Hsp. split; [|split].
  - intros Hon sounds n' H.
    apply analyzeMoveForSounds_blocks in H; [|exact Hon].
    destruct H as [special [capture [crowd [Es [_ [_ [Fs [Fc [Fr ->]]]]]]]]].
    rewrite of_category_scaled, !of_category_app.
    rewrite (of_category_all Fs).
    rewrite (@of_category_none special_moves capture),
            (@of_category_none special_moves crowd).
    + rewrite !app_nil_r, map_map. simpl.
      destruct (special_move_sounds_cues analysis settings)
        as [special' [Es' [_ Hids]]].
      rewrite Es in Es'.
      assert (E : special = special').
      { clear - Es'. revert special' Es'.
        induction special as [|c l IH]; intros [|c' l'] H;
          try discriminate; [reflexivity|].
        inversion H. f_equal. now apply IH. }
      subst special'. rewrite Hsp in Hids. exact Hids.
    + eapply Forall_impl; [|exact Fr]. intros cue ->. discriminate.
    + eapply Forall_impl; [|exact Fc]. intros cue ->. discriminate.
  - intros Hlo Hhi.
    destruct (@analyzeMoveForSounds_defined random analysis settings n Hlo Hhi)
      as [sounds [n' [H _]]].
    now exists sounds, n'.
  - apply analyzeMoveForSounds_disabled.
Qed.

Lemma analyzeMoveForSounds_special_precedence_witness :
  specialMovesEnabled DEFAULT_SOUND_SETTINGS = true
  /\ exists sounds n',
      analyzeMoveForSounds Replay.zero_random Replay.check_event
        DEFAULT_SOUND_SETTINGS 0%nat = Some (sounds, n')
      /\ map id (of_category special_moves sounds) = ["check"].
Proof.
  split; [reflexivity|].
  destruct (analyzeMoveForSounds_special_precedence Replay.zero_random
              Replay.check_event DEFAULT_SOUND_SETTINGS 0 eq_refl)
    as [Hids [Hret _]].
  destruct Hret as [sounds [n' H]].
  - unfold Replay.zero_random. discriminate.
  - reflexivity.
  - exists sounds, n'. split; [exact H|].
    exact (Hids eq_refl sounds n' H).
Defined.

(** C7 (as stated, refuted). The code "Q" is none of p, n, b, r, q, yet it
    selects the queen tier, not the pawn tier; and a capture whose code is
    the empty string yields no capture cue. *)
Lemma getCaptureSound_upper_case_queen :
  option_map id (getCaptureSound "Q") = Some "capture-queen"
  /\ option_map id (capture_tier 0) = Some "capture-pawn"
  /\ getCaptureSound "Q" <> capture_tier 0
  /\ analyzeMoveForSounds Replay.zero_random (Replay.capture_event "")
       DEFAULT_SOUND_SETTINGS 0%nat
     = Some ([], 0%nat).
Proof.
  split; [reflexivity|]. split; [reflexivity|].
  split; [discriminate | reflexivity].
Qed.

(** C7 (amended). getCaptureSound is total and never raises; it selects the
    tier by the lower-cased code: tier 0 (capture-pawn) for "p", tier 1
    (capture-minor) for "n" or "b", tier 2 (capture-rook) for "r", tier 3
    (capture-queen) for "q", and tier 0 for every code whose lower-cased
    form is none of these.  Consequently, with the master and capture flags
    on, an event with a non-empty captured-piece code yields exactly one
    capture cue, the selected one scaled by the master volume, and the
    classifier returns whenever the draw at hand is a value Math.random()
    can return. *)
Theorem getCaptureSound_tiers (code : string) :
  (exists cue,
      getCaptureSound code = Some cue /\ category cue = piece_capture)
  /\ map id (SOUND_EFFECTS piece_capture)
     = ["capture-pawn"; "capture-minor"; "capture-rook"; "capture-queen"]
  /\ (JsString.toLowerCase code = "p" ->
      getCaptureSound code = capture_tier 0)
  /\ (JsString.toLowerCase code = "n" \/ JsString.toLowerCase code = "b" ->
      getCaptureSound code = capture_tier 1)
  /\ (JsString.toLowerCase code = "r" ->
      getCaptureSound code = capture_tier 2)
  /\ (JsString.toLowerCase code = "q" ->
      getCaptureSound code = capture_tier 3)
  /\ (~ In (JsString.toLowerCase code) ["p"; "n"; "b"; "r"; "q"] ->
      getCaptureSound code = capture_tier 0)
  /\ (forall (random : nat -> Q) (analysis : MoveAnalysis)
             (settings : SoundEffectSettings) (n : nat),
         enabled settings = true ->
         capturesEnabled settings = true ->
         capturedPiece analysis = Some code ->
         code <> "" ->
         (forall sounds n',
             analyzeMoveForSounds random analysis settings n
             = Some (sounds, n') ->
             exists cue,
               getCaptureSound code = Some cue
               /\ of_category piece_capture sounds
                  = [scale_volume (5 # 10) settings cue])
         /\ ((0 <= random n)%Q -> (random n < 1)%Q ->
             exists sounds n',
               analyzeMoveForSounds random analysis settings n
               = Some (sounds, n'))).
Proof.
  split; [|split; [reflexivity|]].
  { destruct (getCaptureSound_defined code) as [cue [E [_ Hc]]].
    now exists cue. }
  unfold getCaptureSound, capture_tier.
  split; [intros ->; reflexivity|].
  split; [intros [-> | ->]; reflexivity|].
  split; [intros ->; reflexivity|].
  split; [intros ->; reflexivity|].
  split.
  - intro Hnot.
    repeat match goal with
           | |- context [String.eqb ?a ?b] =>
               destruct (String.eqb_spec a b) as [E|_];
               [exfalso; apply Hnot; rewrite E; simpl; tauto|]
           end.
    reflexivity.
  - intros random analysis settings n Hon Hcap Hpiece Hne. split.
    + intros sounds n' H.
      apply analyzeMoveForSounds_blocks in H; [|exact Hon].
      destruct H as [special [capture [crowd [_ [Ec [_ [Fs [Fc [Fr ->]]]]]]]]].
      destruct (capture_sounds_cues analysis settings)
        as [capture' [Ec' [_ Hcue]]].
      rewrite Ec in Ec'.
      assert (E : capture = capture').
      { clear - Ec'. revert capture' Ec'.
        induction capture as [|c l IH]; intros [|c' l'] H;
          try discriminate; [reflexivity|].
        inversion H. f_equal. now apply IH. }
      subst capture'. rewrite Hpiece, Hcap in Hcue.
      assert (Ht : JsString.truthy code = true)
        by (destruct code; [now elim Hne | reflexivity]).
      rewrite Ht in Hcue. simpl in Hcue.
      destruct Hcue as [cue [Hg ->]].
      exists cue. split; [exact Hg|].
      rewrite of_category_scaled, !of_category_app.
      rewrite (of_category_all Fc).
      rewrite (@of_category_none piece_capture special),
              (@of_category_none piece_capture crowd).
      * reflexivity.
      * eapply Forall_impl; [|exact Fr]. intros c ->. discriminate.
      * eapply Forall_impl; [|exact Fs]. intros c ->. discriminate.
    + intros Hlo Hhi.
      destruct (@analyzeMoveForSounds_defined random analysis settings n Hlo Hhi)
        as [sounds [n' [H _]]].
      now exists sounds, n'.
Qed.

Lemma getCaptureSound_tiers_witness :
  getCaptureSound "x" = capture_tier 0
  /\ getCaptureSound "Q" = capture_tier 3
  /\ exists sounds n',
      analyzeMoveForSounds Replay.zero_random (Replay.capture_event "x")
        DEFAULT_SOUND_SETTINGS 0%nat = Some (sounds, n').
Proof.
  split; [|split].
  - apply (getCaptureSound_tiers "x"). simpl.
    intros [H | [H | [H | [H | [H | []]]]]]; discriminate.
  - apply (getCaptureSound_tiers "Q"). reflexivity.
  - destruct (getCaptureSound_tiers "x")
      as [_ [_ [_ [_ [_ [_ [_ Hev]]]]]]].
    apply (Hev Replay.zero_random (Replay.capture_event "x")
             DEFAULT_SOUND_SETTINGS 0%nat); try reflexivity.
    + discriminate.
    + unfold Replay.zero_random. discriminate.
Defined.

(** C8 (as stated, refuted). With the crowd flag on but the master flag
    off, an event whose evaluation rose by 220 yields no crowd cue and makes
    no draw: neither branch is taken. *)
Lemma analyzeMoveForSounds_master_off_no_crowd_cue :
  crowdEnabled Replay.muted_settings = true
  /\ evaluation Replay.swing_event = Some 250
  /\ previousEvaluation Replay.swing_event = Some 30
  /\ 250 - 30 = 220
  /\ analyzeMoveForSounds Replay.zero_random Replay.swing_event
       Replay.muted_settings 0%nat
     = Some ([], 0%nat).
Proof. repeat split. Qed.

(** C8 (amended). For every event and settings with the master flag and the
    crowd flag on and both evaluations present, an evaluation change of +220
    takes the magnitude branch: the classifier calls the random selector
    once and its one crowd-reaction cue is the entry the selector picked,
    scaled by the master volume; the applause selection, which makes no
    draw, is not reached.  The classifier returns whenever the draw is a
    value Math.random() can return. *)
Theorem analyzeMoveForSounds_magnitude_before_applause
  (random : nat -> Q) (analysis : MoveAnalysis)
  (settings : SoundEffectSettings) (ev prev : Z) (n : nat) :
  enabled settings = true ->
  crowdEnabled settings = true ->
  evaluation analysis = Some ev ->
  previousEvaluation analysis = Some prev ->
  ev - prev = 220 ->
  (forall sounds n',
      analyzeMoveForSounds random analysis settings n = Some (sounds, n') ->
      n' = S n
      /\ exists picked,
          getRandomSound_at (random n) crowd_reaction = Some picked
          /\ of_category crowd_reaction sounds
             = [scale_volume (5 # 10) settings picked])
  /\ ((0 <= random n)%Q -> (random n < 1)%Q ->
      exists sounds,
        analyzeMoveForSounds random analysis settings n = Some (sounds, S n)).
Proof.
  intros Hon Hcrowd Hev Hprev Hdelta.
  assert (Hmag : crowd_sounds random analysis settings [] n
                 = Some ([getRandomSound_at (random n) crowd_reaction], S n))
    by (apply (crowd_sounds_magnitude random analysis settings n Hev Hprev Hcrowd);
        lia).
  split.
  - intros sounds n' H.
    apply analyzeMoveForSounds_blocks in H; [|exact Hon].
    destruct H as [special [capture [crowd [_ [_ [Ecr [Fs [Fc [Fr ->]]]]]]]]].
    rewrite Hmag in Ecr. inversion Ecr as [[Hraw Hn]].
    split; [reflexivity|].
    destruct crowd as [|picked [|extra crowd]]; try discriminate.
    simpl in Hraw. inversion Hraw as [Hpick].
    exists picked. split; [exact Hpick|].
    rewrite of_category_scaled, !of_category_app.
    rewrite (of_category_all Fr).
    rewrite (@of_category_none crowd_reaction special),
            (@of_category_none crowd_reaction capture).
    + reflexivity.
    + eapply Forall_impl; [|exact Fc]. intros c ->. discriminate.
    + eapply Forall_impl; [|exact Fs]. intros c ->. discriminate.
  - intros Hlo Hhi.
    destruct (@analyzeMoveForSounds_defined random analysis settings n Hlo Hhi)
      as [sounds [n' [H _]]].
    exists sounds. rewrite H. f_equal. f_equal.
    apply analyzeMoveForSounds_blocks in H; [|exact Hon].
    destruct H as [special [capture [crowd [_ [_ [Ecr _]]]]]].
    rewrite Hmag in Ecr. now inversion Ecr.
Qed.

Lemma analyzeMoveForSounds_magnitude_before_applause_witness :
  exists sounds,
    analyzeMoveForSounds Replay.zero_random Replay.swing_event
      DEFAULT_SOUND_SETTINGS 0%nat = Some (sounds, 1%nat).
Proof.
  apply (proj2 (analyzeMoveForSounds_magnitude_before_applause
                  Replay.zero_random Replay.swing_event
                  DEFAULT_SOUND_SETTINGS 0
                  eq_refl eq_refl eq_refl eq_refl eq_refl)).
  - unfold Replay.zero_random. discriminate.
  - reflexivity.
Defined.

(** The applause selection, for contrast: a rise above 150 that does not
    exceed 200 makes no draw and selects the first applause entry. *)
Lemma analyzeMoveForSounds_applause (random : nat -> Q)
  (analysis : MoveAnalysis) (settings : SoundEffectSettings)
  (ev prev : Z) (n : nat) :
  enabled settings = true ->
  crowdEnabled settings = true ->
  evaluation analysis = Some ev ->
  previousEvaluation analysis = Some prev ->
  150 < ev - prev <= 200 ->
  exists sounds,
    analyzeMoveForSounds random analysis settings n = Some (sounds, n)
    /\ map id (of_category crowd_reaction sounds) = ["applause-01"].
Proof.
  intros Hon Hcrowd Hev Hprev Hdelta.
  assert (Happ : crowd_sounds random analysis settings [] n
                 = Some ([nth_error (SOUND_EFFECTS crowd_reaction) 2], n))
    by (apply (crowd_sounds_applause random analysis settings n Hev Hprev Hcrowd);
        lia).
  rewrite (analyzeMoveForSounds_unfold random analysis settings n Hon), Happ.
  destruct (special_move_sounds_cues analysis settings) as [special [-> [Fs _]]].
  destruct (capture_sounds_cues analysis settings) as [capture [-> [Fc _]]].
  simpl nth_error.
  match goal with
  | |- context [Some ?e :: nil] => change [Some e] with (map Some [e])
  end.
  rewrite <- !map_app.
  match goal with
  | |- context [apply_master_volume settings (map Some ?l)] =>
      assert (E : apply_master_volume settings (map Some l)
                  = Some (map (scale_volume (5 # 10) settings) l))
        by (apply apply_master_volume_returns; now eexists);
      rewrite E
  end.
  eexists. split; [reflexivity|].
  rewrite of_category_scaled, !of_category_app.
  rewrite (@of_category_none crowd_reaction special),
          (@of_category_none crowd_reaction capture).
  - reflexivity.
  - eapply Forall_impl; [|exact Fc]. intros c ->. discriminate.
  - eapply Forall_impl; [|exact Fs]. intros c ->. discriminate.
Qed.

(* ===================================================================== *)
(** * Worked examples *)
(* ===================================================================== *)

(** Tier selection: a queen, and an unrecognised code. *)
Example getCaptureSound_queen :
  option_map id (getCaptureSound "q") = Some "capture-queen".
Proof. reflexivity. Qed.

Example getCaptureSound_unknown :
  option_map id (getCaptureSound "x") = Some "capture-pawn".
Proof. reflexivity. Qed.

(** Suppression: priorities 5 then 3, 5 frames apart, default window. *)
Example filterOverlappingSounds_five_then_three :
  filterOverlappingSounds
    [Replay.cue "checkmate" special_moves 90 5;
     Replay.cue "capture-queen" piece_capture 95 3] None
  = [Replay.cue "checkmate" special_moves 90 5].
Proof. reflexivity. Qed.

(** The same two cues in the other order: both are returned. *)
Example filterOverlappingSounds_three_then_five :
  filterOverlappingSounds
    [Replay.cue "capture-queen" piece_capture 90 3;
     Replay.cue "checkmate" special_moves 95 5] None
  = [Replay.cue "capture-queen" piece_capture 90 3;
     Replay.cue "checkmate" special_moves 95 5].
Proof. reflexivity. Qed.

(** A cue suppressed early lets a later cue of its priority through. *)
Example filterOverlappingSounds_later_equal_kept :
  filterOverlappingSounds
    [Replay.cue "checkmate" special_moves 0 5;
     Replay.cue "capture-pawn" piece_capture 10 3;
     Replay.cue "capture-rook" piece_capture 20 3] (Some 15)
  = [Replay.cue "checkmate" special_moves 0 5;
     Replay.cue "capture-rook" piece_capture 20 3].
Proof. reflexivity. Qed.

(** The evaluation rising from 30 to 250: the selector's pick for the draw
    0 is the first crowd entry, not the applause entry. *)
Example analyzeMoveForSounds_swing :
  option_map (fun r => (map id (fst r), snd r))
    (analyzeMoveForSounds Replay.zero_random Replay.swing_event
       DEFAULT_SOUND_SETTINGS 0%nat)
  = Some (["gasp-01"], 1%nat).
Proof. reflexivity. Qed.

(** The sort puts the higher priority first on equal frames. *)
Example js_sort_equal_frames :
  js_sort compare_triggers
    [Replay.cue "capture-pawn" piece_capture 120 3;
     Replay.cue "check" special_moves 120 5;
     Replay.cue "gasp-01" crowd_reaction 90 4]
  = [Replay.cue "gasp-01" crowd_reaction 90 4;
     Replay.cue "check" special_moves 120 5;
     Replay.cue "capture-pawn" piece_capture 120 3].
Proof. reflexivity. Qed.

(* ===================================================================== *)
(** * More on the overlap filter *)
(* ===================================================================== *)

Import Shape.

Lemma Subsequence_refl {A : Type} (l : list A) : Subsequence l l.
Proof. induction l; constructor; assumption. Qed.

Lemma Subsequence_In {A : Type} (sub l : list A) (x : A) :
  Subsequence sub l -> In x sub -> In x l.
Proof.
  induction 1 as [|y sub l _ IH|y sub l _ IH]; simpl; auto.
  intros [-> | H]; auto.
Qed.

Lemma Subsequence_length {A : Type} (sub l : list A) :
  Subsequence sub l -> (length sub <= length l)%nat.
Proof. induction 1; simpl; lia. Qed.

Lemma filter_loop_subsequence (W : Z) (xs kept : list SoundTrigger) :
  exists out,
    fold_left (filter_step W) xs kept = kept ++ out /\ Subsequence out xs.
Proof.
  revert kept. induction xs as [|c rest IH]; intro kept; simpl.
  - exists []. split; [now rewrite app_nil_r | constructor].
  - unfold filter_step at 2.
    destruct (existsb (conflicts_with W c) kept); simpl.
    + destruct (IH kept) as [out [E S]]. exists out.
      split; [exact E | now constructor].
    + destruct (IH (push kept c)) as [out [E S]]. exists (c :: out).
      split; [|now constructor].
      rewrite E. unfold push. now rewrite <- app_assoc.
Qed.

Lemma filterOverlappingSounds_subsequence_aux
  (xs : list SoundTrigger) (maxFrameDistance : option Z) :
  Subsequence (filterOverlappingSounds xs maxFrameDistance) xs.
Proof.
  unfold filterOverlappingSounds.
  destruct (filter_loop_subsequence (with_default 15 maxFrameDistance) xs [])
    as [out [-> S]]. exact S.
Qed.

(** X1. The filter only drops cues: its result is a subsequence of its
    input (each kept cue is an input cue, in the input order), so it is
    never longer than the input. *)
Theorem filterOverlappingSounds_subsequence
  (xs : list SoundTrigger) (maxFrameDistance : option Z) :
  Subsequence (filterOverlappingSounds xs maxFrameDistance) xs
  /\ (length (filterOverlappingSounds xs maxFrameDistance) <= length xs)%nat.
Proof.
  assert (S : Subsequence (filterOverlappingSounds xs maxFrameDistance) xs).
  { unfold filterOverlappingSounds.
    destruct (filter_loop_subsequence (with_default 15 maxFrameDistance) xs [])
      as [out [-> S]]. exact S. }
  split; [exact S | now apply Subsequence_length].
Qed.

Lemma dominated_grows (W : Z) (kept more : list SoundTrigger) (c : SoundTrigger) :
  dominated W kept c -> (forall k, In k kept -> In k more) -> dominated W more c.
Proof. intros [k [Hin Hd]] Hsub. exists k. split; auto. Qed.

Lemma filter_loop_accounts (W : Z) (xs kept : list SoundTrigger) (c : SoundTrigger) :
  In c xs ->
  In c (fold_left (filter_step W) xs kept)
  \/ dominated W (fold_left (filter_step W) xs kept) c.
Proof.
  revert kept. induction xs as [|x rest IH]; intros kept Hin; [destruct Hin|].
  destruct Hin as [<- | Hin]; simpl.
  - destruct (existsb (conflicts_with W x) kept) eqn:E.
    + right. apply hasConflict_dominated in E.
      rewrite (@filter_step_discard W kept x E).
      apply (@dominated_grows W kept _ x E). intros k Hk. now apply filter_loop_keeps.
    + left. apply filter_loop_keeps. unfold filter_step. rewrite E. simpl.
      unfold push. apply in_or_app. right. now left.
  - now apply IH.
Qed.

(** X2. What the filter keeps and what it drops: no kept cue is dominated
    (within the window, by a priority at least as high) by a cue kept before
    it, and every input cue that is not kept is dominated by a kept cue. *)
Theorem filterOverlappingSounds_kept_and_dropped
  (xs : list SoundTrigger) (maxFrameDistance : option Z) :
  (forall before c after,
      filterOverlappingSounds xs maxFrameDistance = before ++ c :: after ->
      ~ dominated (with_default 15 maxFrameDistance) before c)
  /\ (forall c,
         In c xs ->
         In c (filterOverlappingSounds xs maxFrameDistance)
         \/ dominated (with_default 15 maxFrameDistance)
              (filterOverlappingSounds xs maxFrameDistance) c).
Proof.
  unfold filterOverlappingSounds.
  set (W := with_default 15 maxFrameDistance). split.
  - intros before c after E.
    apply hasConflict_not_dominated.
    exact (filter_loop_undominated xs (undominated_nil W) before c after E).
  - intros c Hin. now apply filter_loop_accounts.
Qed.

Lemma spread_undominated (W : Z) (xs : list SoundTrigger) :
  spread W xs -> undominated W xs.
Proof.
  intros Hs before c after E.
  destruct (existsb (conflicts_with W c) before) eqn:Ex; [|reflexivity].
  apply existsb_exists in Ex. destruct Ex as [k [Hin Hk]].
  apply in_split in Hin. destruct Hin as [b1 [b2 ->]].
  assert (Hw : W <= Z.abs (startFrame k - startFrame c)).
  { apply (Hs b1 k b2 c after). rewrite E, <- app_assoc. reflexivity. }
  unfold conflicts_with in Hk. apply andb_true_iff in Hk.
  destruct Hk as [Hk _]. apply Z.ltb_lt in Hk. lia.
Qed.

(** X3. The filter leaves alone what does not overlap: when any two cues of
    the input are at least the window apart, and in particular when the
    window is zero or negative, the input is returned unchanged. *)
Theorem filterOverlappingSounds_spread_unchanged
  (xs : list SoundTrigger) (W : Z) :
  (spread W xs -> filterOverlappingSounds xs (Some W) = xs)
  /\ (W <= 0 -> filterOverlappingSounds xs (Some W) = xs).
Proof.
  assert (H : spread W xs -> filterOverlappingSounds xs (Some W) = xs).
  { intro Hs. unfold filterOverlappingSounds. simpl.
    apply (filter_loop_fixes_undominated (W := W) xs []). simpl.
    now apply spread_undominated. }
  split; [exact H|].
  intro Hw. apply H. intros before a between b after _. lia.
Qed.

Lemma filterOverlappingSounds_spread_unchanged_witness :
  filterOverlappingSounds
    [Replay.cue "capture-pawn" piece_capture 90 3;
     Replay.cue "check" special_moves 120 5;
     Replay.cue "capture-rook" piece_capture 150 3] (Some 15)
  = [Replay.cue "capture-pawn" piece_capture 90 3;
     Replay.cue "check" special_moves 120 5;
     Replay.cue "capture-rook" piece_capture 150 3]
  /\ filterOverlappingSounds
       [Replay.cue "check" special_moves 90 5;
        Replay.cue "capture-pawn" piece_capture 90 3] (Some 0)
     = [Replay.cue "check" special_moves 90 5;
        Replay.cue "capture-pawn" piece_capture 90 3].
Proof.
  split.
  - apply (proj1 (filterOverlappingSounds_spread_unchanged _ 15)).
    intros before a between b after E.
    destruct before as [|x0 [|x1 [|x2 [|x3 before]]]];
      destruct between as [|y0 [|y1 [|y2 between]]];
      simpl in E; inversion E; subst; simpl; try lia;
      match goal with
      | H : _ = _ ++ _ :: _ |- _ =>
          apply (f_equal (@length _)) in H; rewrite ?length_app in H;
          simpl in H; lia
      | H : [] = _ ++ _ :: _ |- _ => destruct between; discriminate
      | _ => idtac
      end.
  - apply (proj2 (filterOverlappingSounds_spread_unchanged _ 0)). lia.
Defined.

Lemma filterOverlappingSounds_kept_and_dropped_witness :
  In (Replay.cue "capture-pawn" piece_capture 95 3)
     (filterOverlappingSounds
        [Replay.cue "check" special_moves 90 5;
         Replay.cue "capture-pawn" piece_capture 95 3] None)
  \/ dominated (with_default 15 None)
       (filterOverlappingSounds
          [Replay.cue "check" special_moves 90 5;
           Replay.cue "capture-pawn" piece_capture 95 3] None)
       (Replay.cue "capture-pawn" piece_capture 95 3).
Proof.
  apply (proj2 (filterOverlappingSounds_kept_and_dropped
                  [Replay.cue "check" special_moves 90 5;
                   Replay.cue "capture-pawn" piece_capture 95 3] None)).
  right. now left.
Defined.

(** X4. A cue whose priority is strictly higher than that of every cue
    before it in the input is always kept, whatever the window; so is the
    first cue of the input. *)
Theorem filterOverlappingSounds_keeps_new_maximum
  (before after : list SoundTrigger) (c : SoundTrigger)
  (maxFrameDistance : option Z) :
  (forall k, In k before -> priority k < priority c) ->
  In c (filterOverlappingSounds (before ++ c :: after) maxFrameDistance).
Proof.
  intro Hmax. unfold filterOverlappingSounds.
  set (W := with_default 15 maxFrameDistance).
  rewrite fold_left_app. simpl. apply filter_loop_keeps.
  destruct (filter_loop_subsequence W before []) as [out [E S]].
  simpl in E. rewrite E.
  assert (Hnot : ~ dominated W out c).
  { intros [k [Hin [_ Hp]]].
    pose proof (Hmax k (@Subsequence_In _ _ _ k S Hin)). lia. }
  rewrite (@filter_step_keep W out c Hnot).
  apply in_or_app. right. now left.
Qed.

Lemma filterOverlappingSounds_keeps_new_maximum_witness :
  In (Replay.cue "check" special_moves 95 5)
     (filterOverlappingSounds
        ([Replay.cue "capture-pawn" piece_capture 90 3;
          Replay.cue "gasp-01" crowd_reaction 92 4]
         ++ Replay.cue "check" special_moves 95 5
            :: [Replay.cue "capture-rook" piece_capture 97 3]) None).
Proof.
  apply filterOverlappingSounds_keeps_new_maximum.
  intros k [<- | [<- | []]]; simpl; lia.
Defined.

Lemma in_order_trans (a b c : SoundTrigger) :
  in_order a b -> in_order b c -> in_order a c.
Proof. unfold in_order. intros [H1 H2] [H3 H4]. split; [lia|]. intro E. lia. Qed.

Lemma ordered_tail (a : SoundTrigger) (l : list SoundTrigger) :
  ordered (a :: l) -> ordered l.
Proof. destruct l as [|b l]; [intros _; exact I | now intros [_ H]]. Qed.

Lemma ordered_head_all (a : SoundTrigger) (l : list SoundTrigger) :
  ordered (a :: l) -> forall b, In b l -> in_order a b.
Proof.
  revert a. induction l as [|x l IH]; intros a H b Hin; [destruct Hin|].
  destruct H as [Hax Hl]. destruct Hin as [<- | Hin]; [exact Hax|].
  apply (@in_order_trans a x b Hax). now apply IH.
Qed.

Lemma Subsequence_ordered (sub l : list SoundTrigger) :
  Subsequence sub l -> ordered l -> ordered sub.
Proof.
  induction 1 as [|x sub l S IH|x sub l S IH]; intro Hl.
  - exact I.
  - apply IH. now apply ordered_tail in Hl.
  - destruct sub as [|y sub]; [exact I|].
    split.
    + apply (@ordered_head_all x l Hl). apply (@Subsequence_In _ _ _ y S). now left.
    + apply IH. now apply ordered_tail in Hl.
Qed.

(** X5. The filter keeps the ordering invariant: filtering a list whose
    adjacent cues are in order (start frames not decreasing, priority not
    increasing on equal frames) gives such a list; in particular the
    filtered output of the schedule builder is still in order. *)
Theorem filterOverlappingSounds_preserves_order
  (xs : list SoundTrigger) (maxFrameDistance : option Z) :
  (ordered xs -> ordered (filterOverlappingSounds xs maxFrameDistance))
  /\ (forall (random : nat -> Q) (chessjs : ChessJs) (moves : list string)
             (evaluations : list (option Z)) (settings : SoundEffectSettings)
             (fps : option Z) (n n' : nat),
         generateSoundSchedule random moves evaluations settings fps n
         = Some (xs, n') ->
         ordered (filterOverlappingSounds xs maxFrameDistance)).
Proof.
  assert (H : ordered xs -> ordered (filterOverlappingSounds xs maxFrameDistance)).
  { apply Subsequence_ordered.
    apply filterOverlappingSounds_subsequence_aux. }
  split; [exact H|].
  intros random chessjs moves evaluations settings fps n n' Hgen.
  apply H. apply generateSoundSchedule_returns in Hgen.
  destruct Hgen as [acc [_ ->]]. apply js_sort_ordered.
Qed.

Lemma filterOverlappingSounds_preserves_order_witness :
  ordered
    (filterOverlappingSounds
       [Replay.mate_trigger; Replay.capture_trigger] None).
Proof.
  apply (proj2 (filterOverlappingSounds_preserves_order
                  [Replay.mate_trigger; Replay.capture_trigger] None)
           Replay.zero_random (Replay.replay Replay.scholars_mate)
           Replay.scholars_mate_moves [] DEFAULT_SOUND_SETTINGS None
           0%nat 0%nat).
  exact scholars_mate_schedule.
Defined.

(* ===================================================================== *)
(** * More on the classifier and the schedule builder *)
(* ===================================================================== *)

Lemma push_if_found_length {A : Type} (x : option A) :
  (length (push_if_found [] x) <= 1)%nat.
Proof. destruct x; simpl; lia. Qed.

Lemma special_move_sounds_length (analysis : MoveAnalysis)
  (settings : SoundEffectSettings) :
  (length (special_move_sounds analysis settings []) <= 1)%nat.
Proof.
  unfold special_move_sounds.
  destruct (specialMovesEnabled settings); [|simpl; lia].
  destruct (isCheckmate analysis); [apply push_if_found_length|].
  destruct (isCheck analysis); [apply push_if_found_length|].
  destruct (isCastle analysis); [apply push_if_found_length|].
  destruct (isPromotion analysis); [apply push_if_found_length|].
  simpl; lia.
Qed.

Lemma capture_sounds_length (analysis : MoveAnalysis)
  (settings : SoundEffectSettings) :
  (length (capture_sounds analysis settings []) <= 1)%nat.
Proof.
  unfold capture_sounds.
  destruct (capturedPiece analysis) as [piece|]; [|simpl; lia].
  destruct (capturesEnabled settings && JsString.truthy piece)%bool;
    simpl; lia.
Qed.

(** The classifier makes at most one draw. *)
Lemma crowd_sounds_draws (random : nat -> Q) (analysis : MoveAnalysis)
  (settings : SoundEffectSettings) (raw : list (option SoundEffect))
  (n n' : nat) :
  crowd_sounds random analysis settings [] n = Some (raw, n') ->
  n' = n \/ n' = S n.
Proof.
  unfold crowd_sounds.
  destruct (evaluation analysis) as [ev|]; [|intro H; inversion H; auto].
  destruct (previousEvaluation analysis) as [prev|];
    [|intro H; inversion H; auto].
  destruct (crowdEnabled settings); [|intro H; inversion H; auto].
  destruct (Z.abs (ev - prev) >? 200); [intro H; inversion H; auto|].
  destruct (ev - prev >? 150); intro H; inversion H; auto.
Qed.

Lemma analyzeMoveForSounds_size (random : nat -> Q) (analysis : MoveAnalysis)
  (settings : SoundEffectSettings) (sounds : list SoundEffect) (n n' : nat) :
  analyzeMoveForSounds random analysis settings n = Some (sounds, n') ->
  (length sounds <= 3)%nat /\ (n' = n \/ n' = S n).
Proof.
  intro H. destruct (enabled settings) eqn:Hon.
  - apply analyzeMoveForSounds_blocks in H; [|exact Hon].
    destruct H as [special [capture [crowd [Es [Ec [Er [_ [_ [_ ->]]]]]]]]].
    pose proof (special_move_sounds_length analysis settings) as Ls.
    pose proof (capture_sounds_length analysis settings) as Lc.
    destruct (@crowd_sounds_entries random analysis settings _ n n' Er) as [Lr _].
    rewrite Es, length_map in Ls. rewrite Ec, length_map in Lc.
    rewrite length_map in Lr.
    split; [rewrite length_map, !length_app; lia|].
    exact (@crowd_sounds_draws random analysis settings _ n n' Er).
  - rewrite analyzeMoveForSounds_disabled in H by exact Hon.
    inversion H. split; [simpl; lia | now left].
Qed.

Section BuilderTrace.

Variable random : nat -> Q.
Context {chessjs : ChessJs}.
Variable evaluations : list (option Z).
Variable settings : SoundEffectSettings.

(** One iteration, with everything it passes on. *)
Lemma schedule_step_trace (fps : Z) (st st' : LoopState) (mv : string)
  (index n n' : nat) :
  schedule_step random evaluations settings fps st mv index n = Some (st', n') ->
  exists analysis sounds,
    move analysis = mv
    /\ moveNumber analysis = Z.of_nat index + 1
    /\ evaluation analysis = eval_at evaluations index
    /\ previousEvaluation analysis = previousEval_acc st
    /\ analyzeMoveForSounds random analysis settings n = Some (sounds, n')
    /\ triggers_acc st'
       = triggers_acc st ++ stamped_cues (90 + Z.of_nat index * 30) 0 sounds
    /\ previousEval_acc st' = eval_at evaluations index.
Proof.
  unfold schedule_step. intro H.
  apply bind_returns in H. destruct H as [[chess' analysis] [n1 [Hparse H]]].
  apply lift_returns in Hparse. destruct Hparse as [Hparse ->].
  apply bind_returns in H. destruct H as [sounds [n2 [Hsounds H]]].
  apply ret_returns in H. destruct H as [<- ->].
  exists analysis, sounds.
  unfold parseMoveForAnalysis in Hparse.
  destruct (chess_move (chess_board st) mv) as [[c m]|]; [|discriminate].
  inversion Hparse; subst; simpl.
  repeat (split; [first [reflexivity | exact Hsounds]|]).
  split; [now rewrite push_triggers_stamped | reflexivity].
Qed.

(** The loop, event by event: move, sequence number, the evaluation pair
    handed to the classifier, and the cues stamped. *)
Lemma schedule_loop_trace (fps : Z) (moves : list string) :
  forall (index : nat) (st st' : LoopState) (n n' : nat),
    schedule_loop random evaluations settings fps moves index st n
    = Some (st', n') ->
    exists events : list (MoveAnalysis * list SoundEffect),
      map (fun e => move (fst e)) events = moves
      /\ (forall i analysis sounds,
             nth_error events i = Some (analysis, sounds) ->
             moveNumber analysis = Z.of_nat (index + i) + 1
             /\ evaluation analysis = eval_at evaluations (index + i)
             /\ previousEvaluation analysis
                = match i with
                  | O => previousEval_acc st
                  | S k => eval_at evaluations (index + k)
                  end
             /\ (length sounds <= 3)%nat
             /\ exists n1 n2,
                 analyzeMoveForSounds random analysis settings n1
                 = Some (sounds, n2))
      /\ triggers_acc st'
         = triggers_acc st ++ event_cues index (map snd events)
      /\ (n <= n' <= n + length moves)%nat.
Proof.
  induction moves as [|mv rest IH]; intros index st st' n n' H; simpl in H.
  - apply ret_returns in H. destruct H as [<- <-].
    exists []. split; [reflexivity|]. split.
    + intros [|i] analysis sounds Hnth; discriminate.
    + simpl. split; [now rewrite app_nil_r | lia].
  - apply bind_returns in H. destruct H as [st1 [n1 [Hstep H]]].
    apply schedule_step_trace in Hstep.
    destruct Hstep
      as [analysis [sounds [Hmv [Hnum [Hev [Hprev [Hsounds [Hacc Hnext]]]]]]]].
    apply IH in H. destruct H as [events [Hmoves [Hevents [Hacc' Hdraws]]]].
    destruct (@analyzeMoveForSounds_size random analysis settings sounds n n1
                Hsounds) as [Hlen Hn1].
    exists ((analysis, sounds) :: events).
    split; [simpl; now rewrite Hmv, Hmoves|]. split; [|split].
    + intros [|i] analysis' sounds' Hnth; simpl in Hnth.
      * inversion Hnth; subst analysis' sounds'. rewrite Nat.add_0_r.
        repeat (split; [assumption|]). now exists n, n1.
      * destruct (Hevents i analysis' sounds' Hnth)
          as [Hnum' [Hev' [Hprev' [Hlen' Hrun]]]].
        replace (index + S i)%nat with (S index + i)%nat by lia.
        repeat (split; [assumption|]). split; [|now split].
        rewrite Hprev'. destruct i as [|k]; [now rewrite Nat.add_0_r|].
        f_equal. lia.
    + simpl. rewrite Hacc', Hacc. now rewrite <- app_assoc.
    + simpl. lia.
Qed.

End BuilderTrace.

Lemma stamped_cues_length (frameStart : Z) (sounds : list SoundEffect) (j : nat) :
  length (stamped_cues frameStart j sounds) = length sounds.
Proof.
  rewrite <- (stamped_cues_effects frameStart sounds j) at 2.
  now rewrite length_map.
Qed.

Lemma stamped_cues_frames (frameStart : Z) (sounds : list SoundEffect)
  (j : nat) (t : SoundTrigger) :
  In t (stamped_cues frameStart j sounds) ->
  frameStart + Z.of_nat j * 5 <= startFrame t
  /\ startFrame t < frameStart + Z.of_nat (j + length sounds) * 5.
Proof.
  intro Hin. apply In_nth_error in Hin. destruct Hin as [k Hk].
  pose proof (proj1 (stamped_cues_nth frameStart sounds j k t) Hk)
    as [sound [Hs ->]].
  assert (k < length sounds)%nat by (apply nth_error_Some; congruence).
  simpl. lia.
Qed.

Lemma stamped_cues_increase (frameStart : Z) (sounds : list SoundEffect) :
  forall j, frames_increase (stamped_cues frameStart j sounds).
Proof.
  induction sounds as [|s rest IH]; intro j; [exact I|].
  simpl. destruct rest as [|s' rest']; [exact I|].
  split; [simpl; lia | exact (IH (S j))].
Qed.

Lemma frames_increase_app (l1 l2 : list SoundTrigger) :
  frames_increase l1 -> frames_increase l2 ->
  (forall a b, In a l1 -> In b l2 -> startFrame a < startFrame b) ->
  frames_increase (l1 ++ l2).
Proof.
  induction l1 as [|a l1 IH]; intros H1 H2 Hlt; [exact H2|].
  destruct l1 as [|a' l1'].
  - simpl. destruct l2 as [|b l2']; [exact I|].
    split; [apply Hlt; now left | exact H2].
  - destruct H1 as [Haa H1]. split; [exact Haa|].
    apply IH; auto. intros x y Hx Hy. apply Hlt; [now right | exact Hy].
Qed.

Lemma event_cues_lower (per_event : list (list SoundEffect)) (index : nat)
  (t : SoundTrigger) :
  In t (event_cues index per_event) ->
  90 + Z.of_nat index * 30 <= startFrame t.
Proof.
  intro Hin. apply event_cues_member in Hin.
  destruct Hin as [i [sounds [j [sound [_ [_ ->]]]]]].
  cbn [startFrame]. lia.
Qed.

Lemma event_cues_increase (per_event : list (list SoundEffect)) :
  Forall (fun sounds => (length sounds <= 3)%nat) per_event ->
  forall index, frames_increase (event_cues index per_event).
Proof.
  induction 1 as [|sounds rest Hlen _ IH]; intro index; [exact I|].
  cbn [event_cues]. apply frames_increase_app.
  - apply stamped_cues_increase.
  - apply IH.
  - intros a b Ha Hb. apply stamped_cues_frames in Ha.
    apply event_cues_lower in Hb. lia.
Qed.

Lemma event_cues_length (per_event : list (list SoundEffect)) :
  Forall (fun sounds => (length sounds <= 3)%nat) per_event ->
  forall index,
    (length (event_cues index per_event) <= 3 * length per_event)%nat.
Proof.
  induction 1 as [|sounds rest Hlen _ IH]; intro index; [simpl; lia|].
  cbn [event_cues]. rewrite length_app, stamped_cues_length.
  specialize (IH (S index)). cbn [length]. lia.
Qed.

(** A list with strictly increasing start frames is already sorted: the
    sort returns it as it is. *)
Lemma js_sort_fixes_increasing (l : list SoundTrigger) :
  frames_increase l -> js_sort compare_triggers l = l.
Proof.
  induction l as [|a rest IH]; intro H; [reflexivity|].
  simpl js_sort. destruct rest as [|b rest']; [reflexivity|].
  destruct H as [Hab Hrest]. rewrite (IH Hrest). simpl.
  unfold compare_triggers at 1.
  destruct (Z.eqb_spec (startFrame a) (startFrame b)) as [E|_]; [lia|].
  simpl. destruct (Z.leb_spec (startFrame a - startFrame b) 0); [reflexivity|lia].
Qed.

Section BuilderShape.

Variable random : nat -> Q.
Context {chessjs : ChessJs}.
Variable moves : list string.
Variable evaluations : list (option Z).
Variable settings : SoundEffectSettings.
Variable fps : option Z.

Lemma accumulated_triggers_trace (acc : list SoundTrigger) (n n' : nat) :
  accumulated_triggers random moves evaluations settings fps n
  = Some (acc, n') ->
  exists events : list (MoveAnalysis * list SoundEffect),
    map (fun e => move (fst e)) events = moves
    /\ (forall i analysis sounds,
           nth_error events i = Some (analysis, sounds) ->
           moveNumber analysis = Z.of_nat i + 1
           /\ evaluation analysis = eval_at evaluations i
           /\ previousEvaluation analysis = eval_before evaluations i
           /\ (length sounds <= 3)%nat
           /\ exists n1 n2,
               analyzeMoveForSounds random analysis settings n1
               = Some (sounds, n2))
    /\ acc = event_cues 0 (map snd events)
    /\ (n <= n' <= n + length moves)%nat.
Proof.
  unfold accumulated_triggers. intro H.
  apply bind_returns in H. destruct H as [st [n1 [Hloop H]]].
  apply ret_returns in H. destruct H as [<- ->].
  apply schedule_loop_trace in Hloop.
  destruct Hloop as [events [Hmoves [Hev [Hacc Hdraws]]]].
  exists events. split; [exact Hmoves|]. split; [|split; assumption].
  intros i analysis sounds Hnth.
  destruct (Hev i analysis sounds Hnth) as [H1 [H2 [H3 [H4 H5]]]].
  split; [exact H1|]. split; [exact H2|].
  split; [rewrite H3; destruct i; reflexivity|].
  split; [exact H4 | exact H5].
Qed.

Lemma trace_sizes (events : list (MoveAnalysis * list SoundEffect)) :
  (forall i analysis sounds,
      nth_error events i = Some (analysis, sounds) ->
      (length sounds <= 3)%nat) ->
  Forall (fun sounds => (length sounds <= 3)%nat) (map snd events).
Proof.
  intro H. apply Forall_forall. intros sounds Hin.
  destruct (proj1 (in_map_iff snd events sounds) Hin)
    as [[analysis sounds'] [E Hin']].
  simpl in E. subst sounds'.
  apply In_nth_error in Hin'. destruct Hin' as [i Hi].
  exact (H i analysis sounds Hi).
Qed.

(** X6. The final sort never reorders anything: the accumulated cues
    already have strictly increasing start frames (at most three cues per
    move, 5 frames apart, the moves 30 frames apart), so the returned
    schedule is the accumulated list itself, in production order, and no
    two of its cues share a start frame. *)
Theorem generateSoundSchedule_is_production_order
  (sched : list SoundTrigger) (n n' : nat) :
  generateSoundSchedule random moves evaluations settings fps n
  = Some (sched, n') ->
  accumulated_triggers random moves evaluations settings fps n
  = Some (sched, n')
  /\ frames_increase sched.
Proof.
  intro H. apply generateSoundSchedule_returns in H.
  destruct H as [acc [Hacc ->]].
  pose proof Hacc as Htrace. apply accumulated_triggers_trace in Htrace.
  destruct Htrace as [events [_ [Hev [E _]]]].
  assert (Hinc : frames_increase acc).
  { rewrite E. apply event_cues_increase. apply trace_sizes.
    intros i analysis sounds Hnth.
    now destruct (Hev i analysis sounds Hnth) as [_ [_ [_ [Hlen _]]]]. }
  rewrite (js_sort_fixes_increasing _ Hinc). now split.
Qed.

End BuilderShape.

Lemma generateSoundSchedule_is_production_order_witness :
  accumulated_triggers (chessjs := Replay.replay Replay.scholars_mate)
    Replay.zero_random Replay.scholars_mate_moves [] DEFAULT_SOUND_SETTINGS
    None 0%nat
  = Some ([Replay.mate_trigger; Replay.capture_trigger], 0%nat)
  /\ frames_increase [Replay.mate_trigger; Replay.capture_trigger].
Proof.
  exact (generateSoundSchedule_is_production_order _ _ _ _ _ _
           scholars_mate_schedule).
Defined.

(** ** The cues of one category in a classifier result *)

Section ClassifierParts.

Variable random : nat -> Q.
Variable analysis : MoveAnalysis.
Variable settings : SoundEffectSettings.

Lemma map_Some_inj {A : Type} (l1 l2 : list A) :
  map Some l1 = map Some l2 -> l1 = l2.
Proof.
  revert l2. induction l1 as [|a l1 IH]; intros [|b l2] H;
    try discriminate; [reflexivity|].
  inversion H. f_equal. now apply IH.
Qed.

Lemma category_differs (c c' : SoundEffectCategory) (cues : list SoundEffect) :
  c <> c' ->
  Forall (fun cue => category cue = c) cues ->
  Forall (fun cue => category cue <> c') cues.
Proof.
  intros Hne H. eapply Forall_impl; [|exact H]. intros cue ->. exact Hne.
Qed.

(** With the master flag on, the cues of each category in the result are
    the scaled cues of the block of that category. *)
Lemma analyzeMoveForSounds_parts (sounds : list SoundEffect) (n n' : nat) :
  enabled settings = true ->
  analyzeMoveForSounds random analysis settings n = Some (sounds, n') ->
  exists special capture crowd,
    special_move_sounds analysis settings [] = map Some special
    /\ capture_sounds analysis settings [] = map Some capture
    /\ crowd_sounds random analysis settings [] n = Some (map Some crowd, n')
    /\ of_category special_moves sounds
       = map (scale_volume (5 # 10) settings) special
    /\ of_category piece_capture sounds
       = map (scale_volume (5 # 10) settings) capture
    /\ of_category crowd_reaction sounds
       = map (scale_volume (5 # 10) settings) crowd.
Proof.
  intros Hon H. apply analyzeMoveForSounds_blocks in H; [|exact Hon].
  destruct H as [special [capture [crowd [Es [Ec [Er [Fs [Fc [Fr ->]]]]]]]]].
  exists special, capture, crowd.
  repeat (split; [assumption|]).
  rewrite !of_category_scaled, !of_category_app.
  rewrite (of_category_all Fs), (of_category_all Fc), (of_category_all Fr).
  rewrite (@of_category_none special_moves capture),
          (@of_category_none special_moves crowd),
          (@of_category_none piece_capture special),
          (@of_category_none piece_capture crowd),
          (@of_category_none crowd_reaction special),
          (@of_category_none crowd_reaction capture);
    try (eapply category_differs; [|eassumption]; discriminate).
  rewrite !app_nil_r. simpl. repeat split; reflexivity.
Qed.

Lemma of_category_empty_none (c : SoundEffectCategory) (sounds : list SoundEffect) :
  of_category c sounds = [] -> Forall (fun cue => category cue <> c) sounds.
Proof.
  unfold of_category. induction sounds as [|s rest IH]; intro H; constructor.
  - intro E. simpl in H. rewrite E in H.
    destruct c; simpl in H; discriminate.
  - apply IH. simpl in H.
    destruct (category_eqb (category s) c); [discriminate | exact H].
Qed.

End ClassifierParts.

(** X8. The crowd block, regime by regime.  With the master flag on, an
    event yields a crowd-reaction cue only when the crowd flag is on and
    both evaluations are present; then a change of more than 200 in either
    direction makes one draw and yields the entry drawn, a rise of more than
    150 and at most 200 yields the first applause entry without a draw, and
    any other change (a fall of up to 200, a rise of up to 150) yields no
    crowd cue and makes no draw. *)
Theorem analyzeMoveForSounds_crowd_regimes
  (random : nat -> Q) (analysis : MoveAnalysis)
  (settings : SoundEffectSettings) (sounds : list SoundEffect) (n n' : nat) :
  enabled settings = true ->
  analyzeMoveForSounds random analysis settings n = Some (sounds, n') ->
  (crowdEnabled settings = false \/ evaluation analysis = None
   \/ previousEvaluation analysis = None ->
   of_category crowd_reaction sounds = [] /\ n' = n)
  /\ (forall ev prev,
         crowdEnabled settings = true ->
         evaluation analysis = Some ev ->
         previousEvaluation analysis = Some prev ->
         (200 < Z.abs (ev - prev) ->
          n' = S n
          /\ exists picked,
              getRandomSound_at (random n) crowd_reaction = Some picked
              /\ of_category crowd_reaction sounds
                 = [scale_volume (5 # 10) settings picked])
         /\ (150 < ev - prev <= 200 ->
             n' = n
             /\ map id (of_category crowd_reaction sounds) = ["applause-01"])
         /\ (-200 <= ev - prev <= 150 ->
             of_category crowd_reaction sounds = [] /\ n' = n)).
Proof.
  intros Hon H.
  destruct (analyzeMoveForSounds_parts _ _ _ _ Hon H)
    as [special [capture [crowd [_ [_ [Er [_ [_ Ecrowd]]]]]]]].
  rewrite Ecrowd. clear H. split.
  - intro Hquiet.
    assert (Hc : crowd_sounds random analysis settings [] n = Some ([], n)).
    { unfold crowd_sounds.
      destruct (evaluation analysis) as [ev|]; [|reflexivity].
      destruct (previousEvaluation analysis) as [prev|]; [|reflexivity].
      destruct Hquiet as [-> | [Hq | Hq]]; [reflexivity | discriminate Hq
                                                       | discriminate Hq]. }
    rewrite Hc in Er. inversion Er as [[Hraw Hn]].
    destruct crowd; [now split | discriminate].
  - intros ev prev Hcrowd Hev Hprev. split; [|split].
    + intro Hbig.
      rewrite (@crowd_sounds_magnitude random analysis settings ev prev n
                 Hev Hprev Hcrowd) in Er by lia.
      inversion Er as [[Hraw Hn]]. split; [reflexivity|].
      destruct crowd as [|picked [|extra crowd]]; try discriminate.
      inversion Hraw as [Hpick]. exists picked. split; [exact Hpick|].
      reflexivity.
    + intro Hrise.
      rewrite (@crowd_sounds_applause random analysis settings ev prev n
                 Hev Hprev Hcrowd) in Er by lia.
      inversion Er as [[Hraw Hn]]. split; [reflexivity|].
      destruct crowd as [|picked [|extra crowd]]; try discriminate.
      simpl in Hraw. inversion Hraw. reflexivity.
    + intro Hsmall.
      assert (Hc : crowd_sounds random analysis settings [] n = Some ([], n)).
      { unfold crowd_sounds. rewrite Hev, Hprev, Hcrowd.
        destruct (Z.gtb_spec (Z.abs (ev - prev)) 200); [lia|].
        destruct (Z.gtb_spec (ev - prev) 150); [lia | reflexivity]. }
      rewrite Hc in Er. inversion Er as [[Hraw Hn]].
      destruct crowd; [now split | discriminate].
Qed.

Lemma analyzeMoveForSounds_crowd_regimes_witness :
  exists sounds n',
    analyzeMoveForSounds Replay.zero_random Replay.swing_event
      DEFAULT_SOUND_SETTINGS 0%nat = Some (sounds, n')
    /\ n' = 1%nat
    /\ exists picked,
        getRandomSound_at (Replay.zero_random 0%nat) crowd_reaction
        = Some picked
        /\ of_category crowd_reaction sounds
           = [scale_volume (5 # 10) DEFAULT_SOUND_SETTINGS picked].
Proof.
  destruct (@analyzeMoveForSounds_defined Replay.zero_random Replay.swing_event
              DEFAULT_SOUND_SETTINGS 0%nat) as [sounds [n' [H _]]].
  - unfold Replay.zero_random. discriminate.
  - reflexivity.
  - exists sounds, n'. split; [exact H|].
    apply (proj2 (@analyzeMoveForSounds_crowd_regimes
                    Replay.zero_random Replay.swing_event
                    DEFAULT_SOUND_SETTINGS sounds 0%nat n' eq_refl H)
             250 30 eq_refl eq_refl eq_refl).
    simpl. lia.
Defined.

(** ** Flags and the schedule *)

(** With a flag off the classifier emits no cue of its category; with the
    master or the crowd flag off it makes no draw. *)
Lemma analyzeMoveForSounds_flags (random : nat -> Q) (analysis : MoveAnalysis)
  (settings : SoundEffectSettings) (sounds : list SoundEffect) (n n' : nat) :
  analyzeMoveForSounds random analysis settings n = Some (sounds, n') ->
  (enabled settings = false -> sounds = [] /\ n' = n)
  /\ (specialMovesEnabled settings = false ->
      of_category special_moves sounds = [])
  /\ (capturesEnabled settings = false ->
      of_category piece_capture sounds = [])
  /\ (crowdEnabled settings = false ->
      of_category crowd_reaction sounds = [] /\ n' = n).
Proof.
  intro H. destruct (enabled settings) eqn:Hon.
  - destruct (analyzeMoveForSounds_parts _ _ _ _ Hon H)
      as [special [capture [crowd [Es [Ec [Er [-> [-> Ecrowd]]]]]]]].
    split; [discriminate|]. split; [|split].
    + intro Hoff. unfold special_move_sounds in Es. rewrite Hoff in Es.
      destruct special; [reflexivity | discriminate].
    + intro Hoff. unfold capture_sounds in Ec. rewrite Hoff in Ec.
      destruct (capturedPiece analysis); simpl in Ec;
        (destruct capture; [reflexivity | discriminate]).
    + intro Hoff. rewrite Ecrowd.
      assert (Hc : crowd_sounds random analysis settings [] n = Some ([], n)).
      { unfold crowd_sounds. rewrite Hoff.
        destruct (evaluation analysis); [|reflexivity].
        destruct (previousEvaluation analysis); reflexivity. }
      rewrite Hc in Er. inversion Er as [[Hraw Hn]].
      destruct crowd; [now split | discriminate].
  - rewrite analyzeMoveForSounds_disabled in H by exact Hon.
    inversion H; subst. repeat split; reflexivity.
Qed.

Section BuilderFlags.

Variable random : nat -> Q.
Context {chessjs : ChessJs}.
Variable evaluations : list (option Z).
Variable settings : SoundEffectSettings.

(** When the classifier makes no draw, neither does the loop. *)
Lemma schedule_loop_no_draw (fps : Z) (moves : list string) :
  (forall analysis sounds k k',
      analyzeMoveForSounds random analysis settings k = Some (sounds, k') ->
      k' = k) ->
  forall (index : nat) (st st' : LoopState) (n n' : nat),
    schedule_loop random evaluations settings fps moves index st n
    = Some (st', n') ->
    n' = n.
Proof.
  intro Hquiet.
  induction moves as [|mv rest IH]; intros index st st' n n' H; simpl in H.
  - apply ret_returns in H. now destruct H.
  - apply bind_returns in H. destruct H as [st1 [n1 [Hstep H]]].
    apply schedule_step_trace in Hstep.
    destruct Hstep as [analysis [sounds [_ [_ [_ [_ [Hsounds _]]]]]]].
    apply Hquiet in Hsounds. subst n1. exact (IH _ _ _ _ _ H).
Qed.

Lemma generateSoundSchedule_no_draw (moves : list string) (fps : option Z)
  (sched : list SoundTrigger) (n n' : nat) :
  (forall analysis sounds k k',
      analyzeMoveForSounds random analysis settings k = Some (sounds, k') ->
      k' = k) ->
  generateSoundSchedule random moves evaluations settings fps n
  = Some (sched, n') ->
  n' = n.
Proof.
  intros Hquiet H. unfold generateSoundSchedule, accumulated_triggers in H.
  apply bind_returns in H. destruct H as [acc [n1 [H1 H]]].
  apply ret_returns in H. destruct H as [_ <-].
  apply bind_returns in H1. destruct H1 as [st [n2 [Hloop H1]]].
  apply ret_returns in H1. destruct H1 as [_ <-].
  eapply schedule_loop_no_draw; [exact Hquiet | exact Hloop].
Qed.

(** Every cue of a returned schedule is a cue the classifier returned for
    one of the events. *)
Lemma generateSoundSchedule_cues_classified (moves : list string)
  (fps : option Z) (sched : list SoundTrigger) (n n' : nat) :
  generateSoundSchedule random moves evaluations settings fps n
  = Some (sched, n') ->
  forall t, In t sched ->
    exists analysis sounds n1 n2,
      analyzeMoveForSounds random analysis settings n1 = Some (sounds, n2)
      /\ In (soundEffect t) sounds.
Proof.
  intros H t Hin. apply generateSoundSchedule_returns in H.
  destruct H as [acc [Hacc ->]].
  apply accumulated_triggers_returns in Hacc.
  destruct Hacc as [events [_ [Hev ->]]].
  apply (Permutation_in _ (Permutation_sym
           (js_sort_permutation compare_triggers _))) in Hin.
  apply event_cues_member in Hin.
  destruct Hin as [i [sounds [j [sound [Hi [Hj ->]]]]]].
  rewrite nth_error_map in Hi.
  destruct (nth_error events i) as [[analysis sounds']|] eqn:Hn;
    [|discriminate].
  simpl in Hi. inversion Hi; subst sounds'.
  destruct (Hev i analysis sounds Hn) as [_ [n1 [n2 Hrun]]].
  exists analysis, sounds, n1, n2. split; [exact Hrun|].
  exact (nth_error_In _ _ Hj).
Qed.

(** With the master flag off the loop pushes nothing and draws nothing; it
    returns when [chess.move] throws on none of the moves and throws when
    [chess.move] throws on one of them. *)
Lemma schedule_loop_master_off (w : Z) :
  enabled settings = false ->
  forall (rest : list string) (index : nat) (st : LoopState) (n : nat),
    match schedule_loop random evaluations settings w rest index st n with
    | Some (st', n') =>
        triggers_acc st' = triggers_acc st /\ n' = n
        /\ Trace.replays (chess_board st) rest = true
    | None => Trace.replays (chess_board st) rest = false
    end.
Proof.
  intros Hoff rest.
  induction rest as [|mv rest IH]; intros index st n;
    cbn [schedule_loop Trace.replays].
  - unfold ret. now repeat split.
  - unfold bind at 1. unfold schedule_step at 1. unfold bind at 1.
    unfold parseMoveForAnalysis.
    destruct (chess_move (chess_board st) mv) as [[board' moveObj]|];
      [|reflexivity].
    unfold lift, ret at 1. unfold bind at 1.
    rewrite analyzeMoveForSounds_disabled by exact Hoff.
    unfold ret at 1.
    match goal with
    | |- context [schedule_loop _ _ _ _ rest (S index) ?s n] =>
        specialize (IH (S index) s n);
        destruct (schedule_loop random evaluations settings w rest (S index) s n)
          as [[st' n']|]
    end; exact IH.
Qed.

(** X9. Master switch: with [enabled] false the builder still replays the
    moves through chess.js and does nothing else.  When [chess.move] throws
    on none of the moves of the game, made in turn, the builder returns the
    empty schedule without a draw; when [chess.move] throws on one of them,
    the builder throws. *)
Theorem generateSoundSchedule_master_off (moves : list string)
  (fps : option Z) (n : nat) :
  enabled settings = false ->
  generateSoundSchedule random moves evaluations settings fps n
  = if Trace.replays new_Chess moves then Some ([], n) else None.
Proof.
  intro Hoff.
  unfold generateSoundSchedule, accumulated_triggers, bind.
  pose proof (schedule_loop_master_off (with_default 30 fps) Hoff moves 0
                {| chess_board := new_Chess;
                   triggers_acc := [];
                   previousEval_acc := None |} n) as H.
  destruct (schedule_loop random evaluations settings (with_default 30 fps)
              moves 0 _ n) as [[st' n']|];
    cbn [chess_board triggers_acc] in H.
  - destruct H as [-> [-> ->]]. reflexivity.
  - now rewrite H.
Qed.

(** X10. Category switches: with [capturesEnabled] false a returned
    schedule holds no capture cue, with [specialMovesEnabled] false no
    special-move cue, and with [crowdEnabled] false no crowd-reaction cue,
    in which case no draw is made either. *)
Theorem generateSoundSchedule_category_off (moves : list string)
  (fps : option Z) (sched : list SoundTrigger) (n n' : nat) :
  generateSoundSchedule random moves evaluations settings fps n
  = Some (sched, n') ->
  (capturesEnabled settings = false ->
   Forall (fun t => category (soundEffect t) <> piece_capture) sched)
  /\ (specialMovesEnabled settings = false ->
      Forall (fun t => category (soundEffect t) <> special_moves) sched)
  /\ (crowdEnabled settings = false ->
      Forall (fun t => category (soundEffect t) <> crowd_reaction) sched
      /\ n' = n).
Proof.
  intro H.
  assert (Hlift : forall c,
             (forall analysis sounds k k',
                 analyzeMoveForSounds random analysis settings k
                 = Some (sounds, k') -> of_category c sounds = []) ->
             Forall (fun t => category (soundEffect t) <> c) sched).
  { intros c Hc. apply Forall_forall. intros t Hin.
    destruct (@generateSoundSchedule_cues_classified moves fps sched n n' H
                t Hin)
      as [analysis [sounds [n1 [n2 [Hrun Hs]]]]].
    apply Hc in Hrun. apply of_category_empty_none in Hrun.
    rewrite Forall_forall in Hrun. exact (Hrun _ Hs). }
  split; [|split].
  - intro Hoff. apply Hlift. intros analysis sounds k k' Hrun.
    exact (proj1 (proj2 (proj2 (@analyzeMoveForSounds_flags random analysis
                    settings sounds k k' Hrun))) Hoff).
  - intro Hoff. apply Hlift. intros analysis sounds k k' Hrun.
    exact (proj1 (proj2 (@analyzeMoveForSounds_flags random analysis
                    settings sounds k k' Hrun)) Hoff).
  - intro Hoff. split.
    + apply Hlift. intros analysis sounds k k' Hrun.
      exact (proj1 (proj2 (proj2 (proj2 (@analyzeMoveForSounds_flags random
                      analysis settings sounds k k' Hrun))) Hoff)).
    + apply (@generateSoundSchedule_no_draw moves fps sched n n'); [|exact H].
      intros analysis sounds k k' Hrun.
      exact (proj2 (proj2 (proj2 (proj2 (@analyzeMoveForSounds_flags random
                      analysis settings sounds k k' Hrun))) Hoff)).
Qed.

End BuilderFlags.

(** The recorded game with the master flag off, and the game 1.e4 e5
    followed by the illegal king move Ke3. *)
Lemma generateSoundSchedule_master_off_witness :
  generateSoundSchedule (chessjs := Replay.replay Replay.scholars_mate)
    Replay.zero_random Replay.scholars_mate_moves [] Replay.muted_settings
    None 0%nat
  = Some ([], 0%nat)
  /\ generateSoundSchedule (chessjs := Replay.replay Replay.scholars_mate)
       Replay.zero_random ["e4"; "e5"; "Ke3"] [] Replay.muted_settings None
       0%nat
     = None.
Proof.
  split.
  - exact (@generateSoundSchedule_master_off Replay.zero_random
             (Replay.replay Replay.scholars_mate) [] Replay.muted_settings
             Replay.scholars_mate_moves None 0%nat eq_refl).
  - exact (@generateSoundSchedule_master_off Replay.zero_random
             (Replay.replay Replay.scholars_mate) [] Replay.muted_settings
             ["e4"; "e5"; "Ke3"] None 0%nat eq_refl).
Defined.

Lemma generateSoundSchedule_category_off_witness :
  Forall (fun t => category (soundEffect t) <> piece_capture)
    [Replay.mate_trigger].
Proof.
  assert (H : generateSoundSchedule
                (chessjs := Replay.replay Replay.scholars_mate)
                Replay.zero_random Replay.scholars_mate_moves []
                {| enabled := true;
                   capturesEnabled := false;
                   crowdEnabled := true;
                   atmosphereEnabled := true;
                   clockEnabled := false;
                   specialMovesEnabled := true;
                   masterVolume := 1%Q |} None 0%nat
              = Some ([Replay.mate_trigger], 0%nat))
    by (vm_compute; reflexivity).
  exact (proj1 (generateSoundSchedule_category_off _ _ _ _ _ _ H) eq_refl).
Defined.

Section BuilderEvaluations.

Variable random : nat -> Q.
Context {chessjs : ChessJs}.
Variable moves : list string.
Variable evaluations : list (option Z).
Variable settings : SoundEffectSettings.

(** X11. How the builder feeds the classifier: the [i]-th move (from 0) is
    classified with sequence number [i + 1], evaluation [evaluations[i]]
    and, as previous evaluation, [evaluations[i - 1]] (none for the first
    move); the schedule is the cues of these events in that order.  So the
    first move, and any move with no evaluation for itself or for the move
    before it, gets no crowd-reaction cue. *)
Theorem generateSoundSchedule_evaluation_pairs (fps : option Z)
  (sched : list SoundTrigger) (n n' : nat) :
  generateSoundSchedule random moves evaluations settings fps n
  = Some (sched, n') ->
  exists events : list (MoveAnalysis * list SoundEffect),
    map (fun e => move (fst e)) events = moves
    /\ sched = event_cues 0 (map snd events)
    /\ forall i analysis sounds,
        nth_error events i = Some (analysis, sounds) ->
        moveNumber analysis = Z.of_nat i + 1
        /\ evaluation analysis = eval_at evaluations i
        /\ previousEvaluation analysis = eval_before evaluations i
        /\ (exists n1 n2,
               analyzeMoveForSounds random analysis settings n1
               = Some (sounds, n2))
        /\ (eval_at evaluations i = None
            \/ eval_before evaluations i = None ->
            of_category crowd_reaction sounds = []).
Proof.
  intro H. apply generateSoundSchedule_returns in H.
  destruct H as [acc [Hacc ->]].
  apply accumulated_triggers_trace in Hacc.
  destruct Hacc as [events [Hmoves [Hev [-> _]]]].
  exists events. split; [exact Hmoves|]. split.
  - apply js_sort_fixes_increasing, event_cues_increase, trace_sizes.
    intros i analysis sounds Hnth.
    now destruct (Hev i analysis sounds Hnth) as [_ [_ [_ [Hlen _]]]].
  - intros i analysis sounds Hnth.
    destruct (Hev i analysis sounds Hnth)
      as [Hnum [Hcur [Hprev [_ [n1 [n2 Hrun]]]]]].
    repeat (split; [assumption|]).
    split; [now exists n1, n2|].
    intro Hmissing. destruct (enabled settings) eqn:Hon.
    + destruct (analyzeMoveForSounds_parts _ _ _ _ Hon Hrun)
        as [special [capture [crowd [_ [_ [Er [_ [_ ->]]]]]]]].
      assert (Hc : crowd_sounds random analysis settings [] n1
                   = Some ([], n1)).
      { unfold crowd_sounds. rewrite Hcur, Hprev.
        destruct Hmissing as [-> | ->]; [reflexivity|].
        destruct (eval_at evaluations i); reflexivity. }
      rewrite Hc in Er. inversion Er as [[Hraw Hn]].
      destruct crowd; [reflexivity | discriminate].
    + rewrite analyzeMoveForSounds_disabled in Hrun by exact Hon.
      inversion Hrun. reflexivity.
Qed.

(** X12. The frame rate handed to the builder has no effect: whatever
    [fps] is given (or defaulted), the result is the same, the frames being
    laid out at 30 per move after a lead-in of 90. *)
Theorem generateSoundSchedule_ignores_fps (fps1 fps2 : option Z) (n : nat) :
  generateSoundSchedule random moves evaluations settings fps1 n
  = generateSoundSchedule random moves evaluations settings fps2 n.
Proof.
  assert (Hloop : forall w1 w2 rest index st k,
             schedule_loop random evaluations settings w1 rest index st k
             = schedule_loop random evaluations settings w2 rest index st k).
  { intros w1 w2 rest.
    induction rest as [|mv rest IH]; intros index st k; [reflexivity|].
    simpl. unfold bind.
    change (schedule_step random evaluations settings w2 st mv index k)
      with (schedule_step random evaluations settings w1 st mv index k).
    destruct (schedule_step random evaluations settings w1 st mv index k)
      as [[st1 k1]|]; [apply IH | reflexivity]. }
  unfold generateSoundSchedule, accumulated_triggers, bind.
  now rewrite (Hloop (with_default 30 fps1) (with_default 30 fps2)).
Qed.

End BuilderEvaluations.

Lemma generateSoundSchedule_evaluation_pairs_witness :
  exists events : list (MoveAnalysis * list SoundEffect),
    map (fun e => move (fst e)) events = Replay.scholars_mate_moves
    /\ [Replay.mate_trigger; Replay.capture_trigger]
       = event_cues 0 (map snd events).
Proof.
  destruct (generateSoundSchedule_evaluation_pairs _ _ _ _ _ _
              scholars_mate_schedule) as [events [Hmoves [Hsched _]]].
  exists events. now split.
Defined.

(* ===================================================================== *)
(** * More on the catalog *)
(* ===================================================================== *)

Lemma getSoundEffect_in_found (cats : list SoundEffectCategory) (i : string)
  (e : SoundEffect) :
  getSoundEffect_in cats i = Some e ->
  id e = i /\ exists c, In c cats /\ In e (SOUND_EFFECTS c).
Proof.
  induction cats as [|c rest IH]; simpl; [discriminate|].
  destruct (find (fun e0 => String.eqb (id e0) i) (SOUND_EFFECTS c))
    as [found|] eqn:F.
  - intro H. inversion H; subst found.
    apply find_some in F. destruct F as [Hin Heq].
    apply String.eqb_eq in Heq. split; [exact Heq|].
    exists c. split; [now left | exact Hin].
  - intro H. destruct (IH H) as [Hid [c' [Hc Hin]]].
    split; [exact Hid|]. exists c'. split; [now right | exact Hin].
Qed.

(** The ids of the catalog are pairwise distinct, so the lookup by id finds
    each entry itself. *)
Lemma getSoundEffect_finds_entry (c : SoundEffectCategory) (e : SoundEffect) :
  In e (SOUND_EFFECTS c) -> getSoundEffect (id e) = Some e.
Proof.
  destruct c; simpl; intro H;
    repeat (destruct H as [<- | H]; [reflexivity|]); destruct H.
Qed.

(** X13. Lookup by id: an entry that is found carries the id asked for and
    is an entry of the catalog, under its own category; every catalog entry
    is found by its own id; and the lookup is [undefined] exactly for the
    ids no entry carries. *)
Theorem getSoundEffect_lookup (i : string) :
  (forall e,
      getSoundEffect i = Some e ->
      id e = i /\ In e (SOUND_EFFECTS (category e)))
  /\ (forall c e, In e (SOUND_EFFECTS c) -> getSoundEffect (id e) = Some e)
  /\ (getSoundEffect i = None <->
      forall c e, In e (SOUND_EFFECTS c) -> id e <> i).
Proof.
  split; [|split].
  - intros e H. apply getSoundEffect_in_found in H.
    destruct H as [Hid [c [_ Hin]]]. split; [exact Hid|].
    now rewrite (@catalog_category c e Hin).
  - exact getSoundEffect_finds_entry.
  - split.
    + intros Hnone c e Hin Hid.
      apply getSoundEffect_finds_entry in Hin. rewrite Hid in Hin. congruence.
    + intro Hfresh. destruct (getSoundEffect i) as [e|] eqn:E; [|reflexivity].
      apply getSoundEffect_in_found in E. destruct E as [Hid [c [_ Hin]]].
      now elim (Hfresh c e Hin).
Qed.

Lemma getSoundEffect_lookup_witness :
  getSoundEffect "no-such-sound" = None
  /\ option_map category (getSoundEffect "cheer") = Some crowd_reaction.
Proof.
  split.
  - apply (proj2 (proj2 (getSoundEffect_lookup "no-such-sound"))).
    intros c e Hin. destruct c; simpl in Hin;
      repeat (destruct Hin as [<- | Hin]; [discriminate|]); destruct Hin.
  - destruct (getSoundEffect "cheer") as [e|] eqn:E; [|discriminate E].
    destruct (proj1 (getSoundEffect_lookup "cheer") e E) as [Hid Hin].
    vm_compute in E. inversion E. reflexivity.
Defined.

Lemma catalog_volume (c : SoundEffectCategory) (e : SoundEffect) :
  In e (SOUND_EFFECTS c) ->
  exists v, volume e = Some v /\ Qeq_bool v 0 = false.
Proof.
  destruct c; simpl; intro H;
    repeat (destruct H as [<- | H];
            [eexists; split; reflexivity|]); destruct H.
Qed.

Lemma scale_volume_catalog (settings : SoundEffectSettings)
  (c : SoundEffectCategory) (e : SoundEffect) :
  In e (SOUND_EFFECTS c) ->
  exists v,
    volume e = Some v
    /\ volume (scale_volume (5 # 10) settings e)
       = Some (v * masterVolume settings)%Q.
Proof.
  intro Hin. destruct (@catalog_volume c e Hin) as [v [Hv Hnz]].
  exists v. split; [exact Hv|].
  unfold scale_volume, volume_or. simpl. now rewrite Hv, Hnz.
Qed.

(** Every defined entry of a block of the classifier is a catalog entry. *)
Lemma special_move_sounds_catalog (analysis : MoveAnalysis)
  (settings : SoundEffectSettings) (e : SoundEffect) :
  In (Some e) (special_move_sounds analysis settings []) ->
  exists c, In e (SOUND_EFFECTS c).
Proof.
  assert (Hpush : forall i,
             In (Some e) (push_if_found [] (getSoundEffect i)) ->
             exists c, In e (SOUND_EFFECTS c)).
  { intros i. destruct (getSoundEffect i) as [found|] eqn:F; simpl;
      [|intros []].
    intros [H | []]. inversion H; subst found.
    apply getSoundEffect_in_found in F. destruct F as [_ [c [_ Hin]]].
    now exists c. }
  unfold special_move_sounds.
  destruct (specialMovesEnabled settings); [|intros []].
  destruct (isCheckmate analysis); [apply Hpush|].
  destruct (isCheck analysis); [apply Hpush|].
  destruct (isCastle analysis); [apply Hpush|].
  destruct (isPromotion analysis); [apply Hpush | intros []].
Qed.

Lemma capture_sounds_catalog (analysis : MoveAnalysis)
  (settings : SoundEffectSettings) (e : SoundEffect) :
  In (Some e) (capture_sounds analysis settings []) ->
  exists c, In e (SOUND_EFFECTS c).
Proof.
  unfold capture_sounds.
  destruct (capturedPiece analysis) as [piece|]; [|intros []].
  destruct (capturesEnabled settings && JsString.truthy piece)%bool;
    [|intros []].
  simpl. intros [H | []].
  destruct (getCaptureSound_defined piece) as [cue [E [Hin _]]].
  rewrite E in H. inversion H; subst. now exists piece_capture.
Qed.

Lemma crowd_sounds_catalog (random : nat -> Q) (analysis : MoveAnalysis)
  (settings : SoundEffectSettings) (raw : list (option SoundEffect))
  (n n' : nat) (e : SoundEffect) :
  crowd_sounds random analysis settings [] n = Some (raw, n') ->
  In (Some e) raw ->
  exists c, In e (SOUND_EFFECTS c).
Proof.
  unfold crowd_sounds.
  destruct (evaluation analysis) as [ev|];
    [|intro H; inversion H; intros []].
  destruct (previousEvaluation analysis) as [prev|];
    [|intro H; inversion H; intros []].
  destruct (crowdEnabled settings); [|intro H; inversion H; intros []].
  destruct (Z.abs (ev - prev) >? 200).
  { intro H. inversion H; subst. intros [Hp | []].
    exists crowd_reaction. unfold getRandomSound_at in Hp.
    exact (js_index_member _ _ Hp). }
  destruct (ev - prev >? 150); [|intro H; inversion H; intros []].
  intro H. apply ret_returns in H. destruct H as [<- _].
  intros [Hp | []]. inversion Hp; subst.
  exists crowd_reaction. simpl. tauto.
Qed.

(** X14. The classifier invents nothing: every cue it returns is a catalog
    entry with id, category, path and description unchanged and with the
    catalog volume multiplied by the master volume (the 0.5 fallback is
    never used, no catalog volume being missing or zero). *)
Theorem analyzeMoveForSounds_catalog_cues
  (random : nat -> Q) (analysis : MoveAnalysis)
  (settings : SoundEffectSettings) (sounds : list SoundEffect) (n n' : nat) :
  analyzeMoveForSounds random analysis settings n = Some (sounds, n') ->
  Forall (fun cue =>
            exists entry v,
              In entry (SOUND_EFFECTS (category cue))
              /\ id cue = id entry
              /\ path cue = path entry
              /\ description cue = description entry
              /\ volume entry = Some v
              /\ volume cue = Some (v * masterVolume settings)%Q) sounds.
Proof.
  intro H. destruct (enabled settings) eqn:Hon.
  - pose proof H as Hb. apply analyzeMoveForSounds_blocks in Hb; [|exact Hon].
    destruct Hb as [special [capture [crowd [Es [Ec [Er [_ [_ [_ ->]]]]]]]]].
    apply Forall_forall. intros cue Hin.
    apply in_map_iff in Hin. destruct Hin as [entry [<- Hin]].
    assert (Hcat : exists c, In entry (SOUND_EFFECTS c)).
    { apply in_app_or in Hin. destruct Hin as [Hin | Hin].
      - apply (special_move_sounds_catalog analysis settings).
        rewrite Es. now apply in_map.
      - apply in_app_or in Hin. destruct Hin as [Hin | Hin].
        + apply (capture_sounds_catalog analysis settings).
          rewrite Ec. now apply in_map.
        + apply (@crowd_sounds_catalog random analysis settings _ n n' entry
                   Er). now apply in_map. }
    destruct Hcat as [c Hc].
    destruct (@scale_volume_catalog settings c entry Hc) as [v [Hv Hscaled]].
    exists entry, v. rewrite scale_volume_category.
    rewrite (@catalog_category c entry Hc).
    repeat (split; [first [exact Hc | exact Hv | reflexivity]|]).
    exact Hscaled.
  - rewrite analyzeMoveForSounds_disabled in H by exact Hon.
    inversion H. constructor.
Qed.

Lemma analyzeMoveForSounds_catalog_cues_witness :
  exists sounds n',
    analyzeMoveForSounds Replay.zero_random (Replay.capture_event "q")
      DEFAULT_SOUND_SETTINGS 0%nat = Some (sounds, n')
    /\ Forall (fun cue =>
                 exists entry v,
                   In entry (SOUND_EFFECTS (category cue))
                   /\ id cue = id entry
                   /\ path cue = path entry
                   /\ description cue = description entry
                   /\ volume entry = Some v
                   /\ volume cue
                      = Some (v * masterVolume DEFAULT_SOUND_SETTINGS)%Q)
         sounds.
Proof.
  destruct (@analyzeMoveForSounds_defined Replay.zero_random
              (Replay.capture_event "q") DEFAULT_SOUND_SETTINGS 0%nat)
    as [sounds [n' [H _]]].
  - unfold Replay.zero_random. discriminate.
  - reflexivity.
  - exists sounds, n'. split; [exact H|].
    exact (analyzeMoveForSounds_catalog_cues _ _ _ _ H).
Defined.

(** X15. The random pick of a category.  For a draw in [0, 1)
    getRandomSound returns an entry of the requested category, never
    [undefined], and has made one draw.  Every entry of the category is the
    pick at some draw [m / 1024] with [0 <= m < 1024]: a value that is a
    double and whose product with the length of the category (at most 6) the
    double multiplication computes exactly. *)
Theorem getRandomSound_picks_entry (c : SoundEffectCategory) :
  (forall (random : nat -> Q) (n : nat),
      (0 <= random n)%Q -> (random n < 1)%Q ->
      exists s,
        getRandomSound random c n = Some (Some s, S n)
        /\ In s (SOUND_EFFECTS c) /\ category s = c)
  /\ (forall (k : nat) (s : SoundEffect),
         nth_error (SOUND_EFFECTS c) k = Some s ->
         exists m : Z,
           0 <= m < 1024
           /\ Qfloor ((m # 1024) * inject_Z (Z.of_nat (length (SOUND_EFFECTS c))))
              = Z.of_nat k
           /\ getRandomSound_at (m # 1024) c = Some s).
Proof.
  split.
  - intros random n Hlo Hhi.
    destruct (getRandomSound_at_defined c Hlo Hhi) as [s [Hs Hin]].
    exists s. unfold getRandomSound, bind, Math_random, ret. rewrite Hs.
    split; [reflexivity|]. split; [exact Hin|].
    now apply catalog_category.
  - intros k s Hk.
    exists ((1024 * Z.of_nat k + Z.of_nat (length (SOUND_EFFECTS c)) - 1)
            / Z.of_nat (length (SOUND_EFFECTS c))).
    destruct c;
      do 7 (destruct k as [|k];
            [first [ discriminate Hk
                   | injection Hk as <-;
                     split; [vm_compute; split; congruence|];
                     split; vm_compute; reflexivity ]|]);
      destruct k; discriminate Hk.
Qed.

Lemma getRandomSound_picks_entry_witness :
  exists s,
    getRandomSound Replay.zero_random crowd_reaction 0%nat
    = Some (Some s, 1%nat)
    /\ In s (SOUND_EFFECTS crowd_reaction) /\ category s = crowd_reaction.
Proof.
  apply (proj1 (getRandomSound_picks_entry crowd_reaction)
           Replay.zero_random 0%nat).
  - apply Qle_refl.
  - reflexivity.
Defined.

Lemma filter_Subsequence {A : Type} (f : A -> bool) (l : list A) :
  Subsequence (filter f l) l.
Proof.
  induction l as [|x l IH]; simpl; [constructor|].
  destruct (f x); now constructor.
Qed.

(* ===================================================================== *)
(** * The media library *)
(* ===================================================================== *)

Module MediaFacts.
Import MediaLibrary.

Lemma media_category_eqb_eq (a b : MediaCategory) :
  media_category_eqb a b = true <-> a = b.
Proof. destruct a, b; simpl; split; intro H; try reflexivity; discriminate. Qed.

Lemma getMediaByCategory_member (c : MediaCategory)
  (library : option (list MediaAsset)) (m : MediaAsset) :
  In m (getMediaByCategory c library) <->
  In m (with_default DEFAULT_MEDIA_LIBRARY library) /\ category m = c.
Proof.
  unfold getMediaByCategory. rewrite filter_In, media_category_eqb_eq.
  reflexivity.
Qed.

Section RandomMedia.

Variable random : nat -> Q.

Lemma getRandomMedia_returns (c : MediaCategory)
  (library : option (list MediaAsset)) (res : option MediaAsset) (n n' : nat) :
  getRandomMedia random c library n = Some (res, n') ->
  (n' = n \/ n' = S n)
  /\ forall m, res = Some m -> In m (getMediaByCategory c library).
Proof.
  unfold getRandomMedia.
  destruct (length (getMediaByCategory c library) =? 0)%nat.
  - intro H. inversion H. split; [now left | discriminate].
  - unfold bind, Math_random, ret. intro H. inversion H.
    split; [now right|]. intros m Hm.
    exact (@js_index_member _ _ _ m Hm).
Qed.

Lemma getRandomMedia_empty (c : MediaCategory)
  (library : option (list MediaAsset)) (n : nat) :
  getMediaByCategory c library = [] ->
  getRandomMedia random c library n = Some (None, n).
Proof. intro H. unfold getRandomMedia. now rewrite H. Qed.

Lemma getRandomMedia_defined (c : MediaCategory)
  (library : option (list MediaAsset)) (n : nat) :
  getMediaByCategory c library <> [] ->
  (0 <= random n)%Q -> (random n < 1)%Q ->
  exists m,
    getRandomMedia random c library n = Some (Some m, S n)
    /\ In m (getMediaByCategory c library).
Proof.
  intros Hne Hlo Hhi. unfold getRandomMedia.
  destruct (getMediaByCategory c library) as [|a assets] eqn:E;
    [now elim Hne|].
  change ((length (a :: assets) =? 0)%nat) with false. cbv iota.
  unfold bind, Math_random, ret.
  destruct (@js_index_in_range _ (a :: assets)
              (Qfloor (random n * inject_Z (Z.of_nat (length (a :: assets))))))
    as [m [Hm Hin]].
  - apply floor_scaled_in_range; auto. simpl. lia.
  - exists m. rewrite Hm. now split.
Qed.

(** What a selection that returns an asset tells. *)
Lemma selectMediaForSegment_some (segmentType : SegmentType)
  (settings : MediaLibrarySettings) (tid : option string)
  (customLibrary : option (list MediaAsset)) (m : MediaAsset) (n n' : nat) :
  selectMediaForSegment random segmentType settings tid customLibrary n
  = Some (Some m, n') ->
  enabled settings = true
  /\ segment_flag segmentType settings = true
  /\ In m (with_default DEFAULT_MEDIA_LIBRARY customLibrary)
  /\ segment_allows segmentType (category m) = true.
Proof.
  unfold selectMediaForSegment.
  destruct (enabled settings); [|discriminate]. cbn [negb].
  set (library := with_default DEFAULT_MEDIA_LIBRARY customLibrary).
  assert (Hpick : forall c k k',
             getRandomMedia random c (Some library) k = Some (Some m, k') ->
             In m library /\ category m = c).
  { intros c k k' H. apply getRandomMedia_returns in H.
    destruct H as [_ H]. specialize (H m eq_refl).
    now apply getMediaByCategory_member in H. }
  destruct segmentType; simpl segment_flag.
  - destruct (useVenueShots settings); [|discriminate]. cbn [negb].
    destruct (if (opt_string_truthy tid && preferUserUploads settings)%bool
              then find (fun m0 => (opt_string_eqb (tournamentId m0) tid
                                    && is_venue m0)%bool) library
              else None) as [venue|] eqn:F.
    + intro H. inversion H; subst venue.
      destruct (opt_string_truthy tid && preferUserUploads settings)%bool;
        [|discriminate].
      apply find_some in F. destruct F as [Hin Hc].
      apply andb_true_iff in Hc. destruct Hc as [_ Hv].
      repeat (split; [first [reflexivity | exact Hin]|]).
      unfold is_venue in Hv. destruct (category m); simpl in *;
        first [reflexivity | discriminate].
    + unfold stock_venue, bind.
      destruct (getRandomMedia random venue_hall (Some library) n)
        as [[[hall|] k]|] eqn:Hh; [| |discriminate].
      * intro H. inversion H; subst.
        destruct (Hpick _ _ _ Hh) as [Hin Hc].
        repeat (split; [first [reflexivity | exact Hin]|]). now rewrite Hc.
      * intro H. destruct (Hpick _ _ _ H) as [Hin Hc].
        repeat (split; [first [reflexivity | exact Hin]|]). now rewrite Hc.
  - destruct (useTransitions settings); [|discriminate]. cbn [negb].
    intro H. destruct (Hpick _ _ _ H) as [Hin Hc].
    repeat (split; [first [reflexivity | exact Hin]|]). now rewrite Hc.
  - destruct (useVenueShots settings); [|discriminate]. cbn [negb].
    intro H. destruct (Hpick _ _ _ H) as [Hin Hc].
    repeat (split; [first [reflexivity | exact Hin]|]). now rewrite Hc.
  - destruct (useAtmosphere settings); [|discriminate]. cbn [negb].
    intro H. destruct (Hpick _ _ _ H) as [Hin Hc].
    repeat (split; [first [reflexivity | exact Hin]|]). now rewrite Hc.
Qed.

(** X16. Selecting media for a segment is gated and sound: with the master
    flag or the flag of the segment type off the result is [undefined] and
    no draw is made; an asset that is returned is an asset of the library in
    use (the custom one when given, else the default one) and of a category
    the segment type shows: a venue shot for the intro, the venue hall for
    the outro, a transition or an atmosphere clip for those segments. *)
Theorem selectMediaForSegment_gated_and_sound (segmentType : SegmentType)
  (settings : MediaLibrarySettings) (tid : option string)
  (customLibrary : option (list MediaAsset)) (n : nat) :
  (enabled settings = false \/ segment_flag segmentType settings = false ->
   selectMediaForSegment random segmentType settings tid customLibrary n
   = Some (None, n))
  /\ (forall m n',
         selectMediaForSegment random segmentType settings tid customLibrary n
         = Some (Some m, n') ->
         In m (with_default DEFAULT_MEDIA_LIBRARY customLibrary)
         /\ segment_allows segmentType (category m) = true).
Proof.
  split.
  - unfold selectMediaForSegment.
    destruct (enabled settings); [|reflexivity].
    intros [Hoff | Hoff]; [discriminate|].
    destruct segmentType; simpl in Hoff; rewrite Hoff; reflexivity.
  - intros m n' H. apply selectMediaForSegment_some in H.
    now destruct H as [_ [_ H]].
Qed.

(** X17. Tournament footage first: for the intro, with the master, venue
    and prefer-uploads flags on and a non-empty tournament id, the first
    venue asset of the library that carries this tournament id is returned,
    whatever the random source, and no draw is made. *)
Theorem selectMediaForSegment_prefers_tournament_venue
  (settings : MediaLibrarySettings) (tid : string)
  (customLibrary : option (list MediaAsset)) (venue : MediaAsset) (n : nat) :
  enabled settings = true ->
  useVenueShots settings = true ->
  preferUserUploads settings = true ->
  tid <> "" ->
  find (fun m => (opt_string_eqb (tournamentId m) (Some tid)
                  && is_venue m)%bool)
       (with_default DEFAULT_MEDIA_LIBRARY customLibrary) = Some venue ->
  selectMediaForSegment random intro_segment settings (Some tid)
    customLibrary n
  = Some (Some venue, n)
  /\ tournamentId venue = Some tid
  /\ is_venue venue = true.
Proof.
  intros Hon Hvenue Hpref Hne Hfind.
  unfold selectMediaForSegment. rewrite Hon, Hvenue, Hpref. cbn [negb].
  assert (Ht : opt_string_truthy (Some tid) = true)
    by (destruct tid; [now elim Hne | reflexivity]).
  rewrite Ht. simpl andb. cbv iota. rewrite Hfind. split; [reflexivity|].
  apply find_some in Hfind. destruct Hfind as [_ Hc].
  apply andb_true_iff in Hc. destruct Hc as [Hid Hv]. split; [|exact Hv].
  destruct (tournamentId venue) as [t|]; simpl in Hid; [|discriminate].
  apply String.eqb_eq in Hid. now subst.
Qed.

(** An asset the segment allows makes the selection return an asset. *)
Lemma selectMediaForSegment_defined (segmentType : SegmentType)
  (settings : MediaLibrarySettings) (tid : option string)
  (customLibrary : option (list MediaAsset)) (a : MediaAsset) (n : nat) :
  enabled settings = true ->
  segment_flag segmentType settings = true ->
  (0 <= random n)%Q -> (random n < 1)%Q ->
  In a (with_default DEFAULT_MEDIA_LIBRARY customLibrary) ->
  segment_allows segmentType (category a) = true ->
  exists m n',
    selectMediaForSegment random segmentType settings tid customLibrary n
    = Some (Some m, n').
Proof.
  intros Hon Hflag Hlo Hhi Hin Hallow.
  unfold selectMediaForSegment. rewrite Hon. cbn [negb].
  set (library := with_default DEFAULT_MEDIA_LIBRARY customLibrary) in *.
  assert (Hpick : forall c,
             category a = c ->
             exists m,
               getRandomMedia random c (Some library) n = Some (Some m, S n)).
  { intros c Hc.
    destruct (@getRandomMedia_defined c (Some library) n) as [m [Hm _]];
      auto; [|now exists m].
    intro E.
    assert (Hm : In a (getMediaByCategory c (Some library)))
      by (apply getMediaByCategory_member; now split).
    rewrite E in Hm. destruct Hm. }
  destruct segmentType; simpl in Hflag; rewrite Hflag; cbn [negb].
  - destruct (if (opt_string_truthy tid && preferUserUploads settings)%bool
              then find (fun m0 => (opt_string_eqb (tournamentId m0) tid
                                    && is_venue m0)%bool) library
              else None) as [venue|]; [now exists venue, n|].
    unfold stock_venue, bind.
    destruct (getMediaByCategory venue_hall (Some library)) as [|h hs] eqn:E.
    + rewrite (@getRandomMedia_empty venue_hall (Some library) n E).
      destruct (Hpick venue_exterior) as [m Hm]; [|now exists m, (S n)].
      destruct (category a) eqn:Hc; simpl in Hallow;
        first [reflexivity | discriminate | idtac].
      assert (Hm : In a (getMediaByCategory venue_hall (Some library)))
        by (apply getMediaByCategory_member; now split).
      rewrite E in Hm. destruct Hm.
    + destruct (@getRandomMedia_defined venue_hall (Some library) n)
        as [m [Hm _]]; auto; [now rewrite E|].
      rewrite Hm. now exists m, (S n).
  - destruct (Hpick transition) as [m Hm]; [|now exists m, (S n)].
    destruct (category a); simpl in Hallow; first [reflexivity | discriminate].
  - destruct (Hpick venue_hall) as [m Hm]; [|now exists m, (S n)].
    destruct (category a); simpl in Hallow; first [reflexivity | discriminate].
  - destruct (Hpick atmosphere) as [m Hm]; [|now exists m, (S n)].
    destruct (category a); simpl in Hallow; first [reflexivity | discriminate].
Qed.

(** X18. When the selection finds something: with the master flag and the
    flag of the segment type on and a draw in [0, 1), an asset is returned
    exactly when the library in use holds an asset of a category the
    segment type shows.  So an empty custom library yields [undefined] (it
    is not replaced by the default library), while the default library
    serves every segment type. *)
Theorem selectMediaForSegment_available (segmentType : SegmentType)
  (settings : MediaLibrarySettings) (tid : option string)
  (customLibrary : option (list MediaAsset)) (n : nat) :
  enabled settings = true ->
  segment_flag segmentType settings = true ->
  (0 <= random n)%Q -> (random n < 1)%Q ->
  ((exists m n',
       selectMediaForSegment random segmentType settings tid customLibrary n
       = Some (Some m, n'))
   <-> exists a,
        In a (with_default DEFAULT_MEDIA_LIBRARY customLibrary)
        /\ segment_allows segmentType (category a) = true)
  /\ (customLibrary = Some [] ->
      forall res n',
        selectMediaForSegment random segmentType settings tid customLibrary n
        = Some (res, n') -> res = None)
  /\ (customLibrary = None ->
      exists m n',
        selectMediaForSegment random segmentType settings tid customLibrary n
        = Some (Some m, n')).
Proof.
  intros Hon Hflag Hlo Hhi. split; [|split].
  - split.
    + intros [m [n' H]]. exists m. apply selectMediaForSegment_some in H.
      now destruct H as [_ [_ H]].
    + intros [a [Hin Hallow]].
      now apply (selectMediaForSegment_defined _ _ tid _ a).
  - intros -> res n' H. destruct res as [m|]; [|reflexivity].
    apply selectMediaForSegment_some in H.
    destruct H as [_ [_ [Hin _]]]. destruct Hin.
  - intros ->.
    destruct segmentType.
    + apply (selectMediaForSegment_defined intro_segment settings tid None
               (nth 0 DEFAULT_MEDIA_LIBRARY (uploaded_venue ""))); auto.
      simpl. tauto.
    + apply (selectMediaForSegment_defined transition_segment settings tid
               None (nth 5 DEFAULT_MEDIA_LIBRARY (uploaded_venue ""))); auto.
      simpl. tauto.
    + apply (selectMediaForSegment_defined outro_segment settings tid None
               (nth 1 DEFAULT_MEDIA_LIBRARY (uploaded_venue ""))); auto.
      simpl. tauto.
    + apply (selectMediaForSegment_defined atmosphere_segment settings tid
               None (nth 2 DEFAULT_MEDIA_LIBRARY (uploaded_venue ""))); auto.
      simpl. tauto.
Qed.

End RandomMedia.

Lemma selectMediaForSegment_gated_and_sound_witness :
  selectMediaForSegment Replay.zero_random transition_segment
    {| enabled := true;
       useVenueShots := true;
       usePlayerMedia := true;
       useAtmosphere := true;
       useTransitions := false;
       preferUserUploads := true |} None None 0%nat
  = Some (None, 0%nat).
Proof.
  apply (proj1 (selectMediaForSegment_gated_and_sound Replay.zero_random
                  transition_segment _ None None 0%nat)).
  right. reflexivity.
Defined.

Lemma selectMediaForSegment_prefers_tournament_venue_witness :
  selectMediaForSegment Replay.zero_random intro_segment
    DEFAULT_MEDIA_SETTINGS (Some "open-2024")
    (Some (DEFAULT_MEDIA_LIBRARY ++ [uploaded_venue "open-2024"])) 0%nat
  = Some (Some (uploaded_venue "open-2024"), 0%nat)
  /\ tournamentId (uploaded_venue "open-2024") = Some "open-2024"
  /\ is_venue (uploaded_venue "open-2024") = true.
Proof.
  apply selectMediaForSegment_prefers_tournament_venue;
    first [reflexivity | discriminate].
Defined.

Lemma selectMediaForSegment_available_witness :
  exists m n',
    selectMediaForSegment Replay.zero_random outro_segment
      DEFAULT_MEDIA_SETTINGS None None 0%nat
    = Some (Some m, n').
Proof.
  apply (proj2 (proj2 (@selectMediaForSegment_available Replay.zero_random
                         outro_segment DEFAULT_MEDIA_SETTINGS None None 0%nat
                         eq_refl eq_refl
                         ltac:(unfold Replay.zero_random; discriminate)
                         eq_refl))).
  reflexivity.
Defined.

(** ** Validation of an upload *)

(** The messages, in the order the checks are made. *)
Lemma validateMediaAsset_errors (asset : PartialMediaAsset) :
  errors (validateMediaAsset asset)
  = (if missing (p_type asset) then ["Media type is required"] else [])
    ++ (if missing (p_category asset)
        then ["Media category is required"] else [])
    ++ (if opt_string_truthy (p_path asset)
        then [] else ["Media path is required"])
    ++ (if opt_string_truthy (p_description asset)
        then [] else ["Description is required"])
    ++ (match p_type asset with
        | Some video =>
            if no_duration (p_duration asset)
            then ["Duration is required for video assets"] else []
        | _ => []
        end).
Proof.
  unfold validateMediaAsset, push_when, Triggers.push. simpl errors.
  destruct (p_type asset) as [[|]|]; simpl missing;
    destruct (missing (p_category asset));
    destruct (opt_string_truthy (p_path asset));
    destruct (opt_string_truthy (p_description asset));
    try destruct (no_duration (p_duration asset)); reflexivity.
Qed.

(** X19. Validation: an upload is valid exactly when it has a type, a
    category, a non-empty path and a non-empty description and, for a
    video, a duration that is present and not zero; it is valid exactly
    when no error is reported; at most five errors are reported; and every
    asset of the default library, taken as an upload, is valid. *)
Theorem validateMediaAsset_valid_iff (asset : PartialMediaAsset) :
  (valid (validateMediaAsset asset) = true <->
   p_type asset <> None
   /\ p_category asset <> None
   /\ opt_string_truthy (p_path asset) = true
   /\ opt_string_truthy (p_description asset) = true
   /\ (p_type asset = Some video -> no_duration (p_duration asset) = false))
  /\ (valid (validateMediaAsset asset) = true <->
      errors (validateMediaAsset asset) = [])
  /\ (length (errors (validateMediaAsset asset)) <= 5)%nat
  /\ Forall (fun a => valid (validateMediaAsset (as_partial a)) = true)
       DEFAULT_MEDIA_LIBRARY.
Proof.
  assert (Hvalid : valid (validateMediaAsset asset)
                   = (length (errors (validateMediaAsset asset)) =? 0)%nat)
    by reflexivity.
  rewrite Hvalid, validateMediaAsset_errors.
  split; [|split; [|split]].
  - destruct (p_type asset) as [[|]|]; simpl missing;
      destruct (p_category asset); simpl missing;
      destruct (opt_string_truthy (p_path asset));
      destruct (opt_string_truthy (p_description asset));
      try destruct (no_duration (p_duration asset));
      simpl; split;
      try (intros _; repeat split; try discriminate; try reflexivity;
           intro H; discriminate H);
      try discriminate;
      try (intros [H1 [H2 [H3 [H4 H5]]]];
           first [reflexivity
                 | discriminate
                 | now elim H1
                 | now elim H2
                 | specialize (H5 eq_refl); discriminate]).
  - destruct (p_type asset) as [[|]|]; simpl missing;
      destruct (missing (p_category asset));
      destruct (opt_string_truthy (p_path asset));
      destruct (opt_string_truthy (p_description asset));
      try destruct (no_duration (p_duration asset));
      simpl; split; intro H; first [reflexivity | discriminate].
  - destruct (p_type asset) as [[|]|]; simpl missing;
      destruct (missing (p_category asset));
      destruct (opt_string_truthy (p_path asset));
      destruct (opt_string_truthy (p_description asset));
      try destruct (no_duration (p_duration asset));
      simpl; lia.
  - repeat constructor.
Qed.

Lemma validateMediaAsset_valid_iff_witness :
  valid (validateMediaAsset
           {| p_id := Some "clip";
              p_type := Some video;
              p_category := Some transition;
              p_path := Some "media/uploads/clip.mp4";
              p_duration := Some 0%Q;
              p_description := Some "A clip";
              p_tags := None;
              p_tournamentId := None;
              p_playerId := None |}) = false
  /\ errors (validateMediaAsset
               {| p_id := Some "clip";
                  p_type := Some video;
                  p_category := Some transition;
                  p_path := Some "media/uploads/clip.mp4";
                  p_duration := Some 0%Q;
                  p_description := Some "A clip";
                  p_tags := None;
                  p_tournamentId := None;
                  p_playerId := None |})
     = ["Duration is required for video assets"].
Proof.
  split; [|reflexivity].
  match goal with
  | |- valid (validateMediaAsset ?a) = false =>
      destruct (valid (validateMediaAsset a)) eqn:E; [|reflexivity];
      destruct (proj1 (proj1 (validateMediaAsset_valid_iff a)) E)
        as [_ [_ [_ [_ H]]]];
      specialize (H eq_refl); discriminate H
  end.
Defined.

(** ** Queries on a library *)

(** X21. Random media of a category: when the library holds no asset of the
    category the result is [undefined] and Math.random is not called;
    otherwise exactly one draw is made, and for a draw in [0, 1) the result
    is an asset of the library with that category. *)
Theorem getRandomMedia_pick (random : nat -> Q) (c : MediaCategory)
  (library : option (list MediaAsset)) (n : nat) :
  (getMediaByCategory c library = [] ->
   getRandomMedia random c library n = Some (None, n))
  /\ (getMediaByCategory c library <> [] ->
      (exists res, getRandomMedia random c library n = Some (res, S n))
      /\ ((0 <= random n)%Q -> (random n < 1)%Q ->
          exists m,
            getRandomMedia random c library n = Some (Some m, S n)
            /\ In m (with_default DEFAULT_MEDIA_LIBRARY library)
            /\ category m = c)).
Proof.
  split; [apply getRandomMedia_empty|].
  intro Hne. split.
  - unfold getRandomMedia.
    destruct (getMediaByCategory c library) as [|a assets];
      [now elim Hne|].
    change ((length (a :: assets) =? 0)%nat) with false. cbv iota.
    unfold Triggers.bind, Triggers.Math_random, Triggers.ret. eauto.
  - intros Hlo Hhi.
    destruct (@getRandomMedia_defined random c library n Hne Hlo Hhi)
      as [m [Hm Hin]].
    exists m. split; [exact Hm|].
    now apply getMediaByCategory_member in Hin.
Qed.

Lemma getRandomMedia_pick_witness :
  getRandomMedia Replay.zero_random player_photo None 0%nat
  = Some (None, 0%nat)
  /\ exists m,
      getRandomMedia Replay.zero_random transition None 0%nat
      = Some (Some m, 1%nat)
      /\ In m (with_default DEFAULT_MEDIA_LIBRARY None)
      /\ category m = transition.
Proof.
  split.
  - apply (proj1 (getRandomMedia_pick Replay.zero_random player_photo None
                    0%nat)).
    reflexivity.
  - apply (proj2 (getRandomMedia_pick Replay.zero_random transition None
                    0%nat)).
    + discriminate.
    + unfold Replay.zero_random. discriminate.
    + reflexivity.
Defined.

Lemma opt_string_eqb_eq (a : option string) (t : string) :
  opt_string_eqb a (Some t) = true <-> a = Some t.
Proof.
  destruct a as [x|]; simpl; [|split; discriminate].
  rewrite String.eqb_eq. split; [now intros -> | now intros [= ->]].
Qed.

(** X22. The three library queries only select: each returns, in library
    order, exactly the assets with the category, the tournament id or the
    player id asked for; an asset without a tournament id or player id is
    never returned for any id, so the stock library yields nothing; and the
    six categories split a library without loss or overlap. *)
Theorem library_queries (library : list MediaAsset) :
  (forall c m,
      In m (getMediaByCategory c (Some library)) <->
      In m library /\ category m = c)
  /\ (forall t m,
         In m (getTournamentMedia t library) <->
         In m library /\ tournamentId m = Some t)
  /\ (forall p m,
         In m (getPlayerMedia p library) <->
         In m library /\ playerId m = Some p)
  /\ (forall c t p,
         Shape.Subsequence (getMediaByCategory c (Some library)) library
         /\ Shape.Subsequence (getTournamentMedia t library) library
         /\ Shape.Subsequence (getPlayerMedia p library) library)
  /\ (forall t p,
         getTournamentMedia t DEFAULT_MEDIA_LIBRARY = []
         /\ getPlayerMedia p DEFAULT_MEDIA_LIBRARY = [])
  /\ (length (getMediaByCategory venue_exterior (Some library))
      + length (getMediaByCategory venue_hall (Some library))
      + length (getMediaByCategory player_photo (Some library))
      + length (getMediaByCategory player_video (Some library))
      + length (getMediaByCategory atmosphere (Some library))
      + length (getMediaByCategory transition (Some library))
      = length library)%nat.
Proof.
  split; [|split; [|split; [|split; [|split]]]].
  - intros c m. apply getMediaByCategory_member.
  - intros t m. unfold getTournamentMedia.
    now rewrite filter_In, opt_string_eqb_eq.
  - intros p m. unfold getPlayerMedia.
    now rewrite filter_In, opt_string_eqb_eq.
  - intros c t p. repeat split; apply filter_Subsequence.
  - intros t p. split; reflexivity.
  - unfold getMediaByCategory. simpl with_default.
    induction library as [|a rest IH]; [reflexivity|].
    simpl. destruct (category a); simpl; lia.
Qed.

End MediaFacts.

(* ===================================================================== *)
(** * The sound layer *)
(* ===================================================================== *)

Lemma generateSoundSchedule_frames_lower (random : nat -> Q)
  (chessjs : ChessJs) (moves : list string) (evaluations : list (option Z))
  (settings : SoundEffectSettings) (fps : option Z)
  (sched : list SoundTrigger) (n n' : nat) :
  generateSoundSchedule random moves evaluations settings fps n
  = Some (sched, n') ->
  forall t, In t sched -> 90 <= startFrame t.
Proof.
  intros H t Hin. apply generateSoundSchedule_returns in H.
  destruct H as [acc [Hacc ->]].
  apply accumulated_triggers_returns in Hacc.
  destruct Hacc as [events [_ [_ ->]]].
  apply (Permutation_in _ (Permutation_sym
           (js_sort_permutation compare_triggers _))) in Hin.
  apply event_cues_lower in Hin. lia.
Qed.

(** X20. The sound layer plays a trigger from its start frame for 90
    frames: the active triggers at a frame are those of the list, in order,
    whose start frame is at most the frame and more than the frame minus 90;
    for an active trigger the offset into the sound lies in [0, 90), so the
    clamp [Math.max(0, offset)] never changes it; and on a schedule of the
    builder nothing is active before frame 90. *)
Theorem activeSounds_window (frame : Z) (soundTriggers : list SoundTrigger) :
  (forall t,
      In t (SoundLayer.activeSounds frame soundTriggers) <->
      In t soundTriggers /\ startFrame t <= frame < startFrame t + 90)
  /\ Subsequence (SoundLayer.activeSounds frame soundTriggers) soundTriggers
  /\ (forall t,
         In t (SoundLayer.activeSounds frame soundTriggers) ->
         0 <= SoundLayer.offsetFrames frame t < 90
         /\ SoundLayer.startFrom frame t = SoundLayer.offsetFrames frame t)
  /\ (forall (random : nat -> Q) (chessjs : ChessJs) (moves : list string)
             (evaluations : list (option Z)) (settings : SoundEffectSettings)
             (fps : option Z) (n n' : nat),
         generateSoundSchedule random moves evaluations settings fps n
         = Some (soundTriggers, n') ->
         frame < 90 ->
         SoundLayer.activeSounds frame soundTriggers = []).
Proof.
  assert (Hact : forall t,
             In t (SoundLayer.activeSounds frame soundTriggers) <->
             In t soundTriggers /\ startFrame t <= frame < startFrame t + 90).
  { intro t. unfold SoundLayer.activeSounds, SoundLayer.is_active,
      SoundLayer.soundDurationFrames.
    rewrite filter_In, andb_true_iff, Z.geb_leb, Z.leb_le, Z.ltb_lt.
    reflexivity. }
  split; [exact Hact|]. split; [apply filter_Subsequence|]. split.
  - intros t Hin. apply Hact in Hin. destruct Hin as [_ Hw].
    unfold SoundLayer.startFrom, SoundLayer.offsetFrames. lia.
  - intros random chessjs moves evaluations settings fps n n' Hgen Hearly.
    destruct (SoundLayer.activeSounds frame soundTriggers) as [|t rest] eqn:E;
      [reflexivity|].
    destruct (proj1 (Hact t) (or_introl eq_refl)) as [Hin Hw].
    pose proof (@generateSoundSchedule_frames_lower random chessjs moves
                  evaluations settings fps soundTriggers n n' Hgen t Hin).
    lia.
Qed.

Lemma activeSounds_window_witness :
  SoundLayer.activeSounds 89 [Replay.mate_trigger; Replay.capture_trigger]
  = []
  /\ SoundLayer.activeSounds 359
       [Replay.mate_trigger; Replay.capture_trigger]
     = [Replay.mate_trigger; Replay.capture_trigger]
  /\ SoundLayer.activeSounds 360
       [Replay.mate_trigger; Replay.capture_trigger]
     = [Replay.capture_trigger].
Proof.
  split; [|split; reflexivity].
  apply (proj2 (proj2 (proj2 (activeSounds_window 89
                  [Replay.mate_trigger; Replay.capture_trigger])))
           Replay.zero_random (Replay.replay Replay.scholars_mate)
           Replay.scholars_mate_moves [] DEFAULT_SOUND_SETTINGS None
           0%nat 0%nat scholars_mate_schedule).
  lia.
Defined.

(** * The events of a run and their stamps *)

Import Trace.

Section BuilderEvents.

Variable random : nat -> Q.
Context {chessjs : ChessJs}.
Variable evaluations : list (option Z).
Variable settings : SoundEffectSettings.

(** The loop pushes the stamped cues of the events it classifies, and
    throws when their classification does. *)
Lemma schedule_loop_events (fps : Z) (moves : list string) :
  forall (index : nat) (st : LoopState) (n : nat),
    match schedule_loop random evaluations settings fps moves index st n with
    | Some (st', n') => Some (triggers_acc st', n')
    | None => None
    end
    = match classified_events random evaluations settings moves index
              (chess_board st) (previousEval_acc st) n with
      | Some (events, n') =>
          Some (triggers_acc st ++ event_cues index (map snd events), n')
      | None => None
      end.
Proof.
  induction moves as [|mv rest IH]; intros index st n.
  - simpl. unfold ret. now rewrite app_nil_r.
  - cbn [schedule_loop classified_events].
    unfold schedule_step. unfold bind, lift.
    destruct (parseMoveForAnalysis (chess_board st) mv (Z.of_nat index + 1)
                (previousEval_acc st) (eval_at evaluations index))
      as [[board' analysis]|]; [|reflexivity].
    unfold ret. cbv beta iota.
    destruct (analyzeMoveForSounds random analysis settings n)
      as [[sounds n1]|]; [|reflexivity].
    rewrite IH. cbn [chess_board previousEval_acc triggers_acc].
    destruct (classified_events random evaluations settings rest (S index)
                board' (eval_at evaluations index) n1)
      as [[events n']|]; [|reflexivity].
    unfold ret. cbn [map snd event_cues].
    rewrite push_triggers_stamped. now rewrite <- app_assoc.
Qed.

(** Event [i] is for move [i], carries its sequence number, and holds at
    most three cues, which the classifier returned for its analysis. *)
Lemma classified_events_facts (moves : list string) :
  forall (index : nat) (board : Chess) (previousEval : option Z)
         (events : list (MoveAnalysis * list SoundEffect)) (n n' : nat),
    classified_events random evaluations settings moves index board
      previousEval n = Some (events, n') ->
    map (fun e => move (fst e)) events = moves
    /\ forall i analysis sounds,
        nth_error events i = Some (analysis, sounds) ->
        moveNumber analysis = Z.of_nat (index + i) + 1
        /\ (length sounds <= 3)%nat
        /\ exists n1 n2,
            analyzeMoveForSounds random analysis settings n1 = Some (sounds, n2).
Proof.
  induction moves as [|mv rest IH];
    intros index board previousEval events n n' H; cbn [classified_events] in H.
  - apply ret_returns in H. destruct H as [<- _].
    split; [reflexivity|]. intros [|i] analysis sounds Hnth; discriminate.
  - apply bind_returns in H. destruct H as [[board' analysis] [n1 [Hparse H]]].
    apply lift_returns in Hparse. destruct Hparse as [Hparse ->].
    apply bind_returns in H. destruct H as [sounds [n2 [Hsounds H]]].
    apply bind_returns in H. destruct H as [events' [n3 [Hrest H]]].
    apply ret_returns in H. destruct H as [<- ->].
    apply IH in Hrest. destruct Hrest as [Hmoves Hev].
    unfold parseMoveForAnalysis in Hparse.
    destruct (chess_move board mv) as [[c m]|]; [|discriminate].
    inversion Hparse; subst board' analysis. clear Hparse.
    split; [cbn [map fst move]; now rewrite Hmoves|].
    intros [|i] analysis' sounds' Hnth; cbn [nth_error] in Hnth.
    + inversion Hnth; subst analysis' sounds'. rewrite Nat.add_0_r.
      split; [reflexivity|].
      split; [|eauto].
      eapply proj1, analyzeMoveForSounds_size, Hsounds.
    + destruct (Hev i analysis' sounds' Hnth) as [Hnum Hrest].
      replace (index + S i)%nat with (S index + i)%nat by lia.
      now split.
Qed.

End BuilderEvents.

(** The stamped cues are the cues of the events, in order. *)
Lemma event_cues_effects (per_event : list (list SoundEffect)) :
  forall index, map soundEffect (event_cues index per_event) = concat per_event.
Proof.
  induction per_event as [|sounds rest IH]; intro index; [reflexivity|].
  cbn [event_cues concat]. rewrite map_app, stamped_cues_effects.
  now rewrite IH.
Qed.

(** Where the [j]-th cue of the [i]-th event stands, and its stamp. *)
Lemma event_cues_nth (per_event : list (list SoundEffect)) :
  forall (index i : nat) (sounds : list SoundEffect) (j : nat)
         (sound : SoundEffect),
    nth_error per_event i = Some sounds ->
    nth_error sounds j = Some sound ->
    nth_error (event_cues index per_event)
      (length (concat (firstn i per_event)) + j)
    = Some {| soundEffect := sound;
              startFrame := 90 + Z.of_nat (index + i) * 30 + Z.of_nat j * 5;
              priority := getPriority sound |}.
Proof.
  induction per_event as [|first rest IH];
    intros index i sounds j sound Hi Hj.
  - destruct i; discriminate.
  - destruct i as [|i]; cbn [nth_error] in Hi; cbn [event_cues firstn concat].
    + inversion Hi; subst first. cbn [length Nat.add].
      rewrite nth_error_app1
        by (rewrite stamped_cues_length; apply nth_error_Some; congruence).
      apply stamped_cues_nth. exists sound. split; [exact Hj|].
      now rewrite !Nat.add_0_r, Nat.add_0_l.
    + rewrite length_app, <- Nat.add_assoc.
      rewrite nth_error_app2 by (rewrite stamped_cues_length; lia).
      rewrite stamped_cues_length.
      replace (length first + (length (concat (firstn i rest)) + j)
               - length first)%nat
        with (length (concat (firstn i rest)) + j)%nat by lia.
      rewrite (IH (S index) i sounds j sound Hi Hj).
      replace (S index + i)%nat with (index + S i)%nat by lia. reflexivity.
Qed.

Section BuilderStamps.

Variable random : nat -> Q.
Context {chessjs : ChessJs}.
Variable moves : list string.
Variable evaluations : list (option Z).
Variable settings : SoundEffectSettings.
Variable fps : option Z.

(** The sort being the identity on what the loop accumulates, the builder
    returns, or throws, as the loop does. *)
Lemma generateSoundSchedule_unsorted (n : nat) :
  generateSoundSchedule random moves evaluations settings fps n
  = accumulated_triggers random moves evaluations settings fps n.
Proof.
  unfold generateSoundSchedule, bind.
  destruct (accumulated_triggers random moves evaluations settings fps n)
    as [[acc n']|] eqn:Hacc; [|reflexivity].
  unfold ret. apply accumulated_triggers_trace in Hacc.
  destruct Hacc as [events [_ [Hev [E _]]]].
  rewrite js_sort_fixes_increasing; [reflexivity|].
  rewrite E. apply event_cues_increase. apply trace_sizes.
  intros i analysis sounds Hnth.
  now destruct (Hev i analysis sounds Hnth) as [_ [_ [_ [Hlen _]]]].
Qed.

(** The builder returns the stamped cues of the events of the run. *)
Lemma generateSoundSchedule_events (n : nat) :
  generateSoundSchedule random moves evaluations settings fps n
  = match classified_events random evaluations settings moves 0 new_Chess
            None n with
    | Some (events, n') => Some (event_cues 0 (map snd events), n')
    | None => None
    end.
Proof.
  rewrite generateSoundSchedule_unsorted.
  unfold accumulated_triggers, bind.
  pose proof (@schedule_loop_events random chessjs evaluations settings
                (with_default 30 fps) moves 0
                {| chess_board := new_Chess;
                   triggers_acc := [];
                   previousEval_acc := None |} n) as H.
  cbn [chess_board triggers_acc previousEval_acc app] in H.
  rewrite <- H.
  destruct (schedule_loop random evaluations settings (with_default 30 fps)
              moves 0 _ n) as [[st' n']|]; reflexivity.
Qed.

(** C9. In every run the [j]-th cue (from 0) produced for the event with
    sequence number [s] (from 1) is stamped with frame
    [90 + (s - 1) * 30 + j * 5].  The events of the run are the ones the
    loop classifies: event [i] is the analysis of move [i] on the board the
    earlier moves left, with sequence number [i + 1], and its cues are what
    the classifier returns for it at the draws reached.  The schedule holds
    the cues of these events, event after event and cue after cue, and
    nothing else; the cue at position [j] of event [i] stands in it after
    the cues of the earlier events and the [j] cues before it, with that
    frame and the priority of its category.  The builder throws exactly
    when the classification of the moves does.  The lead-in 90 and the
    spacing 30 are the defaults of calculateSoundFrameTiming, and two
    positions of one event never get the same frame when the stagger is
    positive. *)
Theorem generateSoundSchedule_stamps (n : nat) :
  (forall (sched : list SoundTrigger) (n' : nat),
      generateSoundSchedule random moves evaluations settings fps n
      = Some (sched, n') ->
      exists events : list (MoveAnalysis * list SoundEffect),
        classified_events random evaluations settings moves 0 new_Chess None n
        = Some (events, n')
        /\ map soundEffect sched = concat (map snd events)
        /\ forall i analysis sounds j sound,
            nth_error events i = Some (analysis, sounds) ->
            nth_error sounds j = Some sound ->
            nth_error moves i = Some (move analysis)
            /\ moveNumber analysis = Z.of_nat i + 1
            /\ nth_error sched (cues_before events i + j)
               = Some {| soundEffect := sound;
                         startFrame := stamp 90 30 5 (moveNumber analysis) j;
                         priority := getPriority sound |})
  /\ (generateSoundSchedule random moves evaluations settings fps n = None <->
      classified_events random evaluations settings moves 0 new_Chess None n
      = None)
  /\ (forall (s : Z) (anyFps : option Z),
         calculateSoundFrameTiming (s - 1) anyFps None None
         = 90 + (s - 1) * 30)
  /\ (forall (leadIn spacing stagger s : Z) (j1 j2 : nat),
         0 < stagger -> j1 <> j2 ->
         stamp leadIn spacing stagger s j1 <> stamp leadIn spacing stagger s j2).
Proof.
  split; [|split; [|split]].
  - intros sched n' H. rewrite generateSoundSchedule_events in H.
    destruct (classified_events random evaluations settings moves 0 new_Chess
                None n) as [[events n1]|] eqn:Hev; [|discriminate].
    inversion H; subst sched n'. clear H.
    exists events. split; [reflexivity|].
    split; [apply event_cues_effects|].
    intros i analysis sounds j sound Hi Hj.
    destruct (@classified_events_facts random chessjs evaluations settings
                moves 0 new_Chess None events n n1 Hev) as [Hmoves Hfacts].
    destruct (Hfacts i analysis sounds Hi) as [Hnum _].
    rewrite Nat.add_0_l in Hnum.
    split; [|split; [exact Hnum|]].
    + rewrite <- Hmoves, nth_error_map, Hi. reflexivity.
    + unfold cues_before. rewrite <- firstn_map.
      rewrite (@event_cues_nth (map snd events) 0 i sounds j sound);
        [|rewrite nth_error_map, Hi; reflexivity | exact Hj].
      unfold stamp. rewrite Hnum. rewrite Nat.add_0_l.
      do 2 f_equal. lia.
  - rewrite generateSoundSchedule_events.
    destruct (classified_events random evaluations settings moves 0 new_Chess
                None n) as [[events n1]|]; split; congruence.
  - intros s anyFps. reflexivity.
  - intros leadIn spacing stagger s j1 j2 Hpos Hne. unfold stamp. nia.
Qed.

End BuilderStamps.

(** The recorded game: its seventh event has the mate cue and the capture
    cue, stamped 270 and 275. *)
Lemma generateSoundSchedule_stamps_witness :
  exists events : list (MoveAnalysis * list SoundEffect),
    classified_events (chessjs := Replay.replay Replay.scholars_mate)
      Replay.zero_random [] DEFAULT_SOUND_SETTINGS Replay.scholars_mate_moves
      0 new_Chess None 0%nat
    = Some (events, 0%nat)
    /\ map (fun e => map id (snd e)) events
       = [[]; []; []; []; []; []; ["checkmate"; "capture-pawn"]]
    /\ nth_error [Replay.mate_trigger; Replay.capture_trigger]
         (cues_before events 6 + 0)
       = Some {| soundEffect := Replay.checkmate_cue;
                 startFrame := stamp 90 30 5 7 0;
                 priority := 5 |}
    /\ nth_error [Replay.mate_trigger; Replay.capture_trigger]
         (cues_before events 6 + 1)
       = Some {| soundEffect := Replay.capture_pawn_cue;
                 startFrame := stamp 90 30 5 7 1;
                 priority := 3 |}
    /\ stamp 90 30 5 7 0 = 270
    /\ stamp 90 30 5 7 1 = 275.
Proof.
  destruct (@generateSoundSchedule_stamps Replay.zero_random
              (Replay.replay Replay.scholars_mate) Replay.scholars_mate_moves
              [] DEFAULT_SOUND_SETTINGS None 0%nat) as [Hrun _].
  destruct (Hrun _ _ scholars_mate_schedule) as [events [Hev [_ Hpos]]].
  exists events. split; [exact Hev|].
  pose proof Hev as Hc. vm_compute in Hc. injection Hc as Hc. subst events.
  split; [reflexivity|].
  split; [exact (proj2 (proj2 (Hpos 6%nat _ _ 0%nat _ eq_refl eq_refl)))|].
  split; [exact (proj2 (proj2 (Hpos 6%nat _ _ 1%nat _ eq_refl eq_refl)))|].
  split; reflexivity.
Defined.

Section BuilderPerMove.

Variable random : nat -> Q.
Context {chessjs : ChessJs}.
Variable evaluations : list (option Z).
Variable settings : SoundEffectSettings.

(** The loop over a game in two parts. *)
Lemma schedule_loop_app (fps : Z) (played rest : list string) :
  forall (index : nat) (st : LoopState) (n : nat),
    schedule_loop random evaluations settings fps (played ++ rest) index st n
    = bind (schedule_loop random evaluations settings fps played index st)
        (fun st1 =>
           schedule_loop random evaluations settings fps rest
             (index + length played) st1) n.
Proof.
  induction played as [|mv played IH]; intros index st n.
  - cbn [app schedule_loop length]. unfold bind, ret.
    now rewrite Nat.add_0_r.
  - cbn [app schedule_loop length]. unfold bind.
    destruct (schedule_step random evaluations settings fps st mv index n)
      as [[st1 n1]|]; [|reflexivity].
    rewrite IH. unfold bind.
    now replace (S index + length played)%nat
      with (index + S (length played))%nat by lia.
Qed.

(** X7. What one move adds.  In a game that the builder schedules, take
    any move, the moves played before it and the moves after it.  The
    builder also schedules the game up to that move and the game before it,
    and the schedule of the whole game is the schedule of the game before
    the move, then the cues of the move, then the cues of the later moves.
    The cues of the move are at most three, each in the 11 frames that
    start at [90 + 30 * number of earlier moves], each with the priority of
    its category, between 3 and 5; and the move costs at most one call of
    Math.random. *)
Theorem generateSoundSchedule_per_move (played : list string) (mv : string)
  (rest : list string) (fps : option Z) (sched : list SoundTrigger)
  (n n' : nat) :
  generateSoundSchedule random (played ++ mv :: rest) evaluations settings
    fps n
  = Some (sched, n') ->
  exists (before cues after : list SoundTrigger) (n1 n2 : nat),
    generateSoundSchedule random played evaluations settings fps n
    = Some (before, n1)
    /\ generateSoundSchedule random (played ++ [mv]) evaluations settings
         fps n
       = Some (before ++ cues, n2)
    /\ sched = before ++ cues ++ after
    /\ (length cues <= 3)%nat
    /\ (n2 = n1 \/ n2 = S n1)
    /\ (n2 <= n')%nat
    /\ Forall (fun t =>
                 90 + 30 * Z.of_nat (length played) <= startFrame t
                 /\ startFrame t <= 100 + 30 * Z.of_nat (length played)
                 /\ priority t = getPriority (soundEffect t)
                 /\ 3 <= priority t <= 5) cues.
Proof.
  rewrite !generateSoundSchedule_unsorted.
  unfold accumulated_triggers. intro H.
  apply bind_returns in H. destruct H as [st' [n3 [Hloop H]]].
  apply ret_returns in H. destruct H as [<- ->].
  rewrite schedule_loop_app in Hloop.
  apply bind_returns in Hloop. destruct Hloop as [st1 [n1 [Hplayed Hlast]]].
  cbn [schedule_loop] in Hlast.
  apply bind_returns in Hlast. destruct Hlast as [st2 [n2 [Hstep Hrest]]].
  pose proof Hstep as Htrace. apply schedule_step_trace in Htrace.
  destruct Htrace as [analysis [sounds [_ [_ [_ [_ [Hsounds [Hacc _]]]]]]]].
  destruct (@analyzeMoveForSounds_size random analysis settings sounds n1 n2
              Hsounds) as [Hlen Hdraw].
  apply schedule_loop_trace in Hrest.
  destruct Hrest as [events [_ [_ [Hafter Hdraws]]]].
  rewrite Nat.add_0_l in Hacc.
  exists (triggers_acc st1),
         (stamped_cues (90 + Z.of_nat (length played) * 30) 0 sounds),
         (event_cues (S (0 + length played)) (map snd events)), n1, n2.
  split; [unfold bind; rewrite Hplayed; reflexivity|].
  split.
  { unfold bind at 1. rewrite schedule_loop_app. unfold bind. rewrite Hplayed.
    cbn [schedule_loop]. unfold bind. rewrite Hstep. unfold ret.
    now rewrite Hacc. }
  split; [now rewrite Hafter, Hacc, <- app_assoc|].
  split; [now rewrite stamped_cues_length|].
  split; [exact Hdraw|].
  split; [lia|].
  apply Forall_forall. intros t Hin.
  pose proof (@stamped_cues_frames _ sounds 0 t Hin) as Hframes.
  apply In_nth_error in Hin. destruct Hin as [k Hk].
  apply stamped_cues_nth in Hk. destruct Hk as [sound [Hs ->]].
  apply analyzeMoveForSounds_event_driven in Hsounds.
  rewrite Forall_forall in Hsounds.
  pose proof (Hsounds sound (nth_error_In _ _ Hs)) as Hd.
  cbn [startFrame priority soundEffect] in *.
  split; [lia|]. split; [lia|]. split; [reflexivity|].
  unfold getPriority. destruct (category sound); try discriminate; lia.
Qed.

End BuilderPerMove.

(** The recorded game as its first six moves and the mating move. *)
Lemma generateSoundSchedule_per_move_witness :
  exists (before cues after : list SoundTrigger) (n1 n2 : nat),
    generateSoundSchedule (chessjs := Replay.replay Replay.scholars_mate)
      Replay.zero_random ["e4"; "e5"; "Qh5"; "Nc6"; "Bc4"; "Nf6"] []
      DEFAULT_SOUND_SETTINGS None 0%nat
    = Some (before, n1)
    /\ generateSoundSchedule (chessjs := Replay.replay Replay.scholars_mate)
         Replay.zero_random
         (["e4"; "e5"; "Qh5"; "Nc6"; "Bc4"; "Nf6"] ++ ["Qxf7#"]) []
         DEFAULT_SOUND_SETTINGS None 0%nat
       = Some (before ++ cues, n2)
    /\ [Replay.mate_trigger; Replay.capture_trigger] = before ++ cues ++ after
    /\ (length cues <= 3)%nat
    /\ (n2 = n1 \/ n2 = S n1)
    /\ (n2 <= 0)%nat
    /\ Forall (fun t =>
                 90 + 30 * 6 <= startFrame t
                 /\ startFrame t <= 100 + 30 * 6
                 /\ priority t = getPriority (soundEffect t)
                 /\ 3 <= priority t <= 5) cues.
Proof.
  exact (@generateSoundSchedule_per_move Replay.zero_random
           (Replay.replay Replay.scholars_mate) [] DEFAULT_SOUND_SETTINGS
           ["e4"; "e5"; "Qh5"; "Nc6"; "Bc4"; "Nf6"] "Qxf7#" [] None
           [Replay.mate_trigger; Replay.capture_trigger] 0%nat 0%nat
           scholars_mate_schedule).
Defined.
